(** * codemirror.next: transactions, editor state and content-view dirty marks

    A shallow embedding of

    - [state/src/transaction.ts]  (class [Transaction]),
    - [state/src/state.ts]        (class [EditorState]),
    - [view/src/contentview.ts]   ([ContentView.markDirty] and
                                   [ContentView.markParentsDirty]),

    followed by the properties of these classes.

    JavaScript numbers are modelled as [Z], arrays as [list], the
    [{[id: number]: any}] store of field values as a [gmap], objects that
    are mutated in place ([Transaction], [ContentView]) by explicit state
    passing.  The collaborators these classes import from other files
    ([Text], [Change], [Mapping], [Configuration], ...) are interfaces
    (type classes); a concrete instance is given in [Model]. *)

From stdpp Require Import gmap strings list fin_maps pretty.
From Stdlib Require Import ZArith Lia Ascii.

Local Open Scope Z_scope.

(** ** JavaScript values and exceptions *)

(** The values an [any]-typed slot can hold, as far as the code below
    inspects them ([=== undefined], truthiness). *)
Inductive JsValue :=
| VUndefined
| VNull
| VBool (b : bool)
| VNum (n : Z)
| VStr (s : string)
| VObj (id : nat).

Global Instance JsValue_eq_dec : EqDecision JsValue.
Proof. solve_decision. Defined.

(** [if (v)]. *)
Definition truthy (v : JsValue) : bool :=
  match v with
  | VUndefined | VNull => false
  | VBool b => b
  | VNum n => negb (n =? 0)
  | VStr s => negb (String.eqb s "")
  | VObj _ => true
  end.

(** [throw new RangeError(msg)] and [throw new Error(msg)]; a
    [TypeError] is what the runtime raises for a property read on
    [undefined]. *)
Inductive exn :=
| RangeError (msg : string)
| Error (msg : string)
| TypeError (msg : string).

(** A call either returns a value or throws. *)
Inductive result (A : Type) :=
| Ok (a : A)
| Throw (e : exn).
Arguments Ok {A} a.
Arguments Throw {A} e.

Definition rbind {A B} (r : result A) (k : A -> result B) : result B :=
  match r with
  | Ok a => k a
  | Throw e => Throw e
  end.

Declare Scope result_scope.
Delimit Scope result_scope with result.
Notation "x <- r ;; k" := (rbind r (fun x => k))
  (at level 100, r at next level, right associativity) : result_scope.

(** ** Selections *)

(** Modelled from the spec: [SelectionRange] is declared in
    [state/src/selection.ts], outside the verified sources.  The spec
    gives it as [{anchor, head}] with derived [from = min], [to = max]. *)
Record SelectionRange := mkRange { anchor : Z; head : Z }.

Definition range_from (r : SelectionRange) : Z := Z.min (anchor r) (head r).
Definition range_to (r : SelectionRange) : Z := Z.max (anchor r) (head r).

(** [new SelectionRange(anchor)]: the head defaults to the anchor. *)
Definition cursor (pos : Z) : SelectionRange := mkRange pos pos.

(** [EditorSelection]: the fields the sources read are [ranges] and
    [primaryIndex]. *)
Record EditorSelection := mkSelection {
  ranges : list SelectionRange;
  primaryIndex : Z
}.

(** ** Collaborators *)

(** The document and a single change.  [Text] lives in [text/], [Change]
    in [state/src/change.ts]; the sources use [doc.length],
    [Text.of(lines)], [new Change(from, to, text)], [change.from],
    [change.to], [change.length], [change.apply(doc)] and
    [change.invert(doc)].  [string_split s sep] is [s.split(sep)], with
    [None] for the regular expression [DEFAULT_SPLIT = /\r\n?|\n/]. *)
Class ChangeOps := {
  Text : Type;
  text_length : Text -> Z;
  Text_of : list string -> Text;
  string_split : string -> option string -> list string;
  Change : Type;
  new_Change : Z -> Z -> list string -> Change;
  change_from : Change -> Z;
  change_to : Change -> Z;
  change_length : Change -> Z;
  change_apply : Change -> Text -> Text;
  change_invert : Change -> Text -> Change
}.

(** [ChangeSet]: [new ChangeSet(changes, mirror)] with the fields
    [changes] and [mirror] and the getter [length]. *)
Record ChangeSet `{ChangeOps} := mkChangeSet {
  changes : list Change;
  mirror : list Z
}.

Section ChangeSets.
Context `{ChangeOps}.

(** [ChangeSet.empty] *)
Definition ChangeSet_empty : ChangeSet := mkChangeSet _ [] [].

(** [set.length] *)
Definition ChangeSet_length (set : ChangeSet) : nat := length (changes set).

(** Modelled from the spec: [ChangeSet.append] is declared in
    [state/src/change.ts], outside the verified sources.  The change
    is added at the end of the ordered sequence; when a mirror index is
    given, the index of the new change and its mirror are paired in the
    mirror array. *)
Definition ChangeSet_append (set : ChangeSet) (change : Change)
    (mirror_ix : option Z) : ChangeSet :=
  mkChangeSet _ (changes set ++ [change])
    match mirror_ix with
    | Some m => mirror set ++ [Z.of_nat (ChangeSet_length set); m]
    | None => mirror set
    end.

(** The change bounds that [Transaction.change] accepts for a
    document. *)
Definition change_in_bounds (c : Change) (doc : Text) : Prop :=
  0 <= change_from c /\ change_from c <= change_to c
  /\ change_to c <= text_length doc.

(** Applying a list of changes, first to last. *)
Definition apply_changes (cs : list Change) (doc : Text) : Text :=
  foldl (fun d c => change_apply c d) doc cs.
End ChangeSets.

(** Position mappings.  [Mapping] is the interface that both [Change]
    and [ChangeSet] implement; [range.map(mapping)],
    [selection.map(mapping)], [changes.partialMapping(from)],
    [EditorSelection.create], [selection.asSingle()],
    [EditorSelection.single] are declared in [state/src/change.ts] and
    [state/src/selection.ts]. *)
Class MappingOps `{ChangeOps} := {
  Mapping : Type;
  Change_mapping : Change -> Mapping;
  partialMapping : ChangeSet -> nat -> Mapping;
  range_map : SelectionRange -> Mapping -> SelectionRange;
  selection_map : EditorSelection -> Mapping -> EditorSelection;
  EditorSelection_create : list SelectionRange -> Z -> EditorSelection;
  asSingle : EditorSelection -> EditorSelection;
  EditorSelection_single : Z -> EditorSelection
}.

(** The extension resolver ([extension/]) and what is read from a
    [Configuration]: the [stateField] behavior (the ids of the declared
    fields, in order), [allowMultipleSelections], [lineSeparator].
    [config_eqb] is object identity ([==]) on configurations. *)
Class ConfigOps := {
  Configuration : Type;
  Extension : Type;
  config_eqb : Configuration -> Configuration -> bool;
  stateField : Configuration -> list nat;
  allowMultipleSelections : Configuration -> bool;
  lineSeparator : Configuration -> option string;
  extendState_resolve : list Extension -> Configuration;
  config_replaceExtensions : Configuration -> list Extension -> Configuration
}.

(** ** [EditorState] *)

Record EditorState `{ChangeOps} `{ConfigOps} := mkState {
  st_configuration : Configuration;
  st_values : gmap nat JsValue;
  st_doc : Text;
  st_selection : EditorSelection
}.

Section EditorStateConstructor.
Context `{ChangeOps} `{ConfigOps}.

(** The loop of the constructor:
    [for (let range of selection.ranges)
       if (range.to > doc.length) throw new RangeError(...)]. *)
Fixpoint check_ranges (rs : list SelectionRange) (doc : Text) : result unit :=
  match rs with
  | [] => Ok tt
  | range :: rest =>
      if range_to range >? text_length doc
      then Throw (RangeError "Selection points outside of document")
      else check_ranges rest doc
  end.

(** [new EditorState(configuration, values, doc, selection)] *)
Definition new_EditorState (configuration : Configuration)
    (values : gmap nat JsValue) (doc : Text) (selection : EditorSelection)
    : result EditorState :=
  (_ <- check_ranges (ranges selection) doc ;;
   Ok (mkState _ _ configuration values doc selection))%result.

(** [state.field(field, require)]; a [StateField] is identified by its
    [id].  [this.values[field.id]] is [undefined] for a missing key, and
    [hasOwnProperty] tells a missing key from a stored [undefined]. *)
Definition field (this : EditorState) (fld : nat) (require : bool)
    : result JsValue :=
  let value := default VUndefined (st_values this !! fld) in
  if bool_decide (value = VUndefined)
     && negb (bool_decide (is_Some (st_values this !! fld)))
  then
    if bool_decide (fld ∈ stateField (st_configuration this))
    then Throw (RangeError "Field hasn't been initialized yet")
    else if require
    then Throw (RangeError "Field is not present in this state")
    else Ok VUndefined
  else Ok value.
End EditorStateConstructor.

(** ** [Transaction] *)

(** [Annotation.define<T>()] creates a fresh annotation type; the four
    static ones of [Transaction] are named, any other is numbered. *)
Inductive AnnotationType :=
| Transaction_time
| Transaction_preserveGoalColumn
| Transaction_userEvent
| Transaction_addToHistory
| Annotation_define (n : nat).

Global Instance AnnotationType_eq_dec : EqDecision AnnotationType.
Proof. solve_decision. Defined.

Record Annotation := mkAnnotation {
  ann_type : AnnotationType;
  ann_value : JsValue
}.

(** [const enum Flag]. *)
Definition Flag_SelectionSet : Z := 1.
Definition Flag_ScrollIntoView : Z := 2.
Definition Flag_Reconfigure : Z := 4.

Record Transaction `{ChangeOps} `{ConfigOps} := mkTransaction {
  tr_startState : EditorState;
  tr_changes : ChangeSet;
  tr_docs : list Text;
  tr_selection : EditorSelection;
  tr_annotations : list Annotation;
  tr_flags : Z;
  tr_configuration : Configuration;
  tr_state : option EditorState
}.

(** The fields are user code: [field.init(state)] and
    [field.apply(tr, value, state)] for the field with a given id. *)
Class FieldOps `{ChangeOps} `{ConfigOps} := {
  field_init : nat -> EditorState -> result JsValue;
  field_apply : nat -> Transaction -> JsValue -> EditorState -> result JsValue
}.

(** A method of the mutable [Transaction] object: it runs on the object,
    leaves it in a new state and returns or throws. *)
Definition M `{ChangeOps} `{ConfigOps} (A : Type) : Type :=
  Transaction -> Transaction * result A.

Section TransactionMonad.
Context `{ChangeOps} `{ConfigOps}.

Definition ret {A} (a : A) : M A := fun tr => (tr, Ok a).
Definition throw {A} (e : exn) : M A := fun tr => (tr, Throw e).
Definition bind {A B} (m : M A) (k : A -> M B) : M B :=
  fun tr =>
    match m tr with
    | (tr', Ok a) => k a tr'
    | (tr', Throw e) => (tr', Throw e)
    end.
Definition get : M Transaction := fun tr => (tr, Ok tr).
Definition gets {A} (f : Transaction -> A) : M A := fun tr => (tr, Ok (f tr)).
Definition modify (f : Transaction -> Transaction) : M unit :=
  fun tr => (f tr, Ok tt).
End TransactionMonad.

Declare Scope tr_scope.
Delimit Scope tr_scope with tr.
Notation "x <- m ;; k" := (bind m (fun x => k))
  (at level 100, m at next level, right associativity) : tr_scope.
Notation "m ;;; k" := (bind m (fun _ => k))
  (at level 100, right associativity) : tr_scope.

Section TransactionMethods.
Context `{ChangeOps} `{!MappingOps} `{ConfigOps} `{!FieldOps}.

Definition set_changes (set : ChangeSet) (this : Transaction) : Transaction :=
  mkTransaction _ _ (tr_startState this) set (tr_docs this) (tr_selection this)
    (tr_annotations this) (tr_flags this) (tr_configuration this) (tr_state this).

Definition set_docs (docs : list Text) (this : Transaction) : Transaction :=
  mkTransaction _ _ (tr_startState this) (tr_changes this) docs (tr_selection this)
    (tr_annotations this) (tr_flags this) (tr_configuration this) (tr_state this).

Definition set_selection (sel : EditorSelection) (this : Transaction) : Transaction :=
  mkTransaction _ _ (tr_startState this) (tr_changes this) (tr_docs this) sel
    (tr_annotations this) (tr_flags this) (tr_configuration this) (tr_state this).

Definition set_annotations (anns : list Annotation) (this : Transaction) : Transaction :=
  mkTransaction _ _ (tr_startState this) (tr_changes this) (tr_docs this)
    (tr_selection this) anns (tr_flags this) (tr_configuration this) (tr_state this).

Definition set_flags (flags : Z) (this : Transaction) : Transaction :=
  mkTransaction _ _ (tr_startState this) (tr_changes this) (tr_docs this)
    (tr_selection this) (tr_annotations this) flags (tr_configuration this)
    (tr_state this).

Definition set_configuration (c : Configuration) (this : Transaction) : Transaction :=
  mkTransaction _ _ (tr_startState this) (tr_changes this) (tr_docs this)
    (tr_selection this) (tr_annotations this) (tr_flags this) c (tr_state this).

Definition set_state (st : option EditorState) (this : Transaction) : Transaction :=
  mkTransaction _ _ (tr_startState this) (tr_changes this) (tr_docs this)
    (tr_selection this) (tr_annotations this) (tr_flags this)
    (tr_configuration this) st.

(** [new Transaction(startState, time)]; the default of [time] is
    [Date.now()], the reading [now] of the clock. *)
Definition new_Transaction (startState : EditorState) (time : option Z) (now : Z)
    : Transaction :=
  mkTransaction _ _ startState ChangeSet_empty [] (st_selection startState)
    [mkAnnotation Transaction_time (VNum (default now time))] 0
    (st_configuration startState) None.

(** [get doc()] *)
Definition tr_doc (this : Transaction) : Text :=
  let last := Z.of_nat (length (tr_docs this)) - 1 in
  if last <? 0 then st_doc (tr_startState this)
  else default (st_doc (tr_startState this)) (tr_docs this !! Z.to_nat last).

(** [ensureOpen()] *)
Definition ensureOpen : M unit :=
  fun this =>
    match tr_state this with
    | Some _ =>
        (this, Throw (Error "Transactions may not be modified after being applied"))
    | None => (this, Ok tt)
    end.

(** [annotate(...annotations)] *)
Definition annotate (annotations : list Annotation) : M unit :=
  (ensureOpen ;;;
   modify (fun this =>
     foldl (fun t ann => set_annotations (tr_annotations t ++ [ann]) t)
           this annotations))%tr.

(** [annotation(type)]: [n] is [i + 1] for the loop variable [i], which
    runs from [_annotations.length - 1] down to [0]. *)
Fixpoint annotation_loop (anns : list Annotation) (type : AnnotationType)
    (n : nat) : JsValue :=
  match n with
  | O => VUndefined
  | S i =>
      match anns !! i with
      | Some ann =>
          if bool_decide (ann_type ann = type) then ann_value ann
          else annotation_loop anns type i
      | None => annotation_loop anns type i
      end
  end.

Definition annotation (this : Transaction) (type : AnnotationType) : JsValue :=
  annotation_loop (tr_annotations this) type (length (tr_annotations this)).

(** [annotations(type)] *)
Definition annotations (this : Transaction) (type : AnnotationType)
    : list JsValue :=
  foldl (fun found ann =>
           if bool_decide (ann_type ann = type)
           then found ++ [ann_value ann] else found)
        [] (tr_annotations this).

(** [change(change, mirror)] *)
Definition change (c : Change) (mirror_ix : option Z) : M unit :=
  (ensureOpen ;;;
   this <- get ;;
   if (change_from c =? change_to c) && (change_length c =? 0) then ret tt
   else if (change_from c <? 0) || (change_to c <? change_from c)
           || (change_to c >? text_length (tr_doc this))
   then throw (RangeError ("Invalid change " +:+ pretty (change_from c)
                           +:+ " to " +:+ pretty (change_to c)))
   else
     modify (fun this =>
       let this1 := set_changes (ChangeSet_append (tr_changes this) c mirror_ix) this in
       let this2 := set_docs (tr_docs this1 ++ [change_apply c (tr_doc this1)]) this1 in
       set_selection (selection_map (tr_selection this2) (Change_mapping c)) this2))%tr.

(** [get docChanged()] *)
Definition docChanged (this : Transaction) : bool :=
  bool_decide (0 < ChangeSet_length (tr_changes this))%nat.

(** [setSelection(selection)] *)
Definition setSelection (selection : EditorSelection) : M unit :=
  (ensureOpen ;;;
   modify (fun this =>
     let this1 :=
       set_selection
         (if allowMultipleSelections (st_configuration (tr_startState this))
          then selection else asSingle selection) this in
     set_flags (Z.lor (tr_flags this1) Flag_SelectionSet) this1))%tr.

Definition selectionSet (this : Transaction) : bool :=
  0 <? Z.land (tr_flags this) Flag_SelectionSet.

(** [scrollIntoView()] *)
Definition scrollIntoView : M unit :=
  (ensureOpen ;;;
   modify (fun this => set_flags (Z.lor (tr_flags this) Flag_ScrollIntoView) this))%tr.

Definition scrolledIntoView (this : Transaction) : bool :=
  0 <? Z.land (tr_flags this) Flag_ScrollIntoView.

(** [replaceExtensions(replace)] *)
Definition replaceExtensions (replace : list Extension) : M unit :=
  (ensureOpen ;;;
   modify (fun this =>
     let this1 :=
       set_configuration
         (config_replaceExtensions (tr_configuration this) replace) this in
     set_flags (Z.lor (tr_flags this1) Flag_Reconfigure) this1))%tr.

(** [reconfigure(extensions)] *)
Definition reconfigure (extensions : list Extension) : M unit :=
  (ensureOpen ;;;
   modify (fun this =>
     let this1 := set_configuration (extendState_resolve extensions) this in
     set_flags (Z.lor (tr_flags this1) Flag_Reconfigure) this1))%tr.

Definition reconfigured (this : Transaction) : bool :=
  0 <? Z.land (tr_flags this) Flag_Reconfigure.

(** The body of the loop of [forEachRange], over the ranges still to be
    visited, with the array [newRanges] built so far. *)
Fixpoint forEachRange_loop (f : SelectionRange -> M SelectionRange)
    (start : nat) (rs : list SelectionRange) (newRanges : list SelectionRange)
    : M (list SelectionRange) :=
  match rs with
  | [] => ret newRanges
  | range :: rest =>
      (before <- gets (fun this => ChangeSet_length (tr_changes this)) ;;
       arg <- gets (fun this =>
                range_map range (partialMapping (tr_changes this) start)) ;;
       result <- f arg ;;
       this <- get ;;
       let newRanges1 :=
         if bool_decide (before < ChangeSet_length (tr_changes this))%nat
         then map (fun r => range_map r (partialMapping (tr_changes this) before))
                  newRanges
         else newRanges in
       forEachRange_loop f start rest (newRanges1 ++ [result]))%tr
  end.

(** [forEachRange(f)]; the callback [f(range, tr)] runs on the
    transaction. *)
Definition forEachRange (f : SelectionRange -> M SelectionRange) : M unit :=
  (sel <- gets tr_selection ;;
   start <- gets (fun this => ChangeSet_length (tr_changes this)) ;;
   newRanges <- forEachRange_loop f start (ranges sel) [] ;;
   setSelection (EditorSelection_create newRanges (primaryIndex sel)))%tr.

(** [configuration.getBehavior(EditorState.lineSeparator) || DEFAULT_SPLIT]:
    the separator to split at, [None] for [DEFAULT_SPLIT]; the empty
    string is falsy. *)
Definition split_separator (configuration : Configuration) : option string :=
  match lineSeparator configuration with
  | Some sep => if String.eqb sep "" then None else Some sep
  | None => None
  end.

(** [state.splitLines(text)] *)
Definition splitLines (this : EditorState) (text : string) : list string :=
  string_split text (split_separator (st_configuration this)).

(** The argument [text: string | readonly string[]] of [replace] and
    [replaceSelection]. *)
Definition text_content (this : Transaction) (text : string + list string)
    : list string :=
  match text with
  | inl s => splitLines (tr_startState this) s
  | inr lines => lines
  end.

(** [replace(from, to, text)] *)
Definition replace (from to : Z) (text : string + list string) : M unit :=
  (this <- get ;;
   change (new_Change from to (text_content this text)) None)%tr.

(** [replaceSelection(text)] *)
Definition replaceSelection (text : string + list string) : M unit :=
  (this <- get ;;
   let content := text_content this text in
   forEachRange (fun range =>
     let c := new_Change (range_from range) (range_to range) content in
     change c None ;;;
     ret (cursor (range_from range + change_length c))))%tr.

(** The store [values] of a state under construction is filled in place
    after the constructor has run. *)
Definition set_values (values : gmap nat JsValue) (st : EditorState) : EditorState :=
  mkState _ _ (st_configuration st) values (st_doc st) (st_selection st).

(** The loop of [applyTransaction] over the fields of the new
    configuration; [newState] carries the values stored so far. *)
Fixpoint applyTransaction_loop (this : EditorState) (tr : Transaction)
    (fields : list nat) (newState : EditorState) : result EditorState :=
  match fields with
  | [] => Ok newState
  | fld :: rest =>
      let exists_ :=
        config_eqb (tr_configuration tr) (st_configuration this)
        || bool_decide (is_Some (st_values this !! fld)) in
      (v <- (if exists_
             then field_apply fld tr (default VUndefined (st_values this !! fld))
                              newState
             else field_init fld newState) ;;
       applyTransaction_loop this tr rest
         (set_values (<[fld := v]> (st_values newState)) newState))%result
  end.

(** [state.applyTransaction(tr)] *)
Definition applyTransaction (this : EditorState) (tr : Transaction)
    : result EditorState :=
  let configuration := tr_configuration tr in
  (newState <- new_EditorState configuration ∅ (tr_doc tr) (tr_selection tr) ;;
   applyTransaction_loop this tr (stateField configuration) newState)%result.

(** [state.t(timestamp)] *)
Definition t (this : EditorState) (timestamp : option Z) (now : Z) : Transaction :=
  new_Transaction this timestamp now.

(** [apply()]:
    [this.state || (this.state = this.startState.applyTransaction(this))] *)
Definition apply : M EditorState :=
  fun this =>
    match tr_state this with
    | Some st => (this, Ok st)
    | None =>
        match applyTransaction (tr_startState this) this with
        | Ok st => (set_state (Some st) this, Ok st)
        | Throw e => (this, Throw e)
        end
    end.

(** The loop of [invertedChanges]: [n] is [i + 1] for the loop variable
    [i], which runs from [set.length - 1] down to [0]; the result lists
    the inverted changes in the order they are pushed.  Reading past the
    end of [docs] gives [undefined], on which [invert] cannot work. *)
Fixpoint invertedChanges_loop (this : Transaction) (n : nat) : result (list Change) :=
  match n with
  | O => Ok []
  | S i =>
      let doc :=
        if bool_decide (i = 0%nat) then Some (st_doc (tr_startState this))
        else tr_docs this !! (i - 1)%nat in
      match changes (tr_changes this) !! i, doc with
      | Some c, Some d =>
          (rest <- invertedChanges_loop this i ;;
           Ok (change_invert c d :: rest))%result
      | _, _ => Throw (TypeError "undefined has no properties")
      end
  end.

(** [invertedChanges()] *)
Definition invertedChanges (this : Transaction) : result ChangeSet :=
  if bool_decide (ChangeSet_length (tr_changes this) = 0%nat) then Ok ChangeSet_empty
  else
    let set := tr_changes this in
    (inverted <- invertedChanges_loop this (ChangeSet_length set) ;;
     Ok (mkChangeSet _ inverted
           (if bool_decide (length (mirror set) ≠ 0%nat)
            then map (fun i => Z.of_nat (ChangeSet_length set) - i - 1) (mirror set)
            else mirror set)))%result.

(** ** [EditorState.create] and [EditorState.fromJSON] *)

(** [EditorStateConfig]; an absent option is [None]. *)
Record EditorStateConfig := mkConfig {
  cfg_doc : option (string + Text);
  cfg_selection : option EditorSelection;
  cfg_extensions : option (list Extension)
}.

(** The loop of [create] that initializes the fields; [state] carries
    the values stored so far.  The name of the constructor that the
    source adds to the message is left out. *)
Fixpoint create_loop (fields : list nat) (state : EditorState) : result EditorState :=
  match fields with
  | [] => Ok state
  | fld :: rest =>
      let exists_ := default VUndefined (st_values state !! fld) in
      if truthy exists_ then Throw (Error "Duplicate use of state field")
      else
        (v <- field_init fld state ;;
         create_loop rest (set_values (<[fld := v]> (st_values state)) state))%result
  end.

(** [EditorState.create(config)] *)
Definition create (config : EditorStateConfig) : result EditorState :=
  let configuration := extendState_resolve (default [] (cfg_extensions config)) in
  let doc :=
    match cfg_doc config with
    | Some (inr text) => text
    | Some (inl s) => Text_of (string_split s (split_separator configuration))
    | None => Text_of (string_split "" (split_separator configuration))
    end in
  let selection := default (EditorSelection_single 0) (cfg_selection config) in
  let selection :=
    if negb (allowMultipleSelections configuration) then asSingle selection
    else selection in
  (state <- new_EditorState configuration ∅ doc selection ;;
   create_loop (stateField (st_configuration state)) state)%result.

End TransactionMethods.

(** The JSON input of [EditorState.fromJSON]: [json_doc] is [json.doc]
    when [json] is truthy and [typeof json.doc == "string"];
    [EditorSelection_fromJSON json] is
    [EditorSelection.fromJSON(json.selection)], declared in
    [state/src/selection.ts]. *)
Class JsonOps := {
  Json : Type;
  json_doc : Json -> option string;
  EditorSelection_fromJSON : Json -> result EditorSelection
}.

Section FromJSON.
Context `{ChangeOps} `{!MappingOps} `{ConfigOps} `{!FieldOps} `{JsonOps}.

(** [EditorState.fromJSON(json, config)] *)
Definition fromJSON (json : Json) (config : EditorStateConfig) : result EditorState :=
  match json_doc json with
  | None => Throw (RangeError "Invalid JSON representation for EditorState")
  | Some doc =>
      (selection <- EditorSelection_fromJSON json ;;
       create (mkConfig (Some (inl doc)) (Some selection) (cfg_extensions config)))%result
  end.
End FromJSON.

(** ** The vocabulary of the properties *)

Section Vocabulary.
Context `{CO : ChangeOps} `{!MappingOps} `{CF : ConfigOps} `{!FieldOps}.

(** The annotations of a type, in the order of the list. *)
Definition of_type (type : AnnotationType) (anns : list Annotation)
    : list Annotation :=
  filter (fun ann => ann_type ann = type) anns.

(** A true empty edit: [change.from == change.to && change.length == 0]. *)
Definition empty_change (c : Change) : Prop :=
  change_from c = change_to c /\ change_length c = 0.

(** The bounds that [change] rejects. *)
Definition out_of_bounds (c : Change) (doc : Text) : Prop :=
  change_from c < 0 \/ change_to c < change_from c
  \/ change_to c > text_length doc.

(** The transaction after an accepted change. *)
Definition changed (this : Transaction) (c : Change) (mirror_ix : option Z)
    : Transaction :=
  mkTransaction _ _ (tr_startState this)
    (ChangeSet_append (tr_changes this) c mirror_ix)
    (tr_docs this ++ [change_apply c (tr_doc this)])
    (selection_map (tr_selection this) (Change_mapping c))
    (tr_annotations this) (tr_flags this) (tr_configuration this)
    (tr_state this).

(** [ds] lists the documents after each of the changes [cs], made one
    after the other from [doc0] on, each within the bounds of the
    document it is made on. *)
Fixpoint snapshots (doc0 : Text) (cs : list Change) (ds : list Text) : Prop :=
  match cs, ds with
  | [], [] => True
  | c :: cs', d :: ds' =>
      change_in_bounds c doc0 /\ d = change_apply c doc0 /\ snapshots d cs' ds'
  | _, _ => False
  end.

(** The invariant of the class: [docs] are the snapshots of [changes],
    and mirror indices come with changes. *)
Definition consistent (this : Transaction) : Prop :=
  snapshots (st_doc (tr_startState this)) (changes (tr_changes this)) (tr_docs this)
  /\ (changes (tr_changes this) = [] -> mirror (tr_changes this) = []).

(** A method that keeps the invariant of the class. *)
Definition keeps_consistent {A} (m : M A) : Prop :=
  forall this, consistent this -> consistent (fst (m this)).

(** One invocation of the callback, as [forEachRange] sees it: the
    number of changes before it, the range it got, the range it
    returned, and the change set of the transaction after it. *)
Record Invocation := mkInvocation {
  inv_before : nat;
  inv_arg : SelectionRange;
  inv_result : SelectionRange;
  inv_after : ChangeSet
}.

(** Running the callback on the ranges in order: every invocation gets
    its range mapped through the changes appended since [start], the
    number of changes when [forEachRange] was called. *)
Fixpoint run_callbacks (f : SelectionRange -> M SelectionRange) (start : nat)
    (rs : list SelectionRange) : M (list Invocation) :=
  match rs with
  | [] => ret []
  | range :: rest =>
      (this <- get ;;
       let arg := range_map range (partialMapping (tr_changes this) start) in
       result <- f arg ;;
       after <- gets tr_changes ;;
       later <- run_callbacks f start rest ;;
       ret (mkInvocation (ChangeSet_length (tr_changes this)) arg result after
              :: later))%tr
  end.

(** A range collected earlier, mapped through the changes that an
    invocation appended, if it appended any. *)
Definition remap (r : SelectionRange) (i : Invocation) : SelectionRange :=
  if bool_decide (inv_before i < ChangeSet_length (inv_after i))%nat
  then range_map r (partialMapping (inv_after i) (inv_before i))
  else r.

(** The ranges collected in the end: what each invocation returned,
    mapped through the changes of every later invocation in turn. *)
Fixpoint collected (trace : list Invocation) : list SelectionRange :=
  match trace with
  | [] => []
  | i :: later => foldl remap (inv_result i) later :: collected later
  end.

(** The change set of the transaction just before invocation [i]: the
    one at the call for the first invocation, the one the invocation
    before left for the others. *)
Definition changes_before (this : Transaction) (trace : list Invocation)
    (i : nat) : ChangeSet :=
  match i with
  | O => tr_changes this
  | S j => from_option inv_after (tr_changes this) (trace !! j)
  end.

(** [forEachRange] by the words of its description: run the callbacks,
    collect, set the selection. *)
Definition forEachRange_spec (f : SelectionRange -> M SelectionRange) : M unit :=
  (sel <- gets tr_selection ;;
   start <- gets (fun this => ChangeSet_length (tr_changes this)) ;;
   trace <- run_callbacks f start (ranges sel) ;;
   setSelection (EditorSelection_create (collected trace) (primaryIndex sel)))%tr.




(** Every selection range ends within the document. *)
Definition selection_in_doc (sel : EditorSelection) (doc : Text) : Prop :=
  Forall (fun r => range_to r <= text_length doc) (ranges sel).

(** Some selection range ends behind the document. *)
Definition selection_past_doc (sel : EditorSelection) (doc : Text) : Prop :=
  Exists (fun r => range_to r > text_length doc) (ranges sel).

Definition range_error : exn := RangeError "Selection points outside of document".

End Vocabulary.

(** ** More vocabulary: what the methods leave in place *)

Section MoreVocabulary.
Context `{CO : ChangeOps} `{!MappingOps} `{CF : ConfigOps} `{!FieldOps}.

(** [this'] has the start state of [this], and its changes, mirror
    indices and snapshots begin with those of [this]. *)
Definition extends (this this' : Transaction) : Prop :=
  tr_startState this' = tr_startState this
  /\ changes (tr_changes this) `prefix_of` changes (tr_changes this')
  /\ mirror (tr_changes this) `prefix_of` mirror (tr_changes this')
  /\ tr_docs this `prefix_of` tr_docs this'.

(** A method that only adds to what a transaction has recorded. *)
Definition only_extends {A} (m : M A) : Prop :=
  forall this, extends this (fst (m this)).

(** A method that leaves the three flags as they are or sets them. *)
Definition keeps_flags {A} (m : M A) : Prop :=
  forall this,
    (selectionSet this = true -> selectionSet (fst (m this)) = true)
    /\ (scrolledIntoView this = true -> scrolledIntoView (fst (m this)) = true)
    /\ (reconfigured this = true -> reconfigured (fst (m this)) = true).

(** The error of [create] for a field that has a value already. *)
Definition duplicate_error : exn := Error "Duplicate use of state field".

(** The state has a value for exactly the fields in the list. *)
Definition has_values_for (st : EditorState) (fields : list nat) : Prop :=
  forall fld, is_Some (st_values st !! fld) <-> fld ∈ fields.

End MoreVocabulary.

(** ** [ContentView]: dirty marks *)

Module ContentView.

(** [const enum Dirty { Not = 0, Child = 1, Node = 2 }]; the field
    [dirty] holds a combination of the two bits. *)
Definition Dirty_Not : Z := 0.
Definition Dirty_Child : Z := 1.
Definition Dirty_Node : Z := 2.

(** The two fields of a [ContentView] object that the marking methods
    read and write.  Objects live in a store, addressed by [nat];
    [parent = None] is [null]. *)
Record View := mkView {
  parent : option nat;
  dirty : Z
}.

Definition set_dirty (d : Z) (v : View) : View := mkView (parent v) d.

(** [markParentsDirty(childList)], from the value [cur] of the loop
    variable [parent] on.  Every round that does not return sets the
    [Child] bit of an object that did not have it, so [fuel] bounds the
    number of rounds by the number of objects.  A reference to an object
    that is not in the store ends the walk like [null]. *)
Fixpoint markParentsDirty_loop (fuel : nat) (h : gmap nat View)
    (cur : option nat) (childList : bool) : option (gmap nat View) :=
  match cur with
  | None => Some h
  | Some p =>
      match h !! p with
      | None => Some h
      | Some v =>
          let d1 := if childList then Z.lor (dirty v) Dirty_Node else dirty v in
          if bool_decide (Z.land d1 Dirty_Child ≠ 0)
          then Some (<[p := set_dirty d1 v]> h)
          else
            match fuel with
            | O => None
            | S fuel' =>
                markParentsDirty_loop fuel'
                  (<[p := set_dirty (Z.lor d1 Dirty_Child) v]> h) (parent v) false
            end
      end
  end.

(** [this.markParentsDirty(childList)] *)
Definition markParentsDirty (h : gmap nat View) (this : nat) (childList : bool)
    : option (gmap nat View) :=
  match h !! this with
  | None => Some h
  | Some v => markParentsDirty_loop (size h) h (parent v) childList
  end.

(** [this.markDirty(andParent)] *)
Definition markDirty (h : gmap nat View) (this : nat) (andParent : bool)
    : option (gmap nat View) :=
  match h !! this with
  | None => Some h
  | Some v =>
      if bool_decide (Z.land (dirty v) Dirty_Node ≠ 0) then Some h
      else
        markParentsDirty
          (<[this := set_dirty (Z.lor (dirty v) Dirty_Node) v]> h) this andParent
  end.

(** [a] is the parent of [n]. *)
Definition parent_of (h : gmap nat View) (n a : nat) : Prop :=
  exists v, h !! n = Some v /\ parent v = Some a.

(** [a] is an ancestor of [n]: the parent, or an ancestor of the
    parent. *)
Inductive ancestor (h : gmap nat View) : nat -> nat -> Prop :=
| ancestor_parent n a : parent_of h n a -> ancestor h n a
| ancestor_step n p a : parent_of h n p -> ancestor h p a -> ancestor h n a.

(** The objects on the way up from [n]: [path h n l] holds when [l]
    lists the parent of [n], its parent, and so on, for some number of
    steps. *)
Fixpoint path (h : gmap nat View) (n : nat) (l : list nat) : Prop :=
  match l with
  | [] => True
  | a :: rest => parent_of h n a /\ is_Some (h !! a) /\ path h a rest
  end.

Definition has_bit (bit : Z) (h : gmap nat View) (n : nat) : Prop :=
  exists v, h !! n = Some v /\ Z.land (dirty v) bit ≠ 0.

Definition dirty_of (h : gmap nat View) (n : nat) : option Z :=
  dirty <$> h !! n.

(** Two trees [0 <- 1 <- 2]: a clean one, and one with the root
    child-dirty and the object [1] self-dirty. *)
Definition chain_clean : gmap nat View :=
  {[ 0%nat := mkView None Dirty_Not;
     1%nat := mkView (Some 0%nat) Dirty_Not;
     2%nat := mkView (Some 1%nat) Dirty_Not ]}.

Definition chain_self_dirty : gmap nat View :=
  {[ 0%nat := mkView None Dirty_Child;
     1%nat := mkView (Some 0%nat) Dirty_Node;
     2%nat := mkView (Some 1%nat) Dirty_Not ]}.

(** Every object with a dirty mark has a parent, if any, that is marked
    child-dirty. *)
Definition well_marked (h : gmap nat View) : Prop :=
  forall n v p, h !! n = Some v -> dirty v ≠ 0 -> parent v = Some p ->
    is_Some (h !! p) -> has_bit Dirty_Child h p.

(** The objects that are not marked child-dirty. *)
Definition unmarked (h : gmap nat View) : gmap nat View :=
  filter (fun kv => Z.land (dirty kv.2) Dirty_Child = 0%Z) h.

(** Marks are only added: an object of [h] is in [h'] with the same
    parent and at least the same bits. *)
Definition grows (h h' : gmap nat View) : Prop :=
  (forall x, h !! x = None -> h' !! x = None)
  /\ forall x vx, h !! x = Some vx ->
       exists vx', h' !! x = Some vx' /\ parent vx' = parent vx
                   /\ forall bits, Z.land (dirty vx) bits ≠ 0%Z ->
                                   Z.land (dirty vx') bits ≠ 0%Z.

(** Every parent reference is to an object of the store. *)
Definition closed (h : gmap nat View) : Prop :=
  forall n v p, h !! n = Some v -> parent v = Some p -> is_Some (h !! p).

(** [parent.dirty |= bits] on the object [a]. *)
Definition mark (bits : Z) (a : nat) (h : gmap nat View) : gmap nat View :=
  match h !! a with
  | Some v => <[a := set_dirty (Z.lor (dirty v) bits) v]> h
  | None => h
  end.

(** The walk of [markParentsDirty] from [cur]: it passes the objects
    [l], none of which is marked child-dirty, and then comes to [stop]:
    [null] or an object that is marked child-dirty. *)
Fixpoint walk (h : gmap nat View) (cur : option nat) (l : list nat)
    (stop : option nat) : Prop :=
  match l with
  | [] =>
      cur = stop
      /\ match stop with
         | Some s => forall vs, h !! s = Some vs ->
                               Z.land (dirty vs) Dirty_Child ≠ 0%Z
         | None => True
         end
  | a :: rest =>
      cur = Some a
      /\ exists va, h !! a = Some va /\ Z.land (dirty va) Dirty_Child = 0%Z
                    /\ walk h (parent va) rest stop
  end.

(** The marks such a walk leaves: the objects passed get the [Child]
    bit; with [childList], the first object the walk comes to gets the
    [Node] bit as well, be it passed or the one the walk stops at. *)
Fixpoint mark_walk (h : gmap nat View) (l : list nat) (stop : option nat)
    (childList : bool) : gmap nat View :=
  match l with
  | [] =>
      match stop with
      | Some s => mark (if childList then Dirty_Node else 0%Z) s h
      | None => h
      end
  | a :: rest =>
      mark_walk
        (mark (Z.lor (if childList then Dirty_Node else 0%Z) Dirty_Child) a h)
        rest stop false
  end.

End ContentView.

(** ** [ContentView]: positions, children and the root *)

Module ContentTree.
Import ContentView.

(** The fields [length], [children] and [breakAfter] of the objects;
    [length] and [children] are abstract in [ContentView], so they are
    given per object. *)
Record Layout := mkLayout {
  lengthOf : nat -> Z;
  childrenOf : nat -> list nat;
  breakAfterOf : nat -> Z
}.

(** [this.parent], [null] also for an object that is not in the store. *)
Definition parentOf (h : gmap nat View) (this : nat) : option nat :=
  match h !! this with
  | Some v => parent v
  | None => None
  end.

(** [this.setParent(parent)] *)
Definition setParent (h : gmap nat View) (this parent_ : nat)
    : option (gmap nat View) :=
  match h !! this with
  | None => Some h
  | Some v =>
      if bool_decide (parent v ≠ Some parent_) then
        let h1 := <[this := mkView (Some parent_) (dirty v)]> h in
        if bool_decide (dirty v ≠ 0) then markParentsDirty h1 this true
        else Some h1
      else Some h
  end.

(** [get rootView()]: the loop [for (let v = this;;)], for at most
    [fuel] rounds. *)
Fixpoint rootView (fuel : nat) (h : gmap nat View) (v : nat) : option nat :=
  match fuel with
  | O => None
  | S fuel' =>
      match parentOf h v with
      | None => Some v
      | Some p => rootView fuel' h p
      end
  end.

(** The loop of [posBefore(view)] over the children, from the position
    [pos] on. *)
Fixpoint posBefore_loop (L : Layout) (children : list nat) (view : nat)
    (pos : Z) : result Z :=
  match children with
  | [] => Throw (RangeError "Invalid child in posBefore")
  | child :: rest =>
      if bool_decide (child = view) then Ok pos
      else posBefore_loop L rest view (pos + (lengthOf L child + breakAfterOf L child))
  end.

(** [get posAtStart()]:
    [this.parent ? this.parent.posBefore(this) : 0], for a chain of at
    most [fuel] parents. *)
Fixpoint posAtStart (fuel : nat) (h : gmap nat View) (L : Layout) (this : nat)
    : option (result Z) :=
  match fuel with
  | O => None
  | S fuel' =>
      match parentOf h this with
      | None => Some (Ok 0)
      | Some p =>
          match posAtStart fuel' h L p with
          | Some (Ok pos) => Some (posBefore_loop L (childrenOf L p) this pos)
          | Some (Throw e) => Some (Throw e)
          | None => None
          end
      end
  end.

(** [this.posBefore(view)] *)
Definition posBefore (fuel : nat) (h : gmap nat View) (L : Layout)
    (this view : nat) : option (result Z) :=
  match posAtStart fuel h L this with
  | Some (Ok pos) => Some (posBefore_loop L (childrenOf L this) view pos)
  | Some (Throw e) => Some (Throw e)
  | None => None
  end.

(** [this.posAfter(view)] *)
Definition posAfter (fuel : nat) (h : gmap nat View) (L : Layout)
    (this view : nat) : option (result Z) :=
  match posBefore fuel h L this view with
  | Some (Ok pos) => Some (Ok (pos + lengthOf L view))
  | other => other
  end.

(** [get posAtEnd()] *)
Definition posAtEnd (fuel : nat) (h : gmap nat View) (L : Layout) (this : nat)
    : option (result Z) :=
  match posAtStart fuel h L this with
  | Some (Ok pos) => Some (Ok (pos + lengthOf L this))
  | other => other
  end.

(** [class ChildCursor] *)
Record ChildCursor := mkCursor {
  cc_children : list nat;
  cc_pos : Z;
  cc_i : nat;
  cc_off : Z
}.

(** The test of the loop of [findPos]:
    [pos > this.pos || pos == this.pos &&
     (bias > 0 || this.i == 0 || this.children[this.i - 1].breakAfter)];
    reading [breakAfter] of an index outside the array is a
    [TypeError]. *)
Definition findPos_found (L : Layout) (children : list nat) (pos bias cpos : Z)
    (i : nat) : result bool :=
  if pos >? cpos then Ok true
  else if pos =? cpos then
    if bias >? 0 then Ok true
    else
      match i with
      | O => Ok true
      | S j =>
          match children !! j with
          | Some c => Ok (negb (breakAfterOf L c =? 0))
          | None => Throw (TypeError "undefined has no properties")
          end
      end
  else Ok false.

(** [findPos(pos, bias)], from the cursor position [cpos] and index [i]
    on.  [--this.i] at index [0] reads [children[-1]], a [TypeError]. *)
Fixpoint findPos_loop (L : Layout) (children : list nat) (pos bias cpos : Z)
    (i : nat) : result ChildCursor :=
  match findPos_found L children pos bias cpos i with
  | Throw e => Throw e
  | Ok true => Ok (mkCursor children cpos i (pos - cpos))
  | Ok false =>
      match i with
      | O => Throw (TypeError "undefined has no properties")
      | S j =>
          match children !! j with
          | Some next =>
              findPos_loop L children pos bias
                (cpos - (lengthOf L next + breakAfterOf L next)) j
          | None => Throw (TypeError "undefined has no properties")
          end
      end
  end.

Definition findPos (L : Layout) (cur : ChildCursor) (pos bias : Z)
    : result ChildCursor :=
  findPos_loop L (cc_children cur) pos bias (cc_pos cur) (cc_i cur).

(** [this.childCursor(pos)]; the default of [pos] is [this.length]. *)
Definition childCursor (L : Layout) (this : nat) (pos : option Z) : ChildCursor :=
  mkCursor (childrenOf L this) (default (lengthOf L this) pos)
    (length (childrenOf L this)) 0.

(** [this.childPos(pos, bias)]; the default of [bias] is [1]. *)
Definition childPos (L : Layout) (this : nat) (pos : Z) (bias : option Z)
    : result ChildCursor :=
  findPos L (childCursor L this None) pos (default 1 bias).

(** [array.splice(start, deleteCount, ...items)] *)
Definition splice {A} (l : list A) (start deleteCount : Z) (items : list A)
    : list A :=
  let len := Z.of_nat (length l) in
  let s := if start <? 0 then Z.max (len + start) 0 else Z.min start len in
  let d := Z.min (Z.max deleteCount 0) (len - s) in
  take (Z.to_nat s) l ++ items ++ drop (Z.to_nat (s + d)) l.

(** The objects and their layout. *)
Record Tree := mkTree {
  views : gmap nat View;
  layout : Layout
}.

(** [child.parent = null] *)
Definition clear_parent (h : gmap nat View) (child : nat) : gmap nat View :=
  match h !! child with
  | Some v => <[child := mkView None (dirty v)]> h
  | None => h
  end.

(** The first loop of [replaceChildren]:
    [for (let i = from; i < to; i++) this.children[i].parent = null]. *)
Definition detach_loop (children : list nat) (from to : Z) (h : gmap nat View)
    : result (gmap nat View) :=
  foldl (fun r i =>
           (h <- r ;;
            match (if i <? 0 then None else children !! Z.to_nat i) with
            | Some child => Ok (clear_parent h child)
            | None => Throw (TypeError "undefined has no properties")
            end)%result)
        (Ok h) (seqZ from (to - from)).

(** The second loop of [replaceChildren]:
    [for (let i = 0; i < children.length; i++) children[i].setParent(this)]. *)
Fixpoint attach_loop (children : list nat) (this : nat) (h : gmap nat View)
    : option (gmap nat View) :=
  match children with
  | [] => Some h
  | child :: rest =>
      match setParent h child this with
      | Some h' => attach_loop rest this h'
      | None => None
      end
  end.

Definition set_children (L : Layout) (this : nat) (children : list nat) : Layout :=
  mkLayout (lengthOf L)
    (fun view => if bool_decide (view = this) then children else childrenOf L view)
    (breakAfterOf L).

(** [this.replaceChildren(from, to, children)] *)
Definition replaceChildren (t : Tree) (this : nat) (from to : Z)
    (children : list nat) : option (result Tree) :=
  match markDirty (views t) this false with
  | None => None
  | Some h1 =>
      match detach_loop (childrenOf (layout t) this) from to h1 with
      | Throw e => Some (Throw e)
      | Ok h2 =>
          let L :=
            set_children (layout t) this
              (splice (childrenOf (layout t) this) from (to - from) children) in
          match attach_loop children this h2 with
          | Some h3 => Some (Ok (mkTree h3 L))
          | None => None
          end
      end
  end.

(** The sum of [length + breakAfter] over a list of children. *)
Definition extent (L : Layout) (children : list nat) : Z :=
  foldr (fun child sum => lengthOf L child + breakAfterOf L child + sum) 0 children.

(** An object with a dirty mark has, if it has a parent in the store, a
    parent that is marked child-dirty. *)
Definition marked_at (h : gmap nat View) (n : nat) : Prop :=
  forall v p, h !! n = Some v -> dirty v ≠ 0 -> parent v = Some p ->
    is_Some (h !! p) -> has_bit Dirty_Child h p.

(** The parents on the way from an object up to a root. *)
Fixpoint root_path (h : gmap nat View) (this : nat) (l : list nat) : Prop :=
  match l with
  | [] => parentOf h this = None
  | p :: rest => parentOf h this = Some p /\ root_path h p rest
  end.

(** Where [findPos] stops: at the index [k], [base] being the position
    at which the first child starts. *)
Definition stops_at (L : Layout) (children : list nat) (pos bias base : Z)
    (i k : nat) : Prop :=
  (k <= i)%nat
  /\ (base + extent L (take k children) <= pos)
  /\ (forall c, (k < i)%nat -> children !! k = Some c ->
        (pos <= base + extent L (take k children)
                + (lengthOf L c + breakAfterOf L c))
        /\ (pos = base + extent L (take k children)
                  + (lengthOf L c + breakAfterOf L c)
            -> bias <= 0 /\ breakAfterOf L c = 0))
  /\ (pos = (base + extent L (take k children)) ->
      (0 < bias) \/ k = O
      \/ exists j c, k = S j /\ children !! j = Some c /\ breakAfterOf L c ≠ 0).

(** No object is added or removed and no mark is cleared; parents may
    change. *)
Definition keeps_marks (h h' : gmap nat View) : Prop :=
  (forall x, h !! x = None <-> h' !! x = None)
  /\ forall x vx, h !! x = Some vx ->
       exists vx', h' !! x = Some vx'
                   /\ forall bits, Z.land (dirty vx) bits ≠ 0 ->
                                   Z.land (dirty vx') bits ≠ 0.

(** The children at the indices [from] to [to - 1]. *)
Definition removed (children : list nat) (from to : Z) : list nat :=
  take (Z.to_nat (to - from)) (drop (Z.to_nat from) children).

(** A document view [0] of length [7] with two lines as its children,
    [1] with a break after it and [2]; the view [3] is newly made and in
    no tree: it has no parent and [dirty = Dirty.Node]. *)
Definition doc_layout : Layout :=
  mkLayout (fun n => match n with O => 7 | 1%nat | 2%nat | 3%nat => 3 | _ => 0 end)
           (fun n => match n with O => [1%nat; 2%nat] | _ => [] end)
           (fun n => match n with 1%nat => 1 | _ => 0 end).

Definition doc_views : gmap nat View :=
  {[ 0%nat := mkView None Dirty_Not;
     1%nat := mkView (Some 0%nat) Dirty_Not;
     2%nat := mkView (Some 0%nat) Dirty_Not;
     3%nat := mkView None Dirty_Node ]}.

Definition doc_tree : Tree := mkTree doc_views doc_layout.

End ContentTree.

(** ** The search extension: merging the keymaps *)

(** The combiner of [search] in [search/src/search.ts] builds two
    objects, [keys] and [panelKeys], from the configurations it is given,
    and hands them to [keymap] and [NormalizedKeymap].  The two loops
    that build them are modelled.  A keymap [{[key: string]: Command}]
    is given by its entries in the order of [Object.keys]; a command is
    a function, compared by identity, so it is given by a number that
    identifies it. *)
Module SearchKeymap.

Definition Command := nat.

Definition Keymap := list (string * Command).

Record SearchConfig := mkSearchConfig {
  keymap : option Keymap;
  panelKeymap : option Keymap
}.

Record KeyTables := mkTables {
  keys : gmap string Command;
  panelKeys : gmap string Command
}.

Definition conflict_error : exn := Error "Conflicting keyss for search extension".

(** [for (let key of Object.keys(conf.keymap))]; the test is
    [keys[key] && keys[key] != value], and a command is truthy. *)
Fixpoint keymap_loop (entries : Keymap) (tb : KeyTables) : result KeyTables :=
  match entries with
  | [] => Ok tb
  | (key, value) :: rest =>
      if match keys tb !! key with
         | Some old => bool_decide (old ≠ value)
         | None => false
         end
      then Throw conflict_error
      else keymap_loop rest
             (mkTables (<[key := value]> (keys tb)) (<[key := value]> (panelKeys tb)))
  end.

(** [for (let key of Object.keys(conf.panelKeymap))] *)
Definition panelKeymap_loop (entries : Keymap) (tb : KeyTables) : KeyTables :=
  foldl (fun tb entry => mkTables (keys tb) (<[entry.1 := entry.2]> (panelKeys tb)))
        tb entries.

(** [for (let conf of configs)] *)
Fixpoint search_loop (configs : list SearchConfig) (tb : KeyTables)
    : result KeyTables :=
  match configs with
  | [] => Ok tb
  | conf :: rest =>
      (tb1 <- match keymap conf with
              | Some entries => keymap_loop entries tb
              | None => Ok tb
              end ;;
       search_loop rest
         match panelKeymap conf with
         | Some entries => panelKeymap_loop entries tb1
         | None => tb1
         end)%result
  end.

(** The two objects that the combiner builds, both empty at first. *)
Definition search_tables (configs : list SearchConfig) : result KeyTables :=
  search_loop configs (mkTables ∅ ∅).

(** A keymap of one of the configurations binds [key] to [value]. *)
Definition binds (configs : list SearchConfig) (key : string) (value : Command)
    : Prop :=
  exists conf entries,
    conf ∈ configs /\ keymap conf = Some entries /\ (key, value) ∈ entries.

(** A panel keymap of one of the configurations binds [key]. *)
Definition panel_binds (configs : list SearchConfig) (key : string) : Prop :=
  exists conf entries value,
    conf ∈ configs /\ panelKeymap conf = Some entries /\ (key, value) ∈ entries.

(** Two keymaps, or one, bind one key to different commands. *)
Definition conflicting (configs : list SearchConfig) : Prop :=
  exists key v v', binds configs key v /\ binds configs key v' /\ v ≠ v'.

End SearchKeymap.

(** ** The search extension: searching backwards *)

(** [findPrevInRange] of [search/src/search.ts].  The search cursor is
    not part of the sources, so the values that
    [query.cursor(doc, start, pos)] yields, in order, are given by a
    function, and [query.search.length] by a number; a range
    [{from, to}] is a pair. *)
Module FindPrev.







End FindPrev.

(** ** A concrete instance of the collaborators *)

Module Model.

(** Modelled from the spec: [Text] is declared in [text/], outside the
    verified sources.  The document is a persistent text buffer with a
    length, built from lines; here it is the sequence of its characters,
    lines joined by a line feed. *)
Definition line_feed : ascii := ascii_of_nat 10.
Definition carriage_return : ascii := ascii_of_nat 13.

Fixpoint join_lines (lines : list (list ascii)) : list ascii :=
  match lines with
  | [] => []
  | [l] => l
  | l :: rest => l ++ line_feed :: join_lines rest
  end.

Definition text_of (lines : list string) : list ascii :=
  join_lines (String.list_ascii_of_string <$> lines).

(** [s.split(DEFAULT_SPLIT)]: a line ends at a line feed, at a carriage
    return, or at a carriage return followed by a line feed. *)
Fixpoint split_default (s : list ascii) (cur : list ascii) : list (list ascii) :=
  match s with
  | [] => [rev cur]
  | c :: rest =>
      if Ascii.eqb c line_feed then rev cur :: split_default rest []
      else if Ascii.eqb c carriage_return then
        match rest with
        | c' :: rest' =>
            if Ascii.eqb c' line_feed then rev cur :: split_default rest' []
            else rev cur :: split_default rest []
        | [] => rev cur :: split_default rest []
        end
      else split_default rest (c :: cur)
  end.

Fixpoint starts_with (sep s : list ascii) : bool :=
  match sep, s with
  | [], _ => true
  | a :: sep', b :: s' => Ascii.eqb a b && starts_with sep' s'
  | _ :: _, [] => false
  end.

(** [s.split(sep)] for a non-empty string [sep]; [skip] counts the
    characters of a separator still to be passed over. *)
Fixpoint split_at (sep s : list ascii) (skip : nat) (cur : list ascii)
    : list (list ascii) :=
  match s with
  | [] => [rev cur]
  | c :: rest =>
      match skip with
      | S k => split_at sep rest k cur
      | O =>
          if starts_with sep s
          then rev cur :: split_at sep rest (length sep - 1) []
          else split_at sep rest 0 (c :: cur)
      end
  end.

Definition split (s : string) (sep : option string) : list string :=
  String.string_of_list_ascii <$>
    match sep with
    | None => split_default (String.list_ascii_of_string s) []
    | Some sep =>
        split_at (String.list_ascii_of_string sep) (String.list_ascii_of_string s) 0 []
    end.

(** Modelled from the spec: [Change] is declared in
    [state/src/change.ts], outside the verified sources.  A change
    replaces the document range [[from, to)] by the given line-split
    content, kept here joined by line feeds.  [length] is the size of
    that content: [replaceSelection] puts the cursor at
    [range.from + change.length], behind the inserted block.  The
    inverse of a change puts back the text that the change replaced. *)
Record MChange := mkChange {
  m_from : Z;
  m_to : Z;
  m_inserted : list ascii
}.

Definition m_length (c : MChange) : Z := Z.of_nat (length (m_inserted c)).

Definition m_apply (c : MChange) (doc : list ascii) : list ascii :=
  take (Z.to_nat (m_from c)) doc ++ m_inserted c ++ drop (Z.to_nat (m_to c)) doc.

Definition m_invert (c : MChange) (doc : list ascii) : MChange :=
  mkChange (m_from c) (m_from c + m_length c)
    (take (Z.to_nat (m_to c) - Z.to_nat (m_from c)) (drop (Z.to_nat (m_from c)) doc)).

Definition change_ops : ChangeOps := {|
  Text := list ascii;
  text_length doc := Z.of_nat (length doc);
  Text_of := text_of;
  string_split := split;
  Change := MChange;
  new_Change from to text := mkChange from to (text_of text);
  change_from := m_from;
  change_to := m_to;
  change_length := m_length;
  change_apply := m_apply;
  change_invert := m_invert
|}.

(** Modelled from the spec: position mapping is declared in
    [state/src/change.ts], the selection classes in
    [state/src/selection.ts], both outside the verified sources.  A
    position is mapped through a change by shifting it when it lies
    behind the replaced range and by moving it to the edge of the range
    when it lies inside; a mapping is a sequence of such steps, and
    [partialMapping(from)] is made of the changes from index [from] on. *)
Definition map_pos_step (step : Z * Z * Z) (pos : Z) : Z :=
  let '(from, to, len) := step in
  if pos <? from then pos
  else if pos >? to then pos + (len - (to - from))
  else if (pos =? to) || (pos =? from) then
    if (if from =? to then true else pos =? from) then from else from + len
  else from.

Definition map_pos (mapping : list (Z * Z * Z)) (pos : Z) : Z :=
  foldl (fun p step => map_pos_step step p) pos mapping.

Definition step_of (c : MChange) : Z * Z * Z := (m_from c, m_to c, m_length c).

Definition m_range_map (r : SelectionRange) (mapping : list (Z * Z * Z))
    : SelectionRange :=
  mkRange (map_pos mapping (anchor r)) (map_pos mapping (head r)).

(** A selection is built from ranges sorted by position, overlapping
    ranges merged; the flag tells which range is the primary one. *)
Fixpoint insert_sorted (x : SelectionRange * bool) (l : list (SelectionRange * bool))
    : list (SelectionRange * bool) :=
  match l with
  | [] => [x]
  | y :: rest =>
      if range_from (fst y) <=? range_from (fst x)
      then y :: insert_sorted x rest else x :: y :: rest
  end.

Definition range_empty (r : SelectionRange) : bool := anchor r =? head r.

Definition overlaps (prev range : SelectionRange) : bool :=
  if range_empty range then range_from range <=? range_to prev
  else range_from range <? range_to prev.

Definition merge_ranges (prev range : SelectionRange) : SelectionRange :=
  let from := range_from prev in
  let to := Z.max (range_to range) (range_to prev) in
  if anchor range >? head range then mkRange to from else mkRange from to.

Fixpoint merge_sorted (l : list (SelectionRange * bool)) : list (SelectionRange * bool) :=
  match l with
  | [] => []
  | x :: rest =>
      match merge_sorted rest with
      | y :: rest' =>
          if overlaps (fst x) (fst y)
          then (merge_ranges (fst x) (fst y), snd x || snd y) :: rest'
          else x :: y :: rest'
      | [] => [x]
      end
  end.

Fixpoint index_of_flag (l : list (SelectionRange * bool)) : Z :=
  match l with
  | [] => 0
  | x :: rest => if snd x then 0 else 1 + index_of_flag rest
  end.

Definition m_create (rs : list SelectionRange) (primary : Z) : EditorSelection :=
  let flagged := imap (fun i r => (r, bool_decide (Z.of_nat i = primary))) rs in
  let merged := merge_sorted (foldr insert_sorted [] flagged) in
  mkSelection (fst <$> merged) (index_of_flag merged).

Definition m_asSingle (sel : EditorSelection) : EditorSelection :=
  match ranges sel with
  | [_] => sel
  | _ =>
      match ranges sel !! Z.to_nat (primaryIndex sel) with
      | Some r => mkSelection [r] 0
      | None => sel
      end
  end.

Definition mapping_ops : @MappingOps change_ops :=
  @Build_MappingOps change_ops
    (list (Z * Z * Z))
    (fun c : MChange => [step_of c])
    (fun (set : @ChangeSet change_ops) from =>
       step_of <$> drop from (@changes change_ops set : list MChange))
    m_range_map
    (fun sel mapping =>
       mkSelection ((fun r => m_range_map r mapping) <$> ranges sel)
                   (primaryIndex sel))
    m_create
    m_asSingle
    (fun pos => mkSelection [cursor pos] 0).

(** Modelled from the spec: the extension resolver is declared in
    [extension/], outside the verified sources.  A configuration is
    resolved from a list of extensions and tells the declared fields,
    whether several selection ranges are allowed, and the line
    separator; no extension is named, so [replaceExtensions] has nothing
    to replace. *)
Inductive MExtension :=
| ext_field (id : nat)
| ext_multipleSelections
| ext_lineSeparator (sep : string).

Record MConfiguration := mkConfiguration {
  c_fields : list nat;
  c_multiple : bool;
  c_separator : option string
}.

Global Instance MConfiguration_eq_dec : EqDecision MConfiguration.
Proof. solve_decision. Defined.

Fixpoint resolve (exts : list MExtension) : MConfiguration :=
  match exts with
  | [] => mkConfiguration [] false None
  | ext_field id :: rest =>
      let c := resolve rest in
      mkConfiguration (id :: c_fields c) (c_multiple c) (c_separator c)
  | ext_multipleSelections :: rest =>
      let c := resolve rest in
      mkConfiguration (c_fields c) true (c_separator c)
  | ext_lineSeparator sep :: rest =>
      let c := resolve rest in
      mkConfiguration (c_fields c) (c_multiple c) (Some sep)
  end.

Definition config_ops : ConfigOps := {|
  Configuration := MConfiguration;
  Extension := MExtension;
  config_eqb c1 c2 := bool_decide (c1 = c2);
  stateField := c_fields;
  allowMultipleSelections := c_multiple;
  lineSeparator := c_separator;
  extendState_resolve := resolve;
  config_replaceExtensions c _ := c
|}.

(** A field that counts the transactions applied since it was
    initialized. *)
Definition field_ops : @FieldOps change_ops config_ops :=
  @Build_FieldOps change_ops config_ops
    (fun _ _ => Ok (VNum 0))
    (fun _ _ value _ =>
       Ok match value with VNum n => VNum (n + 1) | _ => value end).

(** Modelled from the spec: the serialized snapshot is
    [{doc: string, selection: <selection JSON>}]; the selection JSON
    lists [(anchor, head)] pairs and the primary index. *)
Record MJson := mkJson {
  j_doc : option string;
  j_selection : option (list (Z * Z) * Z)
}.

Definition json_ops : JsonOps := {|
  Json := MJson;
  json_doc := j_doc;
  EditorSelection_fromJSON json :=
    match j_selection json with
    | Some (rs, primary) =>
        if primary >=? Z.of_nat (length rs)
        then Throw (RangeError "Invalid JSON representation for EditorSelection")
        else Ok (mkSelection ((fun p => mkRange (fst p) (snd p)) <$> rs) primary)
    | None => Throw (RangeError "Invalid JSON representation for EditorSelection")
    end
|}.

(** Objects to run the methods on: the state of the document [abc]
    with the cursor at its start, a transaction on it and that
    transaction after [replace(1, 2, "X")]; a state that allows several
    selection ranges, with cursors at [0] and [3]. *)
Definition abc : list ascii := String.list_ascii_of_string "abc".

Definition state_abc : @EditorState change_ops config_ops :=
  mkState change_ops config_ops (resolve []) ∅ abc (mkSelection [cursor 0] 0).

Definition tr_abc : @Transaction change_ops config_ops :=
  @t change_ops config_ops state_abc (Some 5) 0.

Definition tr_aXc : @Transaction change_ops config_ops :=
  fst (@replace change_ops mapping_ops config_ops 1 2 (inl "X"%string) tr_abc).

Definition change_X : MChange := mkChange 1 2 (String.list_ascii_of_string "X").

Definition state_two_cursors : @EditorState change_ops config_ops :=
  mkState change_ops config_ops (resolve [ext_multipleSelections; ext_field 7]) ∅
    abc (mkSelection [cursor 0; cursor 3] 1).

Definition tr_two_cursors : @Transaction change_ops config_ops :=
  @t change_ops config_ops state_two_cursors None 9.

(** The callback of [replaceSelection("XY")]. *)
Definition insert_XY (range : SelectionRange) : @M change_ops config_ops SelectionRange :=
  let c := mkChange (range_from range) (range_to range) (text_of ["XY"%string]) in
  (@change change_ops mapping_ops config_ops c None ;;;
   ret (cursor (range_from range + m_length c)))%tr.

(** A transaction whose selection has been set behind the end of the
    document. *)
Definition tr_past_end : @Transaction change_ops config_ops :=
  fst (@setSelection change_ops mapping_ops config_ops
         (mkSelection [cursor 10] 0) tr_abc).

(** The document [abc] with the field [7]. *)
Definition config_abc_field : @EditorStateConfig change_ops config_ops :=
  @mkConfig change_ops config_ops (Some (inl "abc"%string)) None
    (Some [ext_field 7]).

End Model.

(** * Properties *)

(** ** Annotations *)

Section Annotations.
Context `{CO : ChangeOps} `{!MappingOps} `{CF : ConfigOps} `{!FieldOps}.

Lemma annotation_loop_take anns type n :
  (n <= length anns)%nat ->
  annotation_loop anns type n
  = from_option ann_value VUndefined (last (of_type type (take n anns))).
Proof.
  induction n as [|i IH]; intros Hn; simpl.
  - done.
  - destruct (lookup_lt_is_Some_2 anns i) as [ann Hann]; [lia|].
    rewrite Hann, (take_S_r _ _ _ Hann).
    unfold of_type. rewrite filter_app.
    case_bool_decide as Hty.
    + rewrite filter_cons_True, filter_nil by done. by rewrite last_snoc.
    + rewrite filter_cons_False, filter_nil, app_nil_r by done.
      apply IH. lia.
Qed.

Lemma annotations_foldl type anns found :
  foldl (fun found ann =>
           if bool_decide (ann_type ann = type)
           then found ++ [ann_value ann] else found) found anns
  = found ++ (ann_value <$> of_type type anns).
Proof.
  revert found. induction anns as [|ann anns IH]; intros found; simpl.
  - by rewrite app_nil_r.
  - rewrite IH. unfold of_type. case_bool_decide as Hty.
    + rewrite filter_cons_True by done. by rewrite <- app_assoc.
    + by rewrite filter_cons_False.
Qed.

Lemma annotate_foldl (anns : list Annotation) (this : Transaction) :
  foldl (fun t ann => set_annotations (tr_annotations t ++ [ann]) t) this anns
  = set_annotations (tr_annotations this ++ anns) this.
Proof.
  revert this. induction anns as [|ann anns IH]; intros this; simpl.
  - rewrite app_nil_r. by destruct this.
  - rewrite IH. unfold set_annotations; simpl. by rewrite <- app_assoc.
Qed.

(** C8.  The single-value lookup [annotation(type)] returns the value of
    the last annotation of that type in the transaction's list
    ([undefined] when there is none), the multi-value lookup
    [annotations(type)] returns the values of all annotations of that
    type in the order of the list, and the list is in the order of
    adding: [annotate] on an open transaction puts its arguments, in
    their order, behind the annotations already there. *)
Theorem annotation_lookup (this : Transaction) (type : AnnotationType) :
  annotation this type
  = from_option ann_value VUndefined (last (of_type type (tr_annotations this)))
  /\ annotations this type = ann_value <$> of_type type (tr_annotations this)
  /\ forall anns,
       tr_state this = None ->
       annotate anns this
       = (set_annotations (tr_annotations this ++ anns) this, Ok tt).
Proof.
  split; [|split].
  - unfold annotation. rewrite annotation_loop_take by done.
    by rewrite firstn_all.
  - unfold annotations. by rewrite annotations_foldl.
  - intros anns Hopen. unfold annotate, bind, ensureOpen, modify.
    rewrite Hopen. by rewrite annotate_foldl.
Qed.

(** C9.  A transaction as the constructor leaves it carries exactly one
    annotation, of type [Transaction.time], whose value is the timestamp
    given to the constructor, or the current time when none is given;
    so both lookups of [Transaction.time] find it. *)
Theorem new_Transaction_time (startState : EditorState) (time : option Z) (now : Z) :
  let this := new_Transaction startState time now in
  let stamp := match time with Some ts => ts | None => now end in
  tr_annotations this = [mkAnnotation Transaction_time (VNum stamp)]
  /\ annotation this Transaction_time = VNum stamp
  /\ annotations this Transaction_time = [VNum stamp]
  /\ t startState time now = this.
Proof. by destruct time. Qed.

End Annotations.

(** ** Changes *)

Section Changes.
Context `{CO : ChangeOps} `{!MappingOps} `{CF : ConfigOps} `{!FieldOps}.

Lemma empty_change_test c :
  (change_from c =? change_to c) && (change_length c =? 0) = true
  <-> empty_change c.
Proof. unfold empty_change. rewrite andb_true_iff, !Z.eqb_eq. tauto. Qed.

Lemma out_of_bounds_test c doc :
  (change_from c <? 0) || (change_to c <? change_from c)
  || (change_to c >? text_length doc) = true
  <-> out_of_bounds c doc.
Proof.
  unfold out_of_bounds.
  rewrite !orb_true_iff, !Z.ltb_lt, Z.gtb_gt. tauto.
Qed.

Lemma not_out_of_bounds c doc : ~ out_of_bounds c doc <-> change_in_bounds c doc.
Proof. unfold out_of_bounds, change_in_bounds. lia. Qed.

Lemma change_open (this : Transaction) c mirror_ix :
  tr_state this = None ->
  change c mirror_ix this
  = if (change_from c =? change_to c) && (change_length c =? 0)
    then (this, Ok tt)
    else if (change_from c <? 0) || (change_to c <? change_from c)
            || (change_to c >? text_length (tr_doc this))
    then (this, Throw (RangeError ("Invalid change " +:+ pretty (change_from c)
                                   +:+ " to " +:+ pretty (change_to c))))
    else (changed this c mirror_ix, Ok tt).
Proof.
  intros Hopen. unfold change, bind, ensureOpen, get. rewrite Hopen.
  destruct (_ && _); [done|]. destruct (_ || _); done.
Qed.

(** C3.  On an open transaction, [change(c)] does one of three things,
    tried in this order: for a true empty edit ([c.from == c.to] and
    [c.length == 0]) it returns with the transaction as it was; else,
    for [c.from < 0] or [c.to < c.from] or [c.to > doc.length], it
    raises a range error and leaves the transaction as it was; else it
    appends [c] to the change set, pushes the document that results from
    applying [c] to the current document onto [docs], and replaces the
    selection by the selection mapped through [c]. *)
Theorem change_cases (this : Transaction) (c : Change) (mirror_ix : option Z) :
  tr_state this = None ->
  (empty_change c -> change c mirror_ix this = (this, Ok tt))
  /\ (~ empty_change c -> out_of_bounds c (tr_doc this) ->
      exists msg, change c mirror_ix this = (this, Throw (RangeError msg)))
  /\ (~ empty_change c -> ~ out_of_bounds c (tr_doc this) ->
      exists this',
        change c mirror_ix this = (this', Ok tt)
        /\ tr_changes this' = ChangeSet_append (tr_changes this) c mirror_ix
        /\ tr_docs this' = tr_docs this ++ [change_apply c (tr_doc this)]
        /\ tr_selection this'
           = selection_map (tr_selection this) (Change_mapping c)
        /\ tr_doc this' = change_apply c (tr_doc this)
        /\ tr_startState this' = tr_startState this
        /\ tr_annotations this' = tr_annotations this
        /\ tr_flags this' = tr_flags this
        /\ tr_configuration this' = tr_configuration this
        /\ tr_state this' = None).
Proof.
  intros Hopen. rewrite (change_open _ _ _ Hopen).
  pose proof (empty_change_test c) as He.
  pose proof (out_of_bounds_test c (tr_doc this)) as Hb.
  destruct (_ && _) eqn:E1.
  { split; [done|]. split; intros Hne; destruct Hne; by apply He. }
  assert (~ empty_change c) as Hne by (intros Hc; apply He in Hc; done).
  destruct (_ || _) eqn:E2.
  { split; [done|]. split; [eauto|]. intros _ Hin. destruct Hin. by apply Hb. }
  split; [done|]. split.
  { intros _ Hout. apply Hb in Hout. done. }
  intros _ _. exists (changed this c mirror_ix).
  repeat split; try done.
  unfold tr_doc, changed; simpl.
  rewrite length_app; simpl.
  replace (Z.of_nat (length (tr_docs this) + 1) - 1 <? 0) with false
    by (symmetry; apply Z.ltb_ge; lia).
  replace (Z.to_nat (Z.of_nat (length (tr_docs this) + 1) - 1))
    with (length (tr_docs this) + 0)%nat by lia.
  by rewrite lookup_app_r, Nat.add_0_r, Nat.sub_diag by lia.
Qed.

End Changes.

(** ** Inverting the changes of a transaction *)

Section Inversion.
Context `{CO : ChangeOps} `{!MappingOps} `{CF : ConfigOps} `{!FieldOps}.

Lemma tr_doc_last (this : Transaction) :
  tr_doc this = default (st_doc (tr_startState this)) (last (tr_docs this)).
Proof.
  unfold tr_doc. destruct (tr_docs this) as [|d ds] using rev_ind; [done|].
  rewrite last_snoc, length_app; simpl.
  replace (Z.of_nat (length ds + 1) - 1 <? 0) with false
    by (symmetry; apply Z.ltb_ge; lia).
  replace (Z.to_nat (Z.of_nat (length ds + 1) - 1)) with (length ds + 0)%nat by lia.
  by rewrite lookup_app_r, Nat.add_0_r, Nat.sub_diag by lia.
Qed.

Lemma snapshots_length doc0 cs ds : snapshots doc0 cs ds -> length cs = length ds.
Proof.
  revert doc0 ds. induction cs as [|c cs IH]; intros doc0 [|d ds]; simpl; try done.
  intros (_ & _ & Hs). f_equal. eauto.
Qed.

Lemma last_cons_default {A} (x y : A) (l : list A) :
  default x (last (y :: l)) = default y (last l).
Proof. destruct l as [|z l] using rev_ind; [done|]. by rewrite app_comm_cons, !last_snoc. Qed.

Lemma snapshots_snoc doc0 cs ds c :
  snapshots doc0 cs ds ->
  change_in_bounds c (default doc0 (last ds)) ->
  snapshots doc0 (cs ++ [c]) (ds ++ [change_apply c (default doc0 (last ds))]).
Proof.
  revert doc0 ds. induction cs as [|c0 cs IH]; intros doc0 [|d ds]; try done.
  intros (Hb & Hd & Hs) Hc. rewrite last_cons_default in Hc.
  rewrite <- !app_comm_cons, last_cons_default.
  cbn [snapshots]. split; [done|]. split; [done|]. by apply IH.
Qed.

(** The constructor establishes the invariant and [change] keeps it, in
    each of its three cases. *)
Lemma consistent_new startState time now :
  consistent (new_Transaction startState time now).
Proof. done. Qed.

Lemma consistent_change (this : Transaction) c mirror_ix :
  consistent this -> consistent (fst (change c mirror_ix this)).
Proof.
  intros [Hs Hm]. unfold change, bind, ensureOpen, get.
  destruct (tr_state this); [done|]. simpl.
  destruct (_ && _); [done|].
  destruct (_ || _) eqn:Hb; [done|]. simpl.
  apply not_true_iff_false in Hb. rewrite out_of_bounds_test in Hb.
  apply not_out_of_bounds in Hb.
  split; simpl.
  - replace (tr_doc _) with (tr_doc this) by done.
    rewrite tr_doc_last in Hb |- *. by apply snapshots_snoc.
  - intros Hnil. by destruct (changes (tr_changes this)).
Qed.

(** The methods other than [change] do not touch [changes], [docs] or
    the start state; [forEachRange] keeps the invariant when its
    callback does. *)
Lemma keeps_consistent_bind {A B} (m : M A) (k : A -> M B) :
  keeps_consistent m -> (forall a, keeps_consistent (k a)) ->
  keeps_consistent (bind m k).
Proof.
  intros Hm Hk this Hc. unfold bind. specialize (Hm this Hc).
  destruct (m this) as [this1 [a|e]]; [|done]. by apply Hk.
Qed.

Lemma keeps_consistent_modify (f : Transaction -> Transaction) :
  (forall this, tr_startState (f this) = tr_startState this
                /\ tr_changes (f this) = tr_changes this
                /\ tr_docs (f this) = tr_docs this) ->
  keeps_consistent (modify f).
Proof.
  intros Hf this Hc. simpl. destruct (Hf this) as (Hs & Hcs & Hds).
  unfold consistent. by rewrite Hs, Hcs, Hds.
Qed.

Lemma keeps_consistent_ensureOpen : keeps_consistent ensureOpen.
Proof. intros this Hc. unfold ensureOpen. by destruct (tr_state this). Qed.

Lemma keeps_consistent_methods :
  (forall c mirror_ix, keeps_consistent (change c mirror_ix))
  /\ (forall anns, keeps_consistent (annotate anns))
  /\ (forall sel, keeps_consistent (setSelection sel))
  /\ keeps_consistent scrollIntoView
  /\ (forall exts, keeps_consistent (replaceExtensions exts))
  /\ (forall exts, keeps_consistent (reconfigure exts))
  /\ keeps_consistent apply
  /\ (forall f, (forall range, keeps_consistent (f range)) ->
         keeps_consistent (forEachRange f)).
Proof.
  assert (forall sel, keeps_consistent (setSelection sel)) as Hsel.
  { intros sel. apply keeps_consistent_bind; [apply keeps_consistent_ensureOpen|].
    intros _. by apply keeps_consistent_modify. }
  split; [intros c m this; apply consistent_change|].
  split.
  { intros anns. apply keeps_consistent_bind; [apply keeps_consistent_ensureOpen|].
    intros _. apply keeps_consistent_modify. intros this.
    by rewrite annotate_foldl. }
  split; [done|].
  assert (forall f : Transaction -> Transaction,
            (forall this, tr_startState (f this) = tr_startState this
                          /\ tr_changes (f this) = tr_changes this
                          /\ tr_docs (f this) = tr_docs this) ->
            keeps_consistent (ensureOpen ;;; modify f)%tr) as Hflag.
  { intros f Hf. apply keeps_consistent_bind; [apply keeps_consistent_ensureOpen|].
    intros _. by apply keeps_consistent_modify. }
  split; [by apply Hflag|].
  split; [intros exts; by apply Hflag|].
  split; [intros exts; by apply Hflag|].
  split.
  - intros this Hc. unfold apply. destruct (tr_state this); [done|].
    by destruct (applyTransaction _ _).
  - intros f Hf. unfold forEachRange.
    apply keeps_consistent_bind; [by intros ?|]. intros sel.
    apply keeps_consistent_bind; [by intros ?|]. intros start.
    apply keeps_consistent_bind; [|done].
    generalize (@nil SelectionRange) as newRanges.
    induction (ranges sel) as [|range rest IH]; intros newRanges; [by intros ?|].
    cbn [forEachRange_loop].
    apply keeps_consistent_bind; [by intros ?|]. intros before.
    apply keeps_consistent_bind; [by intros ?|]. intros arg.
    apply keeps_consistent_bind; [done|]. intros result.
    apply keeps_consistent_bind; [by intros ?|]. intros this1. apply IH.
Qed.

(** What the loop of [invertedChanges] pushes. *)
Lemma invertedChanges_loop_ok (this : Transaction) n :
  length (tr_docs this) = length (changes (tr_changes this)) ->
  (n <= length (changes (tr_changes this)))%nat ->
  invertedChanges_loop this n
  = Ok (reverse (zip_with change_invert
                   (take n (changes (tr_changes this)))
                   (take n (st_doc (tr_startState this) :: tr_docs this)))).
Proof.
  intros Hlen. induction n as [|i IH]; intros Hn; [done|].
  destruct (lookup_lt_is_Some_2 (changes (tr_changes this)) i) as [c Hc]; [lia|].
  destruct (lookup_lt_is_Some_2 (st_doc (tr_startState this) :: tr_docs this) i)
    as [d Hd]; [simpl; lia|].
  cbn [invertedChanges_loop]. rewrite Hc.
  assert ((if bool_decide (i = 0%nat) then Some (st_doc (tr_startState this))
           else tr_docs this !! (i - 1)%nat) = Some d) as ->.
  { case_bool_decide as Hi; [by subst|].
    destruct i; [done|]. simpl in Hd |- *. by rewrite Nat.sub_0_r. }
  rewrite IH by lia. cbn [rbind].
  rewrite (take_S_r _ _ _ Hc), (take_S_r _ _ _ Hd).
  rewrite zip_with_app by (rewrite !length_take; simpl; lia).
  cbn [zip_with]. by rewrite reverse_snoc.
Qed.

Lemma apply_changes_snoc cs c doc :
  apply_changes (cs ++ [c]) doc = change_apply c (apply_changes cs doc).
Proof. unfold apply_changes. by rewrite foldl_app. Qed.

Lemma apply_inverted doc0 cs ds :
  (forall c d, change_in_bounds c d ->
     change_apply (change_invert c d) (change_apply c d) = d) ->
  snapshots doc0 cs ds ->
  apply_changes (reverse (zip_with change_invert cs (doc0 :: ds)))
                (default doc0 (last ds))
  = doc0.
Proof.
  intros Hlaw. revert doc0 ds.
  induction cs as [|c cs IH]; intros doc0 [|d ds]; simpl; try done.
  intros (Hb & -> & Hs).
  rewrite reverse_cons, apply_changes_snoc, last_cons_default.
  rewrite IH by done. by apply Hlaw.
Qed.

(** C1.  Let [change.invert] undo [change.apply] on the documents a
    change can be made on.  For every transaction whose [docs] are the
    snapshots of its changes, as the constructor and [change] make them:
    [invertedChanges()] returns a change set whose changes, applied in
    the order of the set to the end document, give the document of the
    start state; its mirror indices are the transaction's mirror indices
    [i] mapped to [length - i - 1]; and for a transaction without
    changes it is the empty change set. *)
Theorem invertedChanges_restores (this : Transaction) :
  (forall c d, change_in_bounds c d ->
     change_apply (change_invert c d) (change_apply c d) = d) ->
  consistent this ->
  exists inverted,
    invertedChanges this = Ok inverted
    /\ apply_changes (changes inverted) (tr_doc this)
       = st_doc (tr_startState this)
    /\ mirror inverted
       = map (fun i => Z.of_nat (ChangeSet_length (tr_changes this)) - i - 1)
             (mirror (tr_changes this))
    /\ (ChangeSet_length (tr_changes this) = 0%nat -> inverted = ChangeSet_empty).
Proof.
  intros Hlaw [Hs Hm]. pose proof (snapshots_length _ _ _ Hs) as Hlen.
  unfold invertedChanges, ChangeSet_length in *.
  case_bool_decide as Hz.
  - exists ChangeSet_empty.
    apply nil_length_inv in Hz. rewrite Hz in Hlen, Hs.
    rewrite (Hm Hz), tr_doc_last.
    destruct (tr_docs this); [done|]. done.
  - rewrite invertedChanges_loop_ok by (done || lia). simpl.
    eexists. split; [done|]. simpl. split; [|split; [|done]].
    + rewrite firstn_all, zip_with_take_r, tr_doc_last.
      by apply apply_inverted.
    + case_bool_decide as Hmz; [done|].
      assert (mirror (tr_changes this) = []) as ->
        by (apply nil_length_inv; destruct (length (mirror _)); done).
      done.
Qed.

End Inversion.

(** ** [forEachRange] *)

Section ForEachRange.
Context `{CO : ChangeOps} `{!MappingOps} `{CF : ConfigOps} `{!FieldOps}.

Lemma forEachRange_loop_trace f start rs newRanges (this : Transaction) :
  forEachRange_loop f start rs newRanges this
  = match run_callbacks f start rs this with
    | (this', Ok trace) =>
        (this', Ok (((fun r => foldl remap r trace) <$> newRanges)
                    ++ collected trace))
    | (this', Throw e) => (this', Throw e)
    end.
Proof.
  revert newRanges this. induction rs as [|range rest IH]; intros newRanges this.
  - simpl. unfold ret. by rewrite list_fmap_id, app_nil_r.
  - cbn [forEachRange_loop run_callbacks]. unfold bind, gets, get, ret.
    destruct (f _ this) as [this1 [q|e]]; [|done].
    rewrite IH.
    destruct (run_callbacks f start rest this1) as [this2 [later|e]]; [|done].
    f_equal. f_equal. rewrite fmap_app, <- app_assoc. cbn [collected].
    f_equal. cbn [foldl]. unfold remap at 3; simpl.
    case_bool_decide; [|done].
    change (map ?g newRanges) with (g <$> newRanges).
    by rewrite <- list_fmap_compose.
Qed.

Lemma run_callbacks_length f start rs (this this' : Transaction) trace :
  run_callbacks f start rs this = (this', Ok trace) -> length trace = length rs.
Proof.
  revert this this' trace. induction rs as [|range rest IH]; intros this this' trace.
  - unfold run_callbacks, ret. by intros [= <- <-].
  - cbn [run_callbacks]. unfold bind, gets, get, ret.
    destruct (f _ this) as [this1 [q|e]]; [|done].
    destruct (run_callbacks f start rest this1) as [this2 [later|e]] eqn:Hrest;
      [|done].
    intros [= <- <-]. simpl. f_equal. eauto.
Qed.

Lemma run_callbacks_args f start rs (this this' : Transaction) trace :
  run_callbacks f start rs this = (this', Ok trace) ->
  forall i inv,
    trace !! i = Some inv ->
    exists range,
      rs !! i = Some range
      /\ inv_before inv = ChangeSet_length (changes_before this trace i)
      /\ inv_arg inv
         = range_map range (partialMapping (changes_before this trace i) start).
Proof.
  revert this this' trace. induction rs as [|range rest IH]; intros this this' trace.
  - unfold run_callbacks, ret. by intros [= <- <-].
  - cbn [run_callbacks]. unfold bind, gets, get, ret.
    destruct (f _ this) as [this1 [q|e]]; [|done].
    destruct (run_callbacks f start rest this1) as [this2 [later|e]] eqn:Hrest;
      [|done].
    intros [= <- <-] [|i] inv Hi.
    + injection Hi as <-. by exists range.
    + destruct (IH _ _ _ Hrest i inv Hi) as (r & Hr & Hb & Ha).
      exists r. split; [done|].
      assert (changes_before this
                (mkInvocation (ChangeSet_length (tr_changes this))
                   (range_map range (partialMapping (tr_changes this) start))
                   q (tr_changes this1) :: later) (S i)
              = changes_before this1 later i) as ->; [|done].
      destruct i as [|j]; [done|]. simpl in Hi |- *.
      destruct (lookup_lt_is_Some_2 later j) as [inv' ->]; [|done].
      apply lookup_lt_Some in Hi. lia.
Qed.

(** C2.  [forEachRange(f)] visits the ranges of the selection it finds
    at the call, in order; the i-th invocation of [f] gets the i-th of
    these ranges mapped through the changes appended to the transaction
    since the call started; after an invocation that appended changes,
    the ranges collected before are mapped through those changes; and
    the selection is set, by [setSelection], to the selection created
    from the collected ranges and the primary index found at the call.
    An error raised by [f] or by [setSelection] ends the call, the
    transaction staying as it is at that point. *)
Theorem forEachRange_invocations (f : SelectionRange -> M SelectionRange)
    (this : Transaction) :
  forEachRange f this = forEachRange_spec f this
  /\ forall this' trace,
       run_callbacks f (ChangeSet_length (tr_changes this))
                     (ranges (tr_selection this)) this = (this', Ok trace) ->
       tr_state this' = None ->
       length trace = length (ranges (tr_selection this))
       /\ (forall i inv,
             trace !! i = Some inv ->
             exists range,
               ranges (tr_selection this) !! i = Some range
               /\ inv_before inv = ChangeSet_length (changes_before this trace i)
               /\ inv_arg inv
                  = range_map range
                      (partialMapping (changes_before this trace i)
                         (ChangeSet_length (tr_changes this))))
       /\ fst (forEachRange f this)
          = set_flags (Z.lor (tr_flags this') Flag_SelectionSet)
              (set_selection
                 (let selection :=
                    EditorSelection_create (collected trace)
                      (primaryIndex (tr_selection this)) in
                  if allowMultipleSelections (st_configuration (tr_startState this'))
                  then selection else asSingle selection) this')
       /\ snd (forEachRange f this) = Ok tt.
Proof.
  assert (forEachRange f this = forEachRange_spec f this) as Heq.
  { unfold forEachRange, forEachRange_spec, bind, gets.
    rewrite forEachRange_loop_trace.
    by destruct (run_callbacks _ _ _ _) as [this' [trace|e]]. }
  split; [done|]. intros this' trace Hrun Hopen. split; [|split].
  - by eapply run_callbacks_length.
  - intros i inv Hi. by eapply run_callbacks_args.
  - rewrite Heq. unfold forEachRange_spec, bind, gets. rewrite Hrun.
    unfold setSelection, bind, ensureOpen, modify. by rewrite Hopen.
Qed.

End ForEachRange.

(** ** Applying a transaction *)

Section Lifecycle.
Context `{CO : ChangeOps} `{!MappingOps} `{CF : ConfigOps} `{!FieldOps}.







End Lifecycle.

(** ** Constructing states and reading fields *)

Section States.
Context `{CO : ChangeOps} `{!MappingOps} `{CF : ConfigOps} `{!FieldOps} `{JO : JsonOps}.

Lemma check_ranges_ok rs doc :
  Forall (fun r => range_to r <= text_length doc) rs <-> check_ranges rs doc = Ok tt.
Proof.
  induction rs as [|r rs IH]; simpl; [by split|].
  rewrite Forall_cons. destruct (Z.gtb_spec (range_to r) (text_length doc)).
  - split; [|done]. intros [? _]. lia.
  - rewrite IH. split; [tauto|]. split; [lia|done].
Qed.

Lemma check_ranges_throw rs doc :
  Exists (fun r => range_to r > text_length doc) rs
  <-> check_ranges rs doc = Throw range_error.
Proof.
  induction rs as [|r rs IH]; simpl.
  - split; [by intros ?%Exists_nil|done].
  - rewrite Exists_cons. destruct (Z.gtb_spec (range_to r) (text_length doc)).
    + split; [done|]. intros _. left. lia.
    + rewrite <- IH. split; [|tauto]. intros [?|?]; [lia|done].
Qed.

Lemma new_EditorState_ok configuration values doc sel :
  selection_in_doc sel doc ->
  new_EditorState configuration values doc sel
  = Ok (mkState _ _ configuration values doc sel).
Proof.
  intros Hin. unfold new_EditorState.
  by rewrite (proj1 (check_ranges_ok _ _) Hin).
Qed.

Lemma new_EditorState_throw configuration values doc sel :
  selection_past_doc sel doc ->
  new_EditorState configuration values doc sel = Throw range_error.
Proof.
  intros Hout. unfold new_EditorState.
  by rewrite (proj1 (check_ranges_throw _ _) Hout).
Qed.

Lemma new_EditorState_inv configuration values doc sel st :
  new_EditorState configuration values doc sel = Ok st ->
  st = mkState _ _ configuration values doc sel /\ selection_in_doc sel doc.
Proof.
  unfold new_EditorState. destruct (check_ranges _ _) as [[]|e] eqn:E; [|done].
  intros [= <-]. split; [done|]. by apply check_ranges_ok.
Qed.

Lemma create_loop_keeps fields st st' :
  create_loop fields st = Ok st' ->
  st_doc st' = st_doc st /\ st_selection st' = st_selection st.
Proof.
  revert st. induction fields as [|fld rest IH]; intros st; simpl.
  - by intros [= <-].
  - destruct (truthy _); [done|].
    destruct (field_init fld st) as [v|e]; [|done]. simpl.
    intros Hrest. by destruct (IH _ Hrest).
Qed.

Lemma applyTransaction_loop_keeps this tr fields st st' :
  applyTransaction_loop this tr fields st = Ok st' ->
  st_doc st' = st_doc st /\ st_selection st' = st_selection st.
Proof.
  revert st. induction fields as [|fld rest IH]; intros st;
    cbn [applyTransaction_loop].
  - by intros [= <-].
  - match goal with |- context [rbind ?r _] => destruct r as [v|e] end; [|done].
    cbn [rbind]. intros Hrest. by destruct (IH _ Hrest).
Qed.

(** C5.  The constructor accepts a selection exactly when each of its
    ranges has [to <= doc.length], and then makes the state with that
    document and selection; when a range has [to > doc.length] it raises
    the range error and no state is made.  So every state that [create],
    [fromJSON] or [applyTransaction] returns has all its selection ranges
    end within its document, and [applyTransaction] raises the range
    error for a transaction whose selection has a range ending behind
    its document. *)
Theorem state_selection_in_doc :
  (forall configuration values doc sel,
     (selection_in_doc sel doc ->
      new_EditorState configuration values doc sel
      = Ok (mkState _ _ configuration values doc sel))
     /\ (selection_past_doc sel doc ->
         new_EditorState configuration values doc sel = Throw range_error)
     /\ (selection_in_doc sel doc \/ selection_past_doc sel doc))
  /\ (forall config st,
        create config = Ok st -> selection_in_doc (st_selection st) (st_doc st))
  /\ (forall json config st,
        fromJSON json config = Ok st ->
        selection_in_doc (st_selection st) (st_doc st))
  /\ (forall this tr st,
        applyTransaction this tr = Ok st ->
        selection_in_doc (st_selection st) (st_doc st))
  /\ (forall this tr,
        selection_past_doc (tr_selection tr) (tr_doc tr) ->
        applyTransaction this tr = Throw range_error).
Proof.
  assert (forall config st,
            create config = Ok st -> selection_in_doc (st_selection st) (st_doc st))
    as Hcreate.
  { intros config st. unfold create.
    destruct (new_EditorState _ _ _ _) as [st0|e] eqn:E; [|done]. simpl.
    apply new_EditorState_inv in E as [-> Hin]. simpl.
    intros [-> ->]%create_loop_keeps. done. }
  split; [|split; [done|split; [|split]]].
  - intros configuration values doc sel.
    split; [apply new_EditorState_ok|]. split; [apply new_EditorState_throw|].
    unfold selection_in_doc, selection_past_doc.
    destruct (check_ranges (ranges sel) doc) as [[]|e] eqn:E.
    + left. by apply check_ranges_ok.
    + right. apply check_ranges_throw. revert E. clear.
      induction (ranges sel) as [|r rs IH]; simpl; [done|].
      destruct (_ >? _); [by intros [= <-]|done].
  - intros json config st. unfold fromJSON.
    destruct (json_doc json); [|done].
    destruct (EditorSelection_fromJSON json); [|done]. simpl. apply Hcreate.
  - intros this tr st. unfold applyTransaction.
    destruct (new_EditorState _ _ _ _) as [st0|e] eqn:E; [|done]. simpl.
    apply new_EditorState_inv in E as [-> Hin].
    intros [-> ->]%applyTransaction_loop_keeps. done.
  - intros this tr Hout. unfold applyTransaction.
    by rewrite new_EditorState_throw.
Qed.

(** C10.  The constructor looks at the upper end of the ranges only: a
    selection whose ranges all have [to <= doc.length] is accepted also
    when one of them has a negative anchor or head, and so [from < 0];
    the state made has that selection, with a position outside the
    document. *)
Theorem negative_selection_accepted configuration values doc
    (sel : EditorSelection) :
  selection_in_doc sel doc ->
  Exists (fun r => (anchor r < 0 \/ head r < 0) /\ range_from r < 0) (ranges sel) ->
  exists st,
    new_EditorState configuration values doc sel = Ok st
    /\ st_doc st = doc
    /\ st_selection st = sel
    /\ Exists (fun r => range_from r < 0) (ranges (st_selection st)).
Proof.
  intros Hin Hneg. eexists. split; [by apply new_EditorState_ok|]. simpl.
  repeat split. eapply Exists_impl; [done|]. by intros r [_ ?].
Qed.

(** C7.  When the state has no value for the field: [field(f)] with
    [require = true] raises a range error; [field(f, false)] returns
    [undefined] unless the field is declared in the state's
    configuration; and for a field that is declared there, [field]
    raises the range error of a field not yet initialized, whatever
    [require] is.  When the state has a value for the field, that value
    is returned. *)
Theorem field_lookup (this : EditorState) (fld : nat) :
  (st_values this !! fld = None ->
   (exists msg, field this fld true = Throw (RangeError msg))
   /\ (fld ∉ stateField (st_configuration this) ->
       field this fld true = Throw (RangeError "Field is not present in this state")
       /\ field this fld false = Ok VUndefined)
   /\ (fld ∈ stateField (st_configuration this) ->
       forall require,
         field this fld require
         = Throw (RangeError "Field hasn't been initialized yet")))
  /\ (forall value,
        st_values this !! fld = Some value ->
        forall require, field this fld require = Ok value).
Proof.
  unfold field. split.
  - intros ->. simpl. split; [|split].
    + case_bool_decide; eauto.
    + intros Hnot. by rewrite bool_decide_eq_false_2.
    + intros Hin require. by rewrite bool_decide_eq_true_2.
  - intros value -> require. simpl.
    by rewrite andb_false_r.
Qed.

End States.

(** ** Dirty marks *)

Module Marking.
Import ContentView.

Local Open Scope nat_scope.

Lemma lor_Node_land_Child d :
  Z.land (Z.lor d Dirty_Node) Dirty_Child = Z.land d Dirty_Child.
Proof. by rewrite Z.land_lor_distr_l, Z.lor_0_r. Qed.

Lemma lor_Child_land_Child d : Z.land (Z.lor d Dirty_Child) Dirty_Child ≠ 0%Z.
Proof.
  rewrite Z.land_lor_distr_l. change (Z.land Dirty_Child Dirty_Child) with 1%Z.
  intros Hz. apply Z.lor_eq_0_iff in Hz as [_ ?]. done.
Qed.

Lemma childList_land_Child (childList : bool) d :
  Z.land (if childList then Z.lor d Dirty_Node else d) Dirty_Child
  = Z.land d Dirty_Child.
Proof. destruct childList; [apply lor_Node_land_Child|done]. Qed.

Lemma unmarked_insert h p v d :
  h !! p = Some v ->
  Z.land (dirty v) Dirty_Child = 0%Z ->
  Z.land d Dirty_Child ≠ 0%Z ->
  size (unmarked (<[p := set_dirty d v]> h)) < size (unmarked h).
Proof.
  intros Hp Hv Hd. unfold unmarked.
  rewrite map_filter_insert_False by done.
  rewrite map_filter_delete.
  assert (filter (fun kv : nat * View => Z.land (dirty kv.2) Dirty_Child = 0%Z) h
          !! p = Some v) as Hf by (by apply map_lookup_filter_Some).
  rewrite map_size_delete_Some by eauto.
  assert (size (filter (fun kv : nat * View => Z.land (dirty kv.2) Dirty_Child = 0%Z) h)
          ≠ 0); [|lia].
  apply map_size_non_empty_iff. intros He. by rewrite He in Hf.
Qed.

(** The walk ends: as many rounds as there are objects not marked
    child-dirty are enough. *)
Lemma markParentsDirty_loop_total fuel h cur childList :
  size (unmarked h) <= fuel ->
  is_Some (markParentsDirty_loop fuel h cur childList).
Proof.
  revert h cur childList.
  induction fuel as [|fuel IH]; intros h cur childList Hfuel;
    (destruct cur as [p|]; simpl; [|done]);
    (destruct (h !! p) as [v|] eqn:Hp; [|done]);
    (case_bool_decide as Hc; [done|]);
    rewrite childList_land_Child in Hc.
  - pose proof (unmarked_insert h p v (Z.lor (dirty v) Dirty_Child) Hp Hc
                  (lor_Child_land_Child _)). lia.
  - apply IH.
    pose proof (unmarked_insert h p v
                  (Z.lor (if childList then Z.lor (dirty v) Dirty_Node
                          else dirty v) Dirty_Child) Hp Hc
                  (lor_Child_land_Child _)). lia.
Qed.

Lemma markParentsDirty_total h this childList :
  is_Some (markParentsDirty h this childList).
Proof.
  unfold markParentsDirty. destruct (h !! this); [|done].
  apply markParentsDirty_loop_total. apply map_size_filter.
Qed.

Lemma markDirty_total h this andParent : is_Some (markDirty h this andParent).
Proof.
  unfold markDirty. destruct (h !! this); [|done].
  case_bool_decide; [done|]. apply markParentsDirty_total.
Qed.

(** The number of rounds allowed does not change the result. *)
Lemma markParentsDirty_loop_fuel fuel1 fuel2 h cur childList h1 h2 :
  markParentsDirty_loop fuel1 h cur childList = Some h1 ->
  markParentsDirty_loop fuel2 h cur childList = Some h2 ->
  h1 = h2.
Proof.
  revert fuel2 h cur childList.
  induction fuel1 as [|fuel1 IH]; intros [|fuel2] h cur childList;
    (destruct cur as [p|]; simpl; [|congruence]);
    (destruct (h !! p) as [v|]; [|congruence]);
    (case_bool_decide; [congruence|]); try done.
  apply IH.
Qed.

Lemma markParentsDirty_loop_unfold fuel h cur childList :
  markParentsDirty_loop fuel h cur childList
  = match cur with
    | None => Some h
    | Some p =>
        match h !! p with
        | None => Some h
        | Some v =>
            let d1 := if childList then Z.lor (dirty v) Dirty_Node else dirty v in
            if bool_decide (Z.land d1 Dirty_Child ≠ 0%Z)
            then Some (<[p := set_dirty d1 v]> h)
            else
              match fuel with
              | O => None
              | S fuel' =>
                  markParentsDirty_loop fuel'
                    (<[p := set_dirty (Z.lor d1 Dirty_Child) v]> h) (parent v) false
              end
        end
    end.
Proof. by destruct fuel. Qed.

Lemma grows_refl h : grows h h.
Proof. split; [done|]. intros x vx Hx. by exists vx. Qed.

Lemma grows_trans h1 h2 h3 : grows h1 h2 -> grows h2 h3 -> grows h1 h3.
Proof.
  intros [Hn1 Hs1] [Hn2 Hs2]. split; [by eauto|].
  intros x vx Hx. destruct (Hs1 x vx Hx) as (vx2 & Hx2 & Hp2 & Hb2).
  destruct (Hs2 x vx2 Hx2) as (vx3 & Hx3 & Hp3 & Hb3).
  exists vx3. split; [done|]. split; [congruence|]. by eauto.
Qed.

Lemma land_lor_ne_0 d m bits :
  Z.land d bits ≠ 0%Z -> Z.land (Z.lor d m) bits ≠ 0%Z.
Proof.
  intros Hd. rewrite Z.land_lor_distr_l.
  intros Hz. apply Z.lor_eq_0_iff in Hz as [? _]. done.
Qed.

Lemma grows_insert h p v m :
  h !! p = Some v -> grows h (<[p := set_dirty (Z.lor (dirty v) m) v]> h).
Proof.
  intros Hp. split.
  - intros x Hx. rewrite lookup_insert_ne; [done|]. congruence.
  - intros x vx Hx. destruct (decide (x = p)) as [->|Hne].
    + rewrite lookup_insert_eq. eexists. split; [done|].
      assert (vx = v) as -> by congruence. split; [done|].
      intros bits. apply land_lor_ne_0.
    + rewrite lookup_insert_ne by done. by exists vx.
Qed.

Lemma grows_has_bit h h' bit x : grows h h' -> has_bit bit h x -> has_bit bit h' x.
Proof.
  intros [_ Hs] (vx & Hx & Hb). destruct (Hs x vx Hx) as (vx' & Hx' & _ & Hb').
  exists vx'. split; [done|]. by apply Hb'.
Qed.

Lemma childList_lor (childList : bool) d :
  (if childList then Z.lor d Dirty_Node else d)
  = Z.lor d (if childList then Dirty_Node else 0%Z).
Proof. destruct childList; [done|]. by rewrite Z.lor_0_r. Qed.

(** What a walk leaves behind: marks are only added; the object the
    walk starts at is marked child-dirty; and an object that the walk
    changed either was marked child-dirty before (the walk stopped
    there) or has a parent that is marked child-dirty. *)
Lemma markParentsDirty_loop_post fuel h cur childList h' :
  markParentsDirty_loop fuel h cur childList = Some h' ->
  grows h h'
  /\ (forall p, cur = Some p -> is_Some (h !! p) -> has_bit Dirty_Child h' p)
  /\ (forall x vx, h !! x = Some vx -> h' !! x ≠ Some vx ->
        Z.land (dirty vx) Dirty_Child ≠ 0%Z
        \/ forall q, parent vx = Some q -> is_Some (h !! q) ->
             has_bit Dirty_Child h' q).
Proof.
  revert h cur childList h'.
  induction fuel as [|fuel IH]; intros h cur childList h';
    rewrite markParentsDirty_loop_unfold;
    (destruct cur as [p|];
      [|intros [= <-]; split; [apply grows_refl|]; split; [done|]; by intros]);
    (destruct (h !! p) as [v|] eqn:Hp;
      [|intros [= <-]; split; [apply grows_refl|]; split;
         [intros ? [= <-] [? ?]; congruence|by intros]]);
    cbn zeta; rewrite childList_lor;
    (case_bool_decide as Hc;
      [intros [= <-]; split; [by apply grows_insert|]; split;
        [intros ? [= <-] _; eexists; split; [apply lookup_insert_eq|done]|
         intros x vx Hx Hne; left;
         destruct (decide (x = p)) as [->|Hxp];
           [assert (vx = v) as -> by congruence;
            rewrite <- childList_lor, childList_land_Child in Hc; done
           |by rewrite lookup_insert_ne in Hne]]
      |]); [done|].
  intros Hloop. apply IH in Hloop as (Hg & Hcur & Hnew).
  rewrite <- Z.lor_assoc in Hg, Hcur, Hnew.
  pose proof (grows_insert h p v
                (Z.lor (if childList then Dirty_Node else 0) Dirty_Child) Hp) as Hg1.
  split; [by eapply grows_trans|]. split.
  - intros ? [= <-] _. eapply grows_has_bit; [exact Hg|].
    eexists. split; [apply lookup_insert_eq|]. simpl.
    rewrite Z.lor_assoc. apply lor_Child_land_Child.
  - intros x vx Hx Hne. destruct (decide (x = p)) as [->|Hxp].
    + assert (vx = v) as -> by congruence. right. intros q Hq Hin.
      apply Hcur; [done|].
      destruct (decide (q = p)) as [->|?];
        [rewrite lookup_insert_eq|rewrite lookup_insert_ne]; done.
    + destruct (Hnew x vx) as [?|Hq]; [by rewrite lookup_insert_ne|done|by left|].
      right. intros q Hpq Hin. apply Hq; [done|].
      destruct (decide (q = p)) as [->|?];
        [rewrite lookup_insert_eq|rewrite lookup_insert_ne]; done.
Qed.

Lemma markDirty_unfold h this v andParent :
  h !! this = Some v ->
  Z.land (dirty v) Dirty_Node = 0%Z ->
  markDirty h this andParent
  = markParentsDirty_loop (size h)
      (<[this := set_dirty (Z.lor (dirty v) Dirty_Node) v]> h) (parent v) andParent.
Proof.
  intros Hthis Hclean. unfold markDirty, markParentsDirty. rewrite Hthis.
  rewrite bool_decide_eq_false_2 by (by intros ?).
  rewrite lookup_insert_eq. simpl. by rewrite map_size_insert_Some.
Qed.

Lemma markDirty_absent h this andParent :
  h !! this = None -> markDirty h this andParent = Some h.
Proof. intros Hthis. unfold markDirty. by rewrite Hthis. Qed.

Lemma markDirty_already h this v andParent :
  h !! this = Some v ->
  Z.land (dirty v) Dirty_Node ≠ 0%Z ->
  markDirty h this andParent = Some h.
Proof.
  intros Hthis Hn. unfold markDirty. rewrite Hthis.
  by rewrite bool_decide_eq_true_2.
Qed.

Lemma markDirty_grows h this andParent h' :
  markDirty h this andParent = Some h' -> grows h h'.
Proof.
  destruct (h !! this) as [v|] eqn:Hthis;
    [|rewrite markDirty_absent by done; intros [= <-]; apply grows_refl].
  destruct (decide (Z.land (dirty v) Dirty_Node = 0%Z)) as [Hn|Hn];
    [|rewrite (markDirty_already _ _ _ _ Hthis Hn); intros [= <-];
      apply grows_refl].
  rewrite (markDirty_unfold _ _ _ _ Hthis Hn).
  intros (Hg & _)%markParentsDirty_loop_post.
  eapply grows_trans; [|exact Hg]. by apply grows_insert.
Qed.

(** Marking keeps the tree well marked. *)
Lemma markDirty_well_marked h this andParent h' :
  well_marked h -> markDirty h this andParent = Some h' -> well_marked h'.
Proof.
  intros Hwm Hmark. pose proof (markDirty_grows _ _ _ _ Hmark) as Hgrows.
  revert Hmark.
  destruct (h !! this) as [v|] eqn:Hthis;
    [|rewrite markDirty_absent by done; by intros [= <-]].
  destruct (decide (Z.land (dirty v) Dirty_Node = 0%Z)) as [Hn|Hn];
    [|rewrite (markDirty_already _ _ _ _ Hthis Hn); by intros [= <-]].
  rewrite (markDirty_unfold _ _ _ _ Hthis Hn).
  set (h1 := <[this := set_dirty (Z.lor (dirty v) Dirty_Node) v]> h).
  intros (Hg & Hcur & Hnew)%markParentsDirty_loop_post.
  assert (grows h h1) as Hg1 by (by apply grows_insert).
  intros x vx' p Hx' Hd' Hp' Hin'.
  destruct (h !! x) as [vx|] eqn:Hx;
    [|by rewrite (proj1 Hgrows x Hx) in Hx'].
  destruct (proj2 Hgrows x vx Hx) as (vx'' & Hx'' & Hpar & _).
  assert (vx'' = vx') as -> by congruence.
  assert (is_Some (h !! p)) as Hin.
  { destruct (h !! p) eqn:E; [done|]. rewrite (proj1 Hgrows p E) in Hin'.
    by destruct Hin'. }
  assert (is_Some (h1 !! p)) as Hin1.
  { destruct Hin as [vp Hvp]. destruct (proj2 Hg1 p vp Hvp) as (? & ? & _). eauto. }
  destruct (decide (x = this)) as [->|Hne].
  { apply Hcur; [|done]. congruence. }
  assert (h1 !! x = Some vx) as Hx1 by (unfold h1; by rewrite lookup_insert_ne).
  destruct (decide (dirty vx = 0%Z)) as [Hz|Hnz].
  - destruct (Hnew x vx Hx1) as [Hc|Hq].
    + intros Heq. rewrite Hx' in Heq. injection Heq as ->. done.
    + rewrite Hz in Hc. by rewrite Z.land_0_l in Hc.
    + apply Hq; [congruence|done].
  - eapply grows_has_bit; [exact Hgrows|].
    eapply Hwm; [exact Hx|done|congruence|done].
Qed.

(** In a well-marked tree, the ancestors of a dirty object are marked
    child-dirty. *)
Lemma well_marked_ancestors h n a :
  closed h -> well_marked h -> ancestor h n a ->
  (exists v, h !! n = Some v /\ dirty v ≠ 0%Z) ->
  has_bit Dirty_Child h a.
Proof.
  intros Hcl Hwm Hanc. induction Hanc as [n a (v & Hn & Hp)|n p a (v & Hn & Hp) _ IH].
  - intros (v' & Hn' & Hd). assert (v' = v) as -> by congruence.
    eapply Hwm; eauto.
  - intros (v' & Hn' & Hd). assert (v' = v) as -> by congruence.
    apply IH. destruct (Hwm n v p Hn Hd Hp) as (vp & Hvp & Hb); [by eauto|].
    exists vp. split; [done|]. intros Hz. rewrite Hz in Hb.
    by rewrite Z.land_0_l in Hb.
Qed.

Lemma grows_closed h h' : grows h h' -> closed h -> closed h'.
Proof.
  intros [Hn Hs] Hcl n v' p Hn' Hp'.
  destruct (h !! n) as [v|] eqn:E; [|by rewrite (Hn n E) in Hn'].
  destruct (Hs n v E) as (v'' & Hv'' & Hpar & _).
  assert (v'' = v') as -> by congruence.
  destruct (Hcl n v p E) as [vp Hvp]; [congruence|].
  destruct (Hs p vp Hvp) as (? & ? & _). eauto.
Qed.

Lemma grows_ancestor h h' n a : grows h h' -> ancestor h n a -> ancestor h' n a.
Proof.
  intros [_ Hs] Hanc.
  induction Hanc as [n a (v & Hn & Hp)|n p a (v & Hn & Hp) _ IH].
  - destruct (Hs n v Hn) as (v' & Hv' & Hpar & _).
    apply ancestor_parent. exists v'. split; [done|]. congruence.
  - destruct (Hs n v Hn) as (v' & Hv' & Hpar & _).
    eapply ancestor_step; [|exact IH]. exists v'. split; [done|]. congruence.
Qed.

Lemma lookup_mark_ne bits a h x : x ≠ a -> mark bits a h !! x = h !! x.
Proof.
  intros Hne. unfold mark. destruct (h !! a); [|done].
  by rewrite lookup_insert_ne.
Qed.

Lemma lookup_mark_eq bits a h :
  mark bits a h !! a = (fun v => set_dirty (Z.lor (dirty v) bits) v) <$> h !! a.
Proof.
  unfold mark. destruct (h !! a) as [v|] eqn:E; [|by rewrite E].
  by rewrite lookup_insert_eq.
Qed.

Lemma walk_mark bits a h cur l stop :
  a ∉ l -> walk h cur l stop -> walk (mark bits a h) cur l stop.
Proof.
  revert cur. induction l as [|b rest IH]; intros cur Hnot; simpl.
  - intros [-> Hstop]. split; [done|]. destruct stop as [s|]; [|done].
    intros vs. destruct (decide (s = a)) as [->|Hne].
    + rewrite lookup_mark_eq. destruct (h !! a) as [va|]; [|done]. simpl.
      intros [= <-]. simpl. apply land_lor_ne_0. by apply Hstop.
    + rewrite lookup_mark_ne by done. apply Hstop.
  - intros [-> (vb & Hb & Hc & Hw)]. split; [done|].
    apply not_elem_of_cons in Hnot as [Hab Hnot].
    exists vb. rewrite lookup_mark_ne by done. eauto.
Qed.

(** A walk that is enough rounds long leaves these marks. *)
Lemma markParentsDirty_loop_walk l stop :
  forall h cur childList fuel,
    walk h cur l stop -> NoDup l -> length l <= fuel ->
    markParentsDirty_loop fuel h cur childList
    = Some (mark_walk h l stop childList).
Proof.
  induction l as [|a rest IH]; intros h cur childList fuel Hwalk Hnd Hfuel;
    rewrite markParentsDirty_loop_unfold.
  - destruct Hwalk as [-> Hstop]. destruct stop as [s|]; [|done]. simpl.
    unfold mark. destruct (h !! s) as [vs|]; [|done]. cbn zeta.
    rewrite childList_lor.
    rewrite bool_decide_eq_true_2; [done|].
    apply land_lor_ne_0. by apply Hstop.
  - destruct Hwalk as [-> (va & Ha & Hc & Hw)]. rewrite Ha. cbn zeta.
    rewrite childList_lor.
    rewrite bool_decide_eq_false_2
      by (rewrite <- childList_lor, childList_land_Child; by intros ?).
    destruct fuel as [|fuel]; [simpl in Hfuel; lia|].
    apply NoDup_cons in Hnd as [Hnot Hnd].
    rewrite <- Z.lor_assoc.
    assert (<[a := set_dirty
                    (Z.lor (dirty va)
                       (Z.lor (if childList then Dirty_Node else 0) Dirty_Child))
                    va]> h
            = mark (Z.lor (if childList then Dirty_Node else 0) Dirty_Child) a h)
      as -> by (unfold mark; by rewrite Ha).
    rewrite (IH _ (parent va) false fuel); [done| |done|simpl in Hfuel; lia].
    by apply walk_mark.
Qed.

Lemma mark_walk_lookup_ne h l stop childList x :
  x ∉ l -> stop ≠ Some x -> mark_walk h l stop childList !! x = h !! x.
Proof.
  revert h childList. induction l as [|a rest IH]; intros h childList Hnot Hstop.
  - simpl. destruct stop as [s|]; [|done]. apply lookup_mark_ne. congruence.
  - apply not_elem_of_cons in Hnot as [Hxa Hnot]. simpl.
    rewrite IH by done. by apply lookup_mark_ne.
Qed.

Lemma mark_walk_lookup_stop h l s childList :
  s ∉ l ->
  mark_walk h l (Some s) childList !! s
  = (fun v => set_dirty
                (Z.lor (dirty v)
                   (if childList && bool_decide (l = []) then Dirty_Node else 0%Z)) v)
    <$> h !! s.
Proof.
  revert h childList. induction l as [|a rest IH]; intros h childList Hnot.
  - simpl. rewrite lookup_mark_eq. by rewrite andb_true_r.
  - apply not_elem_of_cons in Hnot as [Hsa Hnot]. simpl.
    rewrite IH by done. rewrite lookup_mark_ne by done.
    by rewrite andb_false_r.
Qed.

Lemma mark_walk_lookup_passed h l stop childList i a :
  NoDup l -> stop ≠ Some a -> l !! i = Some a ->
  mark_walk h l stop childList !! a
  = (fun v => set_dirty
                (Z.lor (dirty v)
                   (Z.lor (if childList && bool_decide (i = 0)
                           then Dirty_Node else 0%Z) Dirty_Child)) v)
    <$> h !! a.
Proof.
  revert h childList i.
  induction l as [|b rest IH]; intros h childList i Hnd Hstop Hi; [done|].
  apply NoDup_cons in Hnd as [Hnot Hnd]. simpl. destruct i as [|i].
  - injection Hi as ->. rewrite mark_walk_lookup_ne by done.
    rewrite lookup_mark_eq. by rewrite andb_true_r.
  - simpl in Hi. rewrite (IH _ _ i) by done.
    assert (a ≠ b) by (intros ->; apply Hnot; by eapply list_elem_of_lookup_2).
    rewrite lookup_mark_ne by done.
    rewrite (bool_decide_eq_false_2 (S i = 0)) by done.
    by rewrite andb_false_r.
Qed.

(** C6, amended.  Marking an object that is already self-dirty changes
    nothing.  Marking an object that is not sets its [Node] bit and
    walks up from its parent: an ancestor without the [Child] bit gets
    that bit (the parent also the [Node] bit, with [andParent]) and the
    walk goes on, also when that ancestor was self-dirty; the walk stops
    at the first ancestor that has the [Child] bit already, which stays
    as it is (but for the [Node] bit of the parent, with [andParent]),
    as does every object that the walk has not passed.  Marking returns
    for every store, and it keeps a tree well marked (every object with
    a mark has a child-dirty parent): in such a tree every ancestor of
    the marked object is child-dirty afterwards. *)
Theorem markDirty_marks (h : gmap nat View) (this : nat) (v : View)
    (andParent : bool) :
  h !! this = Some v ->
  exists h',
    markDirty h this andParent = Some h'
    /\ (Z.land (dirty v) Dirty_Node ≠ 0%Z -> h' = h)
    /\ (Z.land (dirty v) Dirty_Node = 0%Z ->
        forall l stop,
          walk h (parent v) l stop ->
          NoDup (this :: l ++ option_list stop) ->
          dirty_of h' this = Some (Z.lor (dirty v) Dirty_Node)
          /\ (forall i a va,
                l !! i = Some a -> h !! a = Some va ->
                dirty_of h' a
                = Some (Z.lor (dirty va)
                          (if andParent && bool_decide (i = 0)
                           then Z.lor Dirty_Node Dirty_Child else Dirty_Child)))
          /\ (forall s vs,
                stop = Some s -> h !! s = Some vs ->
                dirty_of h' s
                = Some (if andParent && bool_decide (l = [])
                        then Z.lor (dirty vs) Dirty_Node else dirty vs))
          /\ (forall x, x ≠ this -> x ∉ l -> stop ≠ Some x -> h' !! x = h !! x))
    /\ (closed h -> well_marked h ->
        well_marked h'
        /\ forall a, ancestor h this a -> has_bit Dirty_Child h' a).
Proof.
  intros Hthis. destruct (markDirty_total h this andParent) as [h' Hmark].
  exists h'. split; [done|]. split; [|split].
  - intros Hn. rewrite (markDirty_already _ _ _ _ Hthis Hn) in Hmark. congruence.
  - intros Hn l stop Hwalk Hnd.
    apply NoDup_cons in Hnd as [Hnot Hnd].
    apply not_elem_of_app in Hnot as [Hnot_l Hnot_s].
    apply NoDup_app in Hnd as (Hnd_l & Hdisj & _).
    assert (stop ≠ Some this) as Hstop_this.
    { intros ->. apply Hnot_s. simpl. apply list_elem_of_here. }
    assert (forall a, a ∈ l -> stop ≠ Some a) as Hstop_l.
    { intros a Ha ->. apply (Hdisj a Ha). simpl. apply list_elem_of_here. }
    rewrite (markDirty_unfold _ _ _ _ Hthis Hn) in Hmark.
    set (h1 := <[this := set_dirty (Z.lor (dirty v) Dirty_Node) v]> h) in *.
    assert (h1 = mark Dirty_Node this h) as Hh1 by (unfold mark; by rewrite Hthis).
    assert (forall x, x ≠ this -> h1 !! x = h !! x) as Hother
      by (intros x Hx; unfold h1; by rewrite lookup_insert_ne).
    assert (h' = mark_walk h1 l stop andParent) as ->.
    { eapply markParentsDirty_loop_fuel; [exact Hmark|].
      apply markParentsDirty_loop_walk; [|done|done].
      rewrite Hh1. by apply walk_mark. }
    unfold dirty_of. split; [|split; [|split]].
    + rewrite mark_walk_lookup_ne by done. unfold h1.
      by rewrite lookup_insert_eq.
    + intros i a va Hi Ha.
      assert (a ∈ l) as Hal by (by eapply list_elem_of_lookup_2).
      rewrite (mark_walk_lookup_passed _ _ _ _ i) by eauto.
      rewrite Hother by (by intros ->). rewrite Ha. simpl.
      by destruct (andParent && bool_decide (i = 0)).
    + intros s vs -> Hs.
      assert (s ∉ l) as Hsl by (intros Hin; by apply (Hstop_l s Hin)).
      rewrite mark_walk_lookup_stop by done.
      rewrite Hother by congruence. rewrite Hs. simpl.
      destruct (andParent && bool_decide (l = [])); [done|].
      by rewrite Z.lor_0_r.
    + intros x Hx Hxl Hxs. rewrite mark_walk_lookup_ne by done. by apply Hother.
  - intros Hcl Hwm.
    pose proof (markDirty_well_marked _ _ _ _ Hwm Hmark) as Hwm'.
    pose proof (markDirty_grows _ _ _ _ Hmark) as Hg.
    split; [done|]. intros a Hanc.
    eapply well_marked_ancestors;
      [by eapply grows_closed|done|by eapply grows_ancestor|].
    destruct (proj2 Hg this v Hthis) as (v' & Hv' & _ & Hbits).
    exists v'. split; [done|].
    destruct (decide (Z.land (dirty v) Dirty_Node = 0%Z)) as [Hn|Hn].
    + rewrite (markDirty_unfold _ _ _ _ Hthis Hn) in Hmark.
      apply markParentsDirty_loop_post in Hmark as ([_ Hs] & _).
      destruct (Hs this (set_dirty (Z.lor (dirty v) Dirty_Node) v))
        as (v'' & Hv'' & _ & Hb); [apply lookup_insert_eq|].
      assert (v'' = v') as -> by congruence.
      intros Hz. apply (Hb Dirty_Node).
      * simpl. rewrite Z.land_lor_distr_l.
        intros Hl. apply Z.lor_eq_0_iff in Hl as [_ ?]. done.
      * rewrite Hz. apply Z.land_0_l.
    + intros Hz. apply (Hbits Dirty_Node Hn). rewrite Hz. apply Z.land_0_l.
Qed.

(** C6 as stated fails where an ancestor is self-dirty only.  In the
    tree [0 <- 1 <- 2], with the root [0] child-dirty and [1] self-dirty
    (mark [Node = 2], at least the mark [Child = 1] that is handed up),
    marking [2] does not stop at [1]: it sets the [Child] bit of [1]
    and stops at [0]. *)
Lemma markDirty_passes_self_dirty :
  let h := chain_self_dirty in
  well_marked h
  /\ parent_of h 2 1
  /\ dirty_of h 1 = Some Dirty_Node
  /\ (Dirty_Node >= Dirty_Child)%Z
  /\ exists h',
       markDirty h 2 false = Some h'
       /\ dirty_of h' 2 = Some Dirty_Node
       /\ dirty_of h' 1 = Some (Z.lor Dirty_Node Dirty_Child)
       /\ dirty_of h' 1 ≠ dirty_of h 1
       /\ dirty_of h' 0 = dirty_of h 0.
Proof.
  cbn zeta. unfold chain_self_dirty. split.
  { intros n v p Hn Hd Hp _.
    destruct n as [|[|[|n]]].
    - vm_compute in Hn. injection Hn as <-. discriminate.
    - vm_compute in Hn. injection Hn as <-. injection Hp as <-.
      eexists. split; [reflexivity|]. by vm_compute.
    - vm_compute in Hn. injection Hn as <-. by destruct Hd.
    - rewrite !lookup_insert_ne, lookup_singleton_ne in Hn by lia. discriminate. }
  split; [by eexists|]. split; [done|]. split; [done|].
  eexists. split; [by vm_compute|]. by vm_compute.
Qed.

(** Marking the leaf of a clean chain [0 <- 1 <- 2], with [andParent]. *)
Lemma markDirty_marks_at_chain :
  exists h',
    markDirty chain_clean 2 true = Some h'
    /\ dirty_of h' 2 = Some Dirty_Node
    /\ dirty_of h' 1 = Some (Z.lor Dirty_Node Dirty_Child)
    /\ dirty_of h' 0 = Some Dirty_Child.
Proof.
  assert (chain_clean !! 2 = Some (mkView (Some 1) Dirty_Not)) as H2
    by (vm_compute; reflexivity).
  assert (chain_clean !! 1 = Some (mkView (Some 0) Dirty_Not)) as H1
    by (vm_compute; reflexivity).
  assert (chain_clean !! 0 = Some (mkView None Dirty_Not)) as H0
    by (vm_compute; reflexivity).
  destruct (markDirty_marks chain_clean 2 _ true H2)
    as (h' & Hmark & _ & Hwalk & _).
  exists h'. split; [exact Hmark|].
  destruct (Hwalk eq_refl [1; 0] None) as (Hthis & Hpassed & _ & _).
  - simpl. split; [reflexivity|]. eexists. split; [exact H1|].
    split; [reflexivity|]. simpl. split; [reflexivity|]. eexists.
    split; [exact H0|]. split; [reflexivity|].
    split; [reflexivity|exact I].
  - simpl. apply (bool_decide_unpack _). vm_compute. exact I.
  - split; [exact Hthis|]. split.
    + exact (Hpassed 0 1 _ eq_refl H1).
    + exact (Hpassed 1 0 _ eq_refl H0).
Defined.

End Marking.

(** ** The concrete instance *)

Section ModelFacts.
Import Model.
Local Existing Instances change_ops mapping_ops config_ops field_ops json_ops.

(** In the model, the inverse of a change undoes it on every document
    the change is within the bounds of. *)
Lemma model_invert_apply (c : MChange) (d : list ascii) :
  change_in_bounds c d -> m_apply (m_invert c d) (m_apply c d) = d.
Proof.
  unfold change_in_bounds; simpl. intros (Hfrom & Hto & Hlen).
  unfold m_apply, m_invert, m_length; simpl.
  set (f := Z.to_nat (m_from c)). set (t := Z.to_nat (m_to c)).
  assert (f <= t <= length d)%nat as [Hft Htd] by (subst f t; lia).
  replace (Z.to_nat (m_from c + Z.of_nat (length (m_inserted c))))
    with (f + length (m_inserted c))%nat by (subst f; lia).
  assert (length (take f d) = f) as Hlf by (rewrite length_take; lia).
  rewrite take_app_length' by done.
  rewrite <- drop_drop, drop_app_length' by done.
  rewrite drop_app_length' by done.
  replace (drop t d) with (drop (t - f) (drop f d))
    by (rewrite drop_drop; f_equal; lia).
  by rewrite take_drop, take_drop.
Qed.


End ModelFacts.

(** ** The theorems at work on the concrete instance *)

Section Instances.
Import Model.
Local Existing Instances change_ops mapping_ops config_ops field_ops json_ops.

(** [annotate] on the open transaction [tr_abc]. *)
Lemma annotation_lookup_at_tr_abc :
  tr_state tr_abc = None
  /\ annotate [mkAnnotation Transaction_userEvent (VStr "paste")] tr_abc
     = (set_annotations
          (tr_annotations tr_abc
           ++ [mkAnnotation Transaction_userEvent (VStr "paste")]) tr_abc,
        Ok tt).
Proof.
  split; [reflexivity|].
  apply (proj2 (proj2 (annotation_lookup tr_abc Transaction_userEvent))).
  reflexivity.
Defined.

(** [change] of one character of [abc]. *)
Lemma change_cases_at_tr_abc :
  tr_state tr_abc = None
  /\ ~ empty_change change_X
  /\ ~ out_of_bounds change_X (tr_doc tr_abc)
  /\ exists this',
       change change_X None tr_abc = (this', Ok tt)
       /\ tr_changes this' = ChangeSet_append (tr_changes tr_abc) change_X None
       /\ tr_docs this' = tr_docs tr_abc ++ [change_apply change_X (tr_doc tr_abc)]
       /\ tr_selection this'
          = selection_map (tr_selection tr_abc) (Change_mapping change_X)
       /\ tr_doc this' = change_apply change_X (tr_doc tr_abc)
       /\ tr_startState this' = tr_startState tr_abc
       /\ tr_annotations this' = tr_annotations tr_abc
       /\ tr_flags this' = tr_flags tr_abc
       /\ tr_configuration this' = tr_configuration tr_abc
       /\ tr_state this' = None.
Proof.
  assert (~ empty_change change_X) as Hne by (intros [? _]; discriminate).
  assert (~ out_of_bounds change_X (tr_doc tr_abc)) as Hin
    by (unfold out_of_bounds; vm_compute; intuition discriminate).
  split; [reflexivity|]. split; [exact Hne|]. split; [exact Hin|].
  exact (proj2 (proj2 (change_cases tr_abc change_X None eq_refl)) Hne Hin).
Defined.

(** Undoing [replace(1, 2, "X")] on [abc]. *)
Lemma invertedChanges_restores_at_tr_aXc :
  consistent tr_aXc
  /\ exists inverted,
       invertedChanges tr_aXc = Ok inverted
       /\ apply_changes (changes inverted) (tr_doc tr_aXc)
          = st_doc (tr_startState tr_aXc)
       /\ mirror inverted
          = map (fun i => Z.of_nat (ChangeSet_length (tr_changes tr_aXc)) - i - 1)
                (mirror (tr_changes tr_aXc))
       /\ (ChangeSet_length (tr_changes tr_aXc) = 0%nat ->
           inverted = ChangeSet_empty).
Proof.
  assert (consistent tr_aXc) as Hc.
  { split; [|discriminate]. simpl. split; [|split; [reflexivity|exact I]].
    unfold change_in_bounds. vm_compute. intuition discriminate. }
  split; [exact Hc|].
  exact (invertedChanges_restores tr_aXc model_invert_apply Hc).
Defined.

(** [forEachRange] with the callback of [replaceSelection("XY")] on two
    cursors. *)
Lemma forEachRange_invocations_at_two_cursors :
  exists this' trace,
    run_callbacks insert_XY (ChangeSet_length (tr_changes tr_two_cursors))
      (ranges (tr_selection tr_two_cursors)) tr_two_cursors = (this', Ok trace)
    /\ tr_state this' = None
    /\ length trace = 2%nat
    /\ collected trace = [cursor 2; cursor 7]
    /\ tr_selection (fst (forEachRange insert_XY tr_two_cursors))
       = mkSelection [cursor 2; cursor 7] 1
    /\ snd (forEachRange insert_XY tr_two_cursors) = Ok tt.
Proof.
  eexists _, _. split; [vm_compute; reflexivity|].
  match goal with
  | |- _ /\ _ /\ ?n = _ /\ _ =>
      pose proof (proj2 (forEachRange_invocations insert_XY tr_two_cursors)
                    _ _ eq_refl eq_refl) as (Hlen & _ & Hfst & Hsnd)
  end.
  split; [reflexivity|]. split; [exact Hlen|]. split; [reflexivity|].
  split; [rewrite Hfst; reflexivity|exact Hsnd].
Defined.


(** States made by the constructor, by [create] and by
    [applyTransaction]. *)
Lemma state_selection_in_doc_at_abc :
  new_EditorState (resolve []) ∅ abc (mkSelection [mkRange 1 3] 0)
  = Ok (mkState _ _ (resolve []) ∅ abc (mkSelection [mkRange 1 3] 0))
  /\ new_EditorState (resolve []) ∅ abc (mkSelection [mkRange 1 4] 0)
     = Throw range_error
  /\ (forall st,
        create (mkConfig (Some (inl "abc"%string)) None None) = Ok st ->
        selection_in_doc (st_selection st) (st_doc st))
  /\ applyTransaction state_abc tr_past_end = Throw range_error.
Proof.
  destruct (@state_selection_in_doc change_ops mapping_ops config_ops field_ops
              json_ops) as (Hnew & Hcreate & _ & _ & Hthrow).
  split.
  { apply (proj1 (Hnew _ _ _ _)). unfold selection_in_doc. simpl.
    constructor; [vm_compute; discriminate|constructor]. }
  split.
  { apply (proj1 (proj2 (Hnew _ _ _ _))). unfold selection_past_doc. simpl.
    constructor. reflexivity. }
  split; [apply Hcreate|].
  apply Hthrow. unfold selection_past_doc. simpl. constructor. reflexivity.
Defined.

(** A selection from [-3] to [1] on [abc]. *)
Lemma negative_selection_accepted_at_abc :
  exists st,
    new_EditorState (resolve []) ∅ abc (mkSelection [mkRange (-3) 1] 0) = Ok st
    /\ st_doc st = abc
    /\ st_selection st = mkSelection [mkRange (-3) 1] 0
    /\ Exists (fun r => range_from r < 0) (ranges (st_selection st)).
Proof.
  apply (@negative_selection_accepted change_ops config_ops).
  - unfold selection_in_doc. simpl.
    constructor; [vm_compute; discriminate|constructor].
  - simpl. constructor. split; [left|]; reflexivity.
Defined.

(** Reading the field [7], declared but without a value in
    [state_two_cursors], and the field [8], not declared. *)
Lemma field_lookup_at_two_cursors :
  field state_two_cursors 7 false
  = Throw (RangeError "Field hasn't been initialized yet")
  /\ field state_two_cursors 8 true
     = Throw (RangeError "Field is not present in this state")
  /\ field state_two_cursors 8 false = Ok VUndefined.
Proof.
  destruct (proj1 (field_lookup state_two_cursors 7) eq_refl) as (_ & _ & Hdecl).
  destruct (proj1 (field_lookup state_two_cursors 8) eq_refl) as (_ & Hundecl & _).
  split.
  - apply Hdecl. simpl. apply list_elem_of_here.
  - apply Hundecl. simpl. intros Hin. apply list_elem_of_singleton in Hin.
    discriminate.
Defined.

End Instances.

(** * Further properties *)

(** ** What a transaction records *)

Section Records.
Context `{CO : ChangeOps} `{!MappingOps} `{CF : ConfigOps} `{!FieldOps}.

Lemma snapshots_lookup doc0 cs ds :
  snapshots doc0 cs ds ->
  forall i d, ds !! i = Some d -> d = apply_changes (take (S i) cs) doc0.
Proof.
  revert doc0 ds. induction cs as [|c cs IH]; intros doc0 [|d0 ds]; try done.
  intros (_ & -> & Hs) [|i] d Hi.
  - injection Hi as <-. by destruct cs.
  - simpl in Hi. rewrite (IH _ _ Hs i d Hi). done.
Qed.

Lemma snapshots_last doc0 cs ds :
  snapshots doc0 cs ds -> default doc0 (last ds) = apply_changes cs doc0.
Proof.
  revert doc0 ds. induction cs as [|c cs IH]; intros doc0 [|d0 ds]; try done.
  intros (_ & -> & Hs). rewrite last_cons_default. by rewrite (IH _ _ Hs).
Qed.

(** X1.  In a transaction that satisfies the invariant of the class,
    there is one snapshot per change, the snapshot with index [i] is the
    start document with the changes up to index [i] applied in order,
    and the document at the end of the transaction is the start document
    with all changes applied. *)
Theorem doc_applies_changes (this : Transaction) :
  consistent this ->
  length (tr_docs this) = ChangeSet_length (tr_changes this)
  /\ (forall i d,
        tr_docs this !! i = Some d ->
        d = apply_changes (take (S i) (changes (tr_changes this)))
              (st_doc (tr_startState this)))
  /\ tr_doc this
     = apply_changes (changes (tr_changes this)) (st_doc (tr_startState this))
  /\ (docChanged this = false -> tr_doc this = st_doc (tr_startState this)).
Proof.
  intros [Hs _]. split; [symmetry; by eapply snapshots_length|].
  split; [by apply snapshots_lookup|].
  assert (tr_doc this
          = apply_changes (changes (tr_changes this)) (st_doc (tr_startState this)))
    as Hdoc by (rewrite tr_doc_last; by apply snapshots_last).
  split; [done|]. intros Hnc. rewrite Hdoc.
  unfold docChanged, ChangeSet_length in Hnc.
  apply bool_decide_eq_false in Hnc.
  destruct (changes (tr_changes this)); [done|]. simpl in Hnc. lia.
Qed.

Lemma extends_refl (this : Transaction) : extends this this.
Proof. by repeat split. Qed.

Lemma extends_trans (t1 t2 t3 : Transaction) :
  extends t1 t2 -> extends t2 t3 -> extends t1 t3.
Proof.
  intros (Hs1 & Hc1 & Hm1 & Hd1) (Hs2 & Hc2 & Hm2 & Hd2).
  split; [congruence|]. split; [by etrans|]. split; by etrans.
Qed.

Lemma only_extends_bind {A B} (m : M A) (k : A -> M B) :
  only_extends m -> (forall a, only_extends (k a)) -> only_extends (bind m k).
Proof.
  intros Hm Hk this. unfold bind. specialize (Hm this).
  destruct (m this) as [this1 [a|e]]; [|done].
  eapply extends_trans; [exact Hm|]. apply Hk.
Qed.

Lemma only_extends_modify (f : Transaction -> Transaction) :
  (forall this, extends this (f this)) -> only_extends (modify f).
Proof. intros Hf this. apply Hf. Qed.

Lemma only_extends_ensureOpen : only_extends ensureOpen.
Proof.
  intros this. unfold ensureOpen. destruct (tr_state this); apply extends_refl.
Qed.

Lemma only_extends_pure {A} (m : M A) :
  (forall this, fst (m this) = this) -> only_extends m.
Proof. intros Hm this. rewrite Hm. apply extends_refl. Qed.

(** X2.  No method of a transaction takes back what is recorded: after
    [change], [annotate], [setSelection], [scrollIntoView],
    [replaceExtensions], [reconfigure], [apply], [replace] and, for a
    callback of which the same holds, [forEachRange], the start state is
    the same and the changes, mirror indices and snapshots of before are
    the first ones of those after; [replaceSelection] is such a
    [forEachRange]. *)
Theorem methods_only_extend :
  (forall c mirror_ix, only_extends (change c mirror_ix))
  /\ (forall anns, only_extends (annotate anns))
  /\ (forall sel, only_extends (setSelection sel))
  /\ only_extends scrollIntoView
  /\ (forall exts, only_extends (replaceExtensions exts))
  /\ (forall exts, only_extends (reconfigure exts))
  /\ only_extends apply
  /\ (forall from to text, only_extends (replace from to text))
  /\ (forall f, (forall range, only_extends (f range)) ->
        only_extends (forEachRange f))
  /\ (forall text, only_extends (replaceSelection text)).
Proof.
  assert (forall f : Transaction -> Transaction,
            (forall this, extends this (f this)) ->
            only_extends (ensureOpen ;;; modify f)%tr) as Hflag.
  { intros f Hf. apply only_extends_bind; [apply only_extends_ensureOpen|].
    intros _. by apply only_extends_modify. }
  assert (forall c mirror_ix, only_extends (change c mirror_ix)) as Hchange.
  { intros c mirror_ix. unfold change.
    apply only_extends_bind; [apply only_extends_ensureOpen|]. intros _.
    apply only_extends_bind; [by apply only_extends_pure|]. intros this0.
    destruct (_ && _); [by apply only_extends_pure|].
    destruct (_ || _); [by apply only_extends_pure|].
    apply only_extends_modify. intros this. split; [done|]. simpl.
    split; [by apply prefix_app_r|].
    split; [|by apply prefix_app_r].
    destruct mirror_ix; [by apply prefix_app_r|done]. }
  assert (forall sel, only_extends (setSelection sel)) as Hsel
    by (intros sel; apply Hflag; intros this; by repeat split).
  assert (forall f, (forall range, only_extends (f range)) ->
            only_extends (forEachRange f)) as Heach.
  { intros f Hf. unfold forEachRange.
    apply only_extends_bind; [by apply only_extends_pure|]. intros sel.
    apply only_extends_bind; [by apply only_extends_pure|]. intros start.
    apply only_extends_bind; [|done].
    generalize (@nil SelectionRange) as newRanges.
    induction (ranges sel) as [|range rest IH]; intros newRanges;
      [by apply only_extends_pure|].
    cbn [forEachRange_loop].
    apply only_extends_bind; [by apply only_extends_pure|]. intros before.
    apply only_extends_bind; [by apply only_extends_pure|]. intros arg.
    apply only_extends_bind; [done|]. intros result.
    apply only_extends_bind; [by apply only_extends_pure|]. intros this1.
    apply IH. }
  split; [done|]. split.
  { intros anns. apply Hflag. intros this. rewrite annotate_foldl.
    by repeat split. }
  split; [done|].
  split; [apply Hflag; intros this; by repeat split|].
  split; [intros exts; apply Hflag; intros this; by repeat split|].
  split; [intros exts; apply Hflag; intros this; by repeat split|].
  split.
  { intros this. unfold apply. destruct (tr_state this); [apply extends_refl|].
    destruct (applyTransaction _ _); by repeat split. }
  split.
  { intros from to text. unfold replace.
    apply only_extends_bind; [by apply only_extends_pure|]. intros this0.
    apply Hchange. }
  split; [done|].
  intros text. unfold replaceSelection.
  apply only_extends_bind; [by apply only_extends_pure|]. intros this0.
  apply Heach. intros range.
  apply only_extends_bind; [apply Hchange|]. intros _.
  by apply only_extends_pure.
Qed.

End Records.

(** ** Flags *)

Section Flags.
Context `{CO : ChangeOps} `{!MappingOps} `{CF : ConfigOps} `{!FieldOps}.

Lemma flag_test (flags bit : Z) :
  0 < bit -> (0 <? Z.land flags bit) = true <-> Z.land flags bit ≠ 0.
Proof.
  intros Hbit. rewrite Z.ltb_lt.
  assert (0 <= Z.land flags bit) by (apply Z.land_nonneg; lia). lia.
Qed.

Lemma flag_set (flags bit : Z) :
  0 < bit -> (0 <? Z.land (Z.lor flags bit) bit) = true.
Proof.
  intros Hbit. apply flag_test; [done|].
  rewrite Z.land_lor_distr_l, Z.land_diag.
  intros Hz. apply Z.lor_eq_0_iff in Hz. lia.
Qed.

Lemma flag_other (flags bit other : Z) :
  Z.land bit other = 0 ->
  Z.land (Z.lor flags bit) other = Z.land flags other.
Proof. intros Hd. by rewrite Z.land_lor_distr_l, Hd, Z.lor_0_r. Qed.

Lemma flag_kept (flags bit other : Z) :
  0 < other ->
  (0 <? Z.land flags other) = true ->
  (0 <? Z.land (Z.lor flags bit) other) = true.
Proof.
  intros Hpos Hf. apply flag_test; [done|]. apply flag_test in Hf; [|done].
  rewrite Z.land_lor_distr_l. intros Hz. apply Z.lor_eq_0_iff in Hz. tauto.
Qed.

Lemma keeps_flags_bind {A B} (m : M A) (k : A -> M B) :
  keeps_flags m -> (forall a, keeps_flags (k a)) -> keeps_flags (bind m k).
Proof.
  intros Hm Hk this. unfold bind. specialize (Hm this).
  destruct (m this) as [this1 [a|e]]; [|done].
  destruct Hm as (H1 & H2 & H3). destruct (Hk a this1) as (K1 & K2 & K3).
  simpl in *. repeat split; eauto.
Qed.

Lemma keeps_flags_pure {A} (m : M A) :
  (forall this, tr_flags (fst (m this)) = tr_flags this) -> keeps_flags m.
Proof.
  intros Hm this. unfold selectionSet, scrolledIntoView, reconfigured.
  by rewrite Hm.
Qed.

Lemma keeps_flags_lor (bit : Z) (f : Transaction -> Transaction) :
  (forall this, tr_flags (f this) = Z.lor (tr_flags this) bit) ->
  keeps_flags (ensureOpen ;;; modify f)%tr.
Proof.
  intros Hf. apply keeps_flags_bind.
  - apply keeps_flags_pure. intros this. unfold ensureOpen.
    by destruct (tr_state this).
  - intros _ this. unfold selectionSet, scrolledIntoView, reconfigured. simpl.
    rewrite Hf. repeat split; by apply flag_kept.
Qed.

(** X3.  The three flags of a transaction are independent, and no
    method clears one.  On an open transaction [setSelection] sets
    [selectionSet], [scrollIntoView] sets [scrolledIntoView],
    [replaceExtensions] and [reconfigure] set [reconfigured], each
    leaving the other two flags as they are, and [change] and [annotate]
    leave all three as they are; and after any method, also [apply] and
    [forEachRange] with a callback of which the same holds, a flag that
    was set is still set. *)
Theorem flags_independent (this : Transaction) :
  (tr_state this = None ->
   (forall sel,
      let this' := fst (setSelection sel this) in
      selectionSet this' = true
      /\ scrolledIntoView this' = scrolledIntoView this
      /\ reconfigured this' = reconfigured this)
   /\ (let this' := fst (scrollIntoView this) in
       scrolledIntoView this' = true
       /\ selectionSet this' = selectionSet this
       /\ reconfigured this' = reconfigured this)
   /\ (forall exts,
         let this' := fst (replaceExtensions exts this) in
         reconfigured this' = true
         /\ selectionSet this' = selectionSet this
         /\ scrolledIntoView this' = scrolledIntoView this)
   /\ (forall exts,
         let this' := fst (reconfigure exts this) in
         reconfigured this' = true
         /\ selectionSet this' = selectionSet this
         /\ scrolledIntoView this' = scrolledIntoView this))
  /\ (forall c mirror_ix, tr_flags (fst (change c mirror_ix this)) = tr_flags this)
  /\ (forall anns, tr_flags (fst (annotate anns this)) = tr_flags this)
  /\ (forall sel, keeps_flags (setSelection sel))
  /\ keeps_flags scrollIntoView
  /\ (forall exts, keeps_flags (replaceExtensions exts))
  /\ (forall exts, keeps_flags (reconfigure exts))
  /\ keeps_flags apply
  /\ (forall f, (forall range, keeps_flags (f range)) ->
        keeps_flags (forEachRange f)).
Proof.
  split.
  { intros Hopen.
    unfold setSelection, scrollIntoView, replaceExtensions, reconfigure,
      bind, ensureOpen, modify, selectionSet, scrolledIntoView, reconfigured.
    rewrite Hopen. simpl.
    repeat split; intros;
      first [by apply flag_set | by rewrite flag_other]. }
  split.
  { intros c mirror_ix. unfold change, bind, ensureOpen, get.
    destruct (tr_state this); [done|]. simpl.
    destruct (_ && _); [done|]. by destruct (_ || _). }
  split.
  { intros anns. unfold annotate, bind, ensureOpen, modify.
    destruct (tr_state this); [done|]. simpl. by rewrite annotate_foldl. }
  assert (forall sel, keeps_flags (setSelection sel)) as Hsel
    by (intros sel; by apply (keeps_flags_lor Flag_SelectionSet)).
  split; [done|].
  split; [by apply (keeps_flags_lor Flag_ScrollIntoView)|].
  split; [intros exts; by apply (keeps_flags_lor Flag_Reconfigure)|].
  split; [intros exts; by apply (keeps_flags_lor Flag_Reconfigure)|].
  split.
  { apply keeps_flags_pure. intros this0. unfold apply.
    destruct (tr_state this0); [done|]. by destruct (applyTransaction _ _). }
  intros f Hf. unfold forEachRange.
  apply keeps_flags_bind; [by apply keeps_flags_pure|]. intros sel.
  apply keeps_flags_bind; [by apply keeps_flags_pure|]. intros start.
  apply keeps_flags_bind; [|done].
  generalize (@nil SelectionRange) as newRanges.
  induction (ranges sel) as [|range rest IH]; intros newRanges;
    [by apply keeps_flags_pure|].
  cbn [forEachRange_loop].
  apply keeps_flags_bind; [by apply keeps_flags_pure|]. intros before.
  apply keeps_flags_bind; [by apply keeps_flags_pure|]. intros arg.
  apply keeps_flags_bind; [done|]. intros result.
  apply keeps_flags_bind; [by apply keeps_flags_pure|]. intros this1.
  apply IH.
Qed.

End Flags.

(** ** Undoing step by step; reading back annotations *)

Section Undo.
Context `{CO : ChangeOps} `{!MappingOps} `{CF : ConfigOps} `{!FieldOps}.

Lemma snapshots_step doc0 cs ds i c :
  snapshots doc0 cs ds ->
  cs !! i = Some c ->
  exists d,
    (doc0 :: ds) !! i = Some d /\ change_in_bounds c d
    /\ (doc0 :: ds) !! S i = Some (change_apply c d).
Proof.
  revert doc0 ds i. induction cs as [|c0 cs IH]; intros doc0 [|d0 ds] i; try done.
  intros (Hb & -> & Hs) Hi. destruct i as [|i].
  - injection Hi as <-. by exists doc0.
  - simpl in Hi. destruct (IH _ _ _ Hs Hi) as (d & Hd & Hbd & Hnext).
    by exists d.
Qed.

Lemma lookup_cons_last {A} (x : A) (l : list A) :
  (x :: l) !! length l = Some (default x (last l)).
Proof.
  destruct l as [|y l _] using rev_ind; [done|].
  rewrite last_snoc, length_app. simpl.
  replace (length l + 1)%nat with (S (length l)) by lia. simpl.
  by apply list_lookup_middle.
Qed.

Lemma undo_steps doc0 cs ds :
  (forall c d, change_in_bounds c d ->
     change_apply (change_invert c d) (change_apply c d) = d) ->
  snapshots doc0 cs ds ->
  forall k, (k <= length cs)%nat ->
    (doc0 :: ds) !! (length cs - k)%nat
    = Some (apply_changes
              (take k (reverse (zip_with change_invert cs (doc0 :: ds))))
              (default doc0 (last ds))).
Proof.
  intros Hlaw Hs. pose proof (snapshots_length _ _ _ Hs) as Hlen.
  induction k as [|k IH]; intros Hk.
  - rewrite Nat.sub_0_r, Hlen. apply lookup_cons_last.
  - assert (length (zip_with change_invert cs (doc0 :: ds)) = length cs) as Hzl
      by (rewrite length_zip_with; simpl; lia).
    destruct (lookup_lt_is_Some_2 cs (length cs - S k)) as [c Hc]; [lia|].
    destruct (snapshots_step _ _ _ _ _ Hs Hc) as (d & Hd & Hb & Hnext).
    replace (S (length cs - S k)) with (length cs - k)%nat in Hnext by lia.
    rewrite IH in Hnext by lia. injection Hnext as Hnext.
    assert (reverse (zip_with change_invert cs (doc0 :: ds)) !! k
            = Some (change_invert c d)) as Hinv.
    { rewrite reverse_lookup by lia. rewrite Hzl.
      rewrite lookup_zip_with, Hc. simpl. by rewrite Hd. }
    rewrite (take_S_r _ _ _ Hinv), apply_changes_snoc, Hnext, Hd.
    f_equal. symmetry. by apply Hlaw.
Qed.

(** X4.  Let [change.invert] undo [change.apply] on the documents a
    change can be made on.  In a transaction that satisfies the
    invariant of the class, [invertedChanges()] has as many changes as
    the transaction, and applying its first [k] changes to the end
    document gives the document the transaction had [k] changes before
    its end: the snapshots are visited in reverse, down to the start
    document. *)
Theorem invertedChanges_steps (this : Transaction) :
  (forall c d, change_in_bounds c d ->
     change_apply (change_invert c d) (change_apply c d) = d) ->
  consistent this ->
  exists inverted,
    invertedChanges this = Ok inverted
    /\ ChangeSet_length inverted = ChangeSet_length (tr_changes this)
    /\ forall k, (k <= ChangeSet_length (tr_changes this))%nat ->
         (st_doc (tr_startState this) :: tr_docs this)
           !! (ChangeSet_length (tr_changes this) - k)%nat
         = Some (apply_changes (take k (changes inverted)) (tr_doc this)).
Proof.
  intros Hlaw [Hs _]. pose proof (snapshots_length _ _ _ Hs) as Hlen.
  unfold invertedChanges, ChangeSet_length in *.
  case_bool_decide as Hz.
  - exists ChangeSet_empty. split; [done|]. split; [done|].
    intros k Hk. assert (k = 0)%nat as -> by lia. rewrite Hz. simpl.
    rewrite tr_doc_last. rewrite Hz in Hlen.
    by destruct (tr_docs this).
  - rewrite invertedChanges_loop_ok by (done || lia). simpl.
    eexists. split; [done|]. simpl.
    rewrite firstn_all, zip_with_take_r.
    split.
    + rewrite length_reverse, length_zip_with. simpl. lia.
    + intros k Hk. rewrite tr_doc_last. by apply undo_steps.
Qed.

(** X5.  What [annotate] writes, the lookups read back: on an open
    transaction, after [annotate] the single-value lookup of the type of
    the last annotation passed returns its value, the multi-value lookup
    of any type returns the values it returned before followed by those
    just added, and the single-value lookup of a type that none of the
    added annotations has returns what it returned before. *)
Theorem annotate_then_lookup (this : Transaction) :
  tr_state this = None ->
  (forall anns ann,
     annotation (fst (annotate (anns ++ [ann]) this)) (ann_type ann)
     = ann_value ann)
  /\ (forall anns type,
        annotations (fst (annotate anns this)) type
        = annotations this type ++ (ann_value <$> of_type type anns))
  /\ (forall anns type,
        of_type type anns = [] ->
        annotation (fst (annotate anns this)) type = annotation this type).
Proof.
  intros Hopen.
  assert (forall anns,
            fst (annotate anns this)
            = set_annotations (tr_annotations this ++ anns) this) as Hann.
  { intros anns. unfold annotate, bind, ensureOpen, modify. rewrite Hopen.
    simpl. apply annotate_foldl. }
  split; [|split].
  - intros anns ann. rewrite Hann. unfold annotation. simpl.
    rewrite annotation_loop_take by done. rewrite firstn_all.
    unfold of_type. rewrite app_assoc, filter_app.
    rewrite (filter_cons_True _ ann) by done.
    rewrite filter_nil. by rewrite last_snoc.
  - intros anns type. rewrite Hann. unfold annotations. simpl.
    rewrite !annotations_foldl. simpl. unfold of_type.
    by rewrite filter_app, fmap_app.
  - intros anns type Hnone. rewrite Hann. unfold annotation. simpl.
    rewrite !annotation_loop_take by done. rewrite !firstn_all.
    unfold of_type in *. by rewrite filter_app, Hnone, app_nil_r.
Qed.

End Undo.

(** ** The fields of a state that has been built *)

Section BuiltStates.
Context `{CO : ChangeOps} `{!MappingOps} `{CF : ConfigOps} `{!FieldOps} `{JO : JsonOps}.

Lemma create_loop_values fields st st' :
  create_loop fields st = Ok st' ->
  st_configuration st' = st_configuration st
  /\ forall fld, is_Some (st_values st' !! fld)
                 <-> is_Some (st_values st !! fld) \/ fld ∈ fields.
Proof.
  revert st. induction fields as [|f rest IH]; intros st; simpl.
  - intros [= <-]. split; [done|]. intros fld. rewrite elem_of_nil. tauto.
  - destruct (truthy _); [done|].
    destruct (field_init f st) as [v|e]; [|done]. simpl.
    intros Hrest. destruct (IH _ Hrest) as [Hc Hv]. split; [done|].
    intros fld. rewrite Hv, elem_of_cons. simpl.
    rewrite lookup_insert_is_Some.
    split; [intros [[->|[_ ?]]|?]|intros [?|[->|?]]]; auto.
    destruct (decide (f = fld)); auto.
Qed.

Lemma applyTransaction_loop_values this tr fields st st' :
  applyTransaction_loop this tr fields st = Ok st' ->
  st_configuration st' = st_configuration st
  /\ forall fld, is_Some (st_values st' !! fld)
                 <-> is_Some (st_values st !! fld) \/ fld ∈ fields.
Proof.
  revert st. induction fields as [|f rest IH]; intros st;
    cbn [applyTransaction_loop].
  - intros [= <-]. split; [done|]. intros fld. rewrite elem_of_nil. tauto.
  - match goal with |- context [rbind ?r _] => destruct r as [v|e] end; [|done].
    cbn [rbind]. intros Hrest. destruct (IH _ Hrest) as [Hc Hv]. split; [done|].
    intros fld. rewrite Hv, elem_of_cons. simpl.
    rewrite lookup_insert_is_Some.
    split; [intros [[->|[_ ?]]|?]|intros [?|[->|?]]]; auto.
    destruct (decide (f = fld)); auto.
Qed.

Lemma create_values config st :
  create config = Ok st -> has_values_for st (stateField (st_configuration st)).
Proof.
  unfold create.
  destruct (new_EditorState _ _ _ _) as [st0|e] eqn:E; [|done]. simpl.
  apply new_EditorState_inv in E as [-> _]. simpl.
  intros Hloop. destruct (create_loop_values _ _ _ Hloop) as [Hc Hv].
  intros fld. rewrite Hv, Hc. simpl. rewrite lookup_empty.
  split; [intros [[? ?]|?]; done|by right].
Qed.

Lemma field_of_built st :
  has_values_for st (stateField (st_configuration st)) ->
  forall fld require,
    (fld ∈ stateField (st_configuration st) ->
     exists v, st_values st !! fld = Some v /\ field st fld require = Ok v)
    /\ (fld ∉ stateField (st_configuration st) ->
        st_values st !! fld = None
        /\ field st fld require
           = if require
             then Throw (RangeError "Field is not present in this state")
             else Ok VUndefined).
Proof.
  intros Hv fld require. unfold field. split.
  - intros Hin. destruct (proj2 (Hv fld) Hin) as [v Hfld].
    exists v. split; [done|]. rewrite Hfld. simpl.
    by rewrite andb_false_r.
  - intros Hnot. assert (st_values st !! fld = None) as Hfld.
    { destruct (st_values st !! fld) eqn:E; [|done].
      destruct Hnot. apply Hv. by rewrite E. }
    split; [done|]. rewrite Hfld. simpl.
    by rewrite bool_decide_eq_false_2.
Qed.

(** X6.  A state returned by [create], [fromJSON] or [applyTransaction]
    has a value for exactly the fields that its configuration declares.
    So on such a state [field] returns the stored value of every
    declared field, whatever [require] is, and never raises the error of
    a field not yet initialized; for a field that is not declared it
    raises the range error of an absent field when [require] is true and
    returns [undefined] when it is false. *)
Theorem built_state_fields (st : EditorState) :
  (exists config, create config = Ok st)
  \/ (exists json config, fromJSON json config = Ok st)
  \/ (exists this tr, applyTransaction this tr = Ok st) ->
  has_values_for st (stateField (st_configuration st))
  /\ forall fld require,
       (fld ∈ stateField (st_configuration st) ->
        exists v, st_values st !! fld = Some v /\ field st fld require = Ok v)
       /\ (fld ∉ stateField (st_configuration st) ->
           st_values st !! fld = None
           /\ field st fld require
              = if require
                then Throw (RangeError "Field is not present in this state")
                else Ok VUndefined).
Proof.
  intros Hbuilt.
  assert (has_values_for st (stateField (st_configuration st))) as Hv.
  { destruct Hbuilt as [(config & Hc)|[(json & config & Hj)|(this & tr & Ha)]].
    - by eapply create_values.
    - revert Hj. unfold fromJSON. destruct (json_doc json); [|done].
      destruct (EditorSelection_fromJSON json); [|done]. simpl.
      apply create_values.
    - revert Ha. unfold applyTransaction.
      destruct (new_EditorState _ _ _ _) as [st0|e] eqn:E; [|done]. simpl.
      apply new_EditorState_inv in E as [-> _].
      intros Hloop.
      destruct (applyTransaction_loop_values _ _ _ _ _ Hloop) as [Hc Hv].
      intros fld. rewrite Hv, Hc. simpl. rewrite lookup_empty.
      split; [intros [[? ?]|?]; done|by right]. }
  split; [done|]. by apply field_of_built.
Qed.

Lemma check_ranges_error rs doc e :
  check_ranges rs doc = Throw e -> e = range_error.
Proof.
  induction rs as [|r rs IH]; simpl; [done|].
  destruct (_ >? _); [by intros [= <-]|done].
Qed.

Lemma create_loop_no_duplicate fields st :
  (forall fld st', field_init fld st' ≠ Throw duplicate_error) ->
  NoDup fields ->
  (forall fld, fld ∈ fields -> st_values st !! fld = None) ->
  create_loop fields st ≠ Throw duplicate_error.
Proof.
  intros Hinit. revert st.
  induction fields as [|f rest IH]; intros st Hnd Hfree; simpl; [done|].
  apply NoDup_cons in Hnd as [Hnot Hnd].
  rewrite (Hfree f) by apply list_elem_of_here. simpl.
  destruct (field_init f st) as [v|e] eqn:E; simpl.
  - apply IH; [done|]. intros fld Hin. simpl.
    rewrite lookup_insert_ne by (intros ->; done).
    apply Hfree. by apply list_elem_of_further.
  - intros [= ->]. by apply (Hinit f st).
Qed.

Lemma create_loop_truthy fields st st' :
  (forall fld st0 v, field_init fld st0 = Ok v -> truthy v = true) ->
  create_loop fields st = Ok st' ->
  NoDup fields
  /\ forall fld, fld ∈ fields ->
       truthy (default VUndefined (st_values st !! fld)) = false.
Proof.
  intros Htruthy. revert st.
  induction fields as [|f rest IH]; intros st; simpl.
  - intros _. split; [constructor|]. intros fld Hin. by apply elem_of_nil in Hin.
  - destruct (truthy (default VUndefined (st_values st !! f))) eqn:Ef; [done|].
    destruct (field_init f st) as [v|e] eqn:E; [|done]. simpl.
    intros Hrest. destruct (IH _ Hrest) as [Hnd Hfalsy].
    assert (f ∉ rest) as Hnot.
    { intros Hin. specialize (Hfalsy f Hin). simpl in Hfalsy.
      rewrite lookup_insert_eq in Hfalsy. simpl in Hfalsy.
      rewrite (Htruthy _ _ _ E) in Hfalsy. done. }
    split; [by constructor|].
    intros fld [->|Hin]%elem_of_cons; [done|].
    specialize (Hfalsy fld Hin). simpl in Hfalsy.
    rewrite lookup_insert_ne in Hfalsy by (intros ->; done). done.
Qed.

(** X7.  [create] finds a field that is declared twice by the value
    stored for it being truthy.  When the declared fields are distinct
    (and no field's own [init] raises that error), [create] does not
    raise the error of a duplicate field; and when every [init] returns
    a truthy value, a configuration for which [create] returns a state
    declares no field twice. *)
Theorem create_duplicates (config : EditorStateConfig) :
  let fields :=
    stateField (extendState_resolve (default [] (cfg_extensions config))) in
  ((forall fld st, field_init fld st ≠ Throw duplicate_error) ->
   NoDup fields -> create config ≠ Throw duplicate_error)
  /\ ((forall fld st v, field_init fld st = Ok v -> truthy v = true) ->
      forall st, create config = Ok st -> NoDup fields).
Proof.
  cbn zeta. unfold create. split.
  - intros Hinit Hnd.
    destruct (new_EditorState _ _ _ _) as [st0|e] eqn:E; simpl.
    + apply new_EditorState_inv in E as [-> _]. simpl.
      by apply create_loop_no_duplicate.
    + unfold new_EditorState in E.
      destruct (check_ranges _ _) as [[]|e'] eqn:Ec; [done|].
      simpl in E. injection E as <-. intros [= ->].
      by apply check_ranges_error in Ec.
  - intros Htruthy st.
    destruct (new_EditorState _ _ _ _) as [st0|e] eqn:E; [|done]. simpl.
    apply new_EditorState_inv in E as [-> _]. simpl.
    intros Hloop. by destruct (create_loop_truthy _ _ _ Htruthy Hloop).
Qed.


End BuiltStates.

(** ** The content tree *)

Module TreeFacts.
Import ContentView ContentTree Marking.

Lemma markParentsDirty_unfold h this v childList :
  h !! this = Some v ->
  markParentsDirty h this childList
  = markParentsDirty_loop (size h) h (parent v) childList.
Proof. intros Hthis. unfold markParentsDirty. by rewrite Hthis. Qed.

(** X9.  Marking is idempotent and only adds: [markDirty] returns for
    every store; a second [markDirty] of the same object, with whatever
    [andParent], changes nothing; and the first one removes no object,
    changes no parent and clears no mark. *)
Theorem markDirty_twice (h : gmap nat View) (this : nat) (andParent again : bool) :
  exists h',
    markDirty h this andParent = Some h'
    /\ markDirty h' this again = Some h'
    /\ grows h h'.
Proof.
  destruct (markDirty_total h this andParent) as [h' Hmark].
  pose proof (markDirty_grows _ _ _ _ Hmark) as Hg.
  exists h'. split; [done|]. split; [|done].
  destruct (h !! this) as [v|] eqn:Hthis.
  - destruct (proj2 Hg this v Hthis) as (v' & Hv' & _ & Hbits).
    apply (markDirty_already _ _ v'); [done|].
    destruct (decide (Z.land (dirty v) Dirty_Node = 0%Z)) as [Hn|Hn];
      [|by apply Hbits].
    rewrite (markDirty_unfold _ _ _ _ Hthis Hn) in Hmark.
    apply markParentsDirty_loop_post in Hmark as ([_ Hs] & _).
    destruct (Hs this (set_dirty (Z.lor (dirty v) Dirty_Node) v))
      as (v'' & Hv'' & _ & Hb); [apply lookup_insert_eq|].
    assert (v'' = v') as -> by congruence.
    apply Hb. simpl. rewrite Z.land_lor_distr_l.
    intros Hl. apply Z.lor_eq_0_iff in Hl as [_ ?]. done.
  - rewrite (markDirty_absent _ _ _ Hthis) in Hmark. injection Hmark as <-.
    by apply markDirty_absent.
Qed.

Lemma well_marked_at h : well_marked h <-> forall n, marked_at h n.
Proof. unfold well_marked, marked_at. split; intros Hw; intros; by eapply Hw. Qed.

(** A walk from the parent of [x] restores the marking of a tree that is
    well marked everywhere but at [x]. *)
Lemma markParentsDirty_loop_well_marked fuel h1 x v1 childList h' :
  h1 !! x = Some v1 ->
  (forall y, y ≠ x -> marked_at h1 y) ->
  markParentsDirty_loop fuel h1 (parent v1) childList = Some h' ->
  well_marked h'.
Proof.
  intros Hx Hwm (Hg & Hcur & Hnew)%markParentsDirty_loop_post.
  intros y vy' p Hy' Hd' Hp' Hin'.
  destruct (h1 !! y) as [vy|] eqn:Hy;
    [|by rewrite (proj1 Hg y Hy) in Hy'].
  destruct (proj2 Hg y vy Hy) as (vy'' & Hy'' & Hpar & _).
  assert (vy'' = vy') as -> by congruence.
  assert (is_Some (h1 !! p)) as Hin.
  { destruct (h1 !! p) eqn:E; [done|]. rewrite (proj1 Hg p E) in Hin'.
    by destruct Hin'. }
  destruct (decide (y = x)) as [->|Hne].
  { apply Hcur; [|done]. congruence. }
  destruct (decide (dirty vy = 0%Z)) as [Hz|Hnz].
  - destruct (Hnew y vy Hy) as [Hc|Hq].
    + intros Heq. rewrite Hy' in Heq. injection Heq as ->. done.
    + rewrite Hz in Hc. by rewrite Z.land_0_l in Hc.
    + apply Hq; [congruence|done].
  - eapply grows_has_bit; [exact Hg|].
    eapply (Hwm y Hne); [exact Hy|done|congruence|done].
Qed.

Lemma markParentsDirty_loop_childList fuel h p vp h' :
  h !! p = Some vp ->
  markParentsDirty_loop fuel h (Some p) true = Some h' ->
  has_bit Dirty_Node h' p /\ has_bit Dirty_Child h' p.
Proof.
  intros Hp Hloop.
  split; [|by eapply (proj1 (proj2 (markParentsDirty_loop_post _ _ _ _ _ Hloop)))].
  revert Hloop. rewrite markParentsDirty_loop_unfold, Hp. cbn zeta.
  assert (Z.land (Z.lor (dirty vp) Dirty_Node) Dirty_Node ≠ 0%Z) as Hn.
  { rewrite Z.land_lor_distr_l. intros Hl.
    apply Z.lor_eq_0_iff in Hl as [_ ?]. done. }
  case_bool_decide.
  - intros [= <-]. eexists. split; [apply lookup_insert_eq|done].
  - destruct fuel as [|fuel]; [done|].
    intros (Hg & _)%markParentsDirty_loop_post.
    eapply grows_has_bit; [exact Hg|].
    eexists. split; [apply lookup_insert_eq|]. simpl.
    by apply land_lor_ne_0.
Qed.

Lemma setParent_post (h : gmap nat View) (this parent_ : nat) :
  exists h',
    setParent h this parent_ = Some h'
    /\ (is_Some (h !! this) -> parentOf h' this = Some parent_)
    /\ (forall v, h !! this = Some v -> dirty v ≠ 0%Z ->
          parent v ≠ Some parent_ -> is_Some (h !! parent_) ->
          has_bit Dirty_Node h' parent_ /\ has_bit Dirty_Child h' parent_)
    /\ (forall x, h !! x = None <-> h' !! x = None)
    /\ (forall x vx, h !! x = Some vx ->
          exists vx', h' !! x = Some vx'
                      /\ (x ≠ this -> parent vx' = parent vx)
                      /\ forall bits, Z.land (dirty vx) bits ≠ 0%Z ->
                                      Z.land (dirty vx') bits ≠ 0%Z)
    /\ (well_marked h -> well_marked h').
Proof.
  unfold setParent. destruct (h !! this) as [v|] eqn:Hthis.
  2:{ exists h. split; [done|]. split; [by intros [? ?]|]. split; [done|].
      split; [done|]. split; [|done]. intros x vx Hx. by exists vx. }
  case_bool_decide as Hpar.
  2:{ exists h. split; [done|].
      split; [intros _; unfold parentOf; by rewrite Hthis|].
      split; [intros v0 Hv0 _ Hne; congruence|].
      split; [done|]. split; [|done].
      intros x vx Hx. by exists vx. }
  cbn zeta. set (h1 := <[this := mkView (Some parent_) (dirty v)]> h).
  assert (h1 !! this = Some (mkView (Some parent_) (dirty v))) as Hthis1
    by apply lookup_insert_eq.
  assert (forall x, x ≠ this -> h1 !! x = h !! x) as Hother
    by (intros x Hx; unfold h1; by rewrite lookup_insert_ne).
  assert (forall x, h !! x = None <-> h1 !! x = None) as Hdom1.
  { intros x. destruct (decide (x = this)) as [->|Hx];
      [rewrite Hthis, Hthis1; by split|by rewrite Hother]. }
  assert (forall x vx, h !! x = Some vx ->
            exists vx1, h1 !! x = Some vx1
                        /\ (x ≠ this -> parent vx1 = parent vx)
                        /\ dirty vx1 = dirty vx) as Hsame1.
  { intros x vx Hx. destruct (decide (x = this)) as [->|Hne].
    - eexists. split; [exact Hthis1|]. split; [done|]. simpl. congruence.
    - exists vx. by rewrite Hother. }
  assert (forall bit x, has_bit bit h x -> has_bit bit h1 x) as Hbit1.
  { intros bit x (vx & Hx & Hb). destruct (Hsame1 x vx Hx) as (vx1 & Hx1 & _ & Hd).
    exists vx1. split; [done|]. by rewrite Hd. }
  assert (well_marked h -> forall y, y ≠ this -> marked_at h1 y) as Hwm1.
  { intros Hwm y Hy vy p Hvy Hd Hp Hin. rewrite Hother in Hvy by done.
    apply Hbit1. eapply Hwm; [exact Hvy|done|done|].
    destruct (h !! p) eqn:E; [done|]. apply Hdom1 in E. rewrite E in Hin.
    by destruct Hin. }
  case_bool_decide as Hd.
  - rewrite (markParentsDirty_unfold _ _ _ _ Hthis1). simpl.
    destruct (markParentsDirty_loop_total (size h1) h1 (Some parent_) true)
      as [h' Hloop]; [apply map_size_filter|].
    exists h'. split; [done|].
    pose proof (markParentsDirty_loop_post _ _ _ _ _ Hloop) as ([Hn Hs] & _ & _).
    split.
    { intros _. destruct (Hs _ _ Hthis1) as (v' & Hv' & Hp' & _).
      unfold parentOf. by rewrite Hv', Hp'. }
    split.
    { intros v0 _ _ _ [vp Hvp].
      destruct (Hsame1 parent_ vp Hvp) as (vp1 & Hvp1 & _).
      by eapply markParentsDirty_loop_childList. }
    split.
    { intros x. rewrite Hdom1. split; [apply Hn|].
      intros Hx'. destruct (h1 !! x) as [vx1|] eqn:E; [|done].
      destruct (Hs x vx1 E) as (? & ? & _). congruence. }
    split.
    { intros x vx Hx. destruct (Hsame1 x vx Hx) as (vx1 & Hx1 & Hp1 & Hd1).
      destruct (Hs x vx1 Hx1) as (vx' & Hx' & Hp' & Hb').
      exists vx'. split; [done|]. split; [intros Hne; rewrite Hp'; by apply Hp1|].
      intros bits. rewrite <- Hd1. apply Hb'. }
    intros Hwm.
    eapply (markParentsDirty_loop_well_marked _ h1 this); [exact Hthis1| |exact Hloop].
    by apply Hwm1.
  - exists h1. split; [done|].
    split; [intros _; unfold parentOf; by rewrite Hthis1|].
    split; [intros v0 [= <-] Hd0; done|].
    split; [done|]. split.
    { intros x vx Hx. destruct (Hsame1 x vx Hx) as (vx1 & Hx1 & Hp1 & Hd1).
      exists vx1. split; [done|]. split; [done|]. by rewrite Hd1. }
    intros Hwm. apply well_marked_at. intros y.
    destruct (decide (y = this)) as [->|Hy]; [|by apply Hwm1].
    intros vy p Hvy Hdy. rewrite Hthis1 in Hvy. injection Hvy as <-. done.
Qed.

(** X10.  [setParent] returns for every store.  It makes [parent] the
    parent of the object; when it changes the parent of an object that
    has a dirty mark, the new parent is marked self-dirty and
    child-dirty afterwards; no object is added or removed, every other
    object keeps its parent, no mark is cleared, and a well-marked tree
    stays well marked. *)
Theorem setParent_marks (h : gmap nat View) (this parent_ : nat) :
  exists h',
    setParent h this parent_ = Some h'
    /\ (is_Some (h !! this) -> parentOf h' this = Some parent_)
    /\ (forall v, h !! this = Some v -> dirty v ≠ 0%Z ->
          parent v ≠ Some parent_ -> is_Some (h !! parent_) ->
          has_bit Dirty_Node h' parent_ /\ has_bit Dirty_Child h' parent_)
    /\ (forall x, h !! x = None <-> h' !! x = None)
    /\ (forall x vx, h !! x = Some vx ->
          exists vx', h' !! x = Some vx'
                      /\ (x ≠ this -> parent vx' = parent vx)
                      /\ forall bits, Z.land (dirty vx) bits ≠ 0%Z ->
                                      Z.land (dirty vx') bits ≠ 0%Z)
    /\ (well_marked h -> well_marked h').
Proof.
  destruct (setParent_post h this parent_)
    as (h' & Hset & Hparent & Hmarks & Hdom & Hkeeps & Hwm).
  exists h'. split; [exact Hset|]. split; [exact Hparent|].
  split; [exact Hmarks|]. split; [exact Hdom|]. split; [exact Hkeeps|exact Hwm].
Qed.

Lemma rootView_sound fuel h this r :
  rootView fuel h this = Some r ->
  parentOf h r = None /\ (r = this \/ ancestor h this r).
Proof.
  revert this. induction fuel as [|fuel IH]; intros this; simpl; [done|].
  destruct (parentOf h this) as [p|] eqn:Hp.
  - intros Hr. destruct (IH _ Hr) as [Hroot Hanc]. split; [done|]. right.
    assert (parent_of h this p) as Hpo.
    { unfold parentOf in Hp. destruct (h !! this) as [v|] eqn:E; [|done].
      by exists v. }
    destruct Hanc as [->|Hanc]; [by apply ancestor_parent|].
    by eapply ancestor_step.
  - intros [= <-]. by split; [|left].
Qed.

Lemma rootView_path h this l fuel :
  root_path h this l -> (length l < fuel)%nat ->
  rootView fuel h this = Some (default this (last l)).
Proof.
  revert this fuel. induction l as [|p rest IH]; intros this fuel Hpath Hfuel;
    (destruct fuel as [|fuel]; [simpl in Hfuel; lia|]); simpl in *.
  - by rewrite Hpath.
  - destruct Hpath as [-> Hrest]. rewrite (IH p fuel Hrest) by lia.
    by rewrite last_cons_default.
Qed.

(** X11.  What [rootView] returns has no parent, and it is the object
    itself or one of its ancestors.  For an object whose chain of
    parents ends, [rootView] returns the last object of the chain when
    given as many rounds as the chain is long and one more; the parent
    of the object then has the same root view. *)
Theorem rootView_root (h : gmap nat View) (this : nat) :
  (forall fuel r,
     rootView fuel h this = Some r ->
     parentOf h r = None /\ (r = this \/ ancestor h this r))
  /\ (forall l fuel,
        root_path h this l -> (length l < fuel)%nat ->
        rootView fuel h this = Some (default this (last l))
        /\ forall p, parentOf h this = Some p ->
             rootView fuel h p = rootView fuel h this).
Proof.
  split; [intros fuel r; apply rootView_sound|].
  intros l fuel Hpath Hfuel. split; [by apply rootView_path|].
  intros p Hp. rewrite (rootView_path _ _ _ _ Hpath Hfuel).
  destruct l as [|p' rest]; simpl in Hpath; [congruence|].
  destruct Hpath as [Hp' Hrest]. assert (p' = p) as -> by congruence.
  rewrite (rootView_path h p rest fuel Hrest) by (simpl in Hfuel; lia).
  by rewrite last_cons_default.
Qed.

Lemma extent_app L l1 l2 : extent L (l1 ++ l2) = (extent L l1 + extent L l2)%Z.
Proof.
  unfold extent. induction l1 as [|c l1 IH]; simpl; [done|].
  fold (extent L (l1 ++ l2)) in *. fold (extent L l1) in *. rewrite IH. lia.
Qed.

Lemma posBefore_loop_absent L children view pos :
  view ∉ children ->
  posBefore_loop L children view pos
  = Throw (RangeError "Invalid child in posBefore").
Proof.
  revert pos. induction children as [|c rest IH]; intros pos Hnot; simpl; [done|].
  apply not_elem_of_cons in Hnot as [Hne Hnot].
  rewrite bool_decide_eq_false_2 by done. by apply IH.
Qed.

Lemma posBefore_loop_found L pre view post pos :
  view ∉ pre ->
  posBefore_loop L (pre ++ view :: post) view pos = Ok (pos + extent L pre)%Z.
Proof.
  revert pos. induction pre as [|c pre IH]; intros pos Hnot; simpl.
  - rewrite bool_decide_eq_true_2 by done. f_equal. unfold extent. simpl. lia.
  - apply not_elem_of_cons in Hnot as [Hne Hnot].
    rewrite bool_decide_eq_false_2 by done. rewrite IH by done.
    f_equal. change (extent L (c :: pre))
      with (lengthOf L c + breakAfterOf L c + extent L pre)%Z. lia.
Qed.

Lemma posAtStart_fuel h L this l fuel :
  root_path h this l -> (length l < fuel)%nat ->
  is_Some (posAtStart fuel h L this).
Proof.
  revert this fuel. induction l as [|p rest IH]; intros this fuel Hpath Hfuel;
    (destruct fuel as [|fuel]; [simpl in Hfuel; lia|]); simpl in *.
  - by rewrite Hpath.
  - destruct Hpath as [-> Hrest].
    destruct (IH p fuel Hrest) as [[pos|e] ->]; [lia|done|done].
Qed.

(** X12.  Positions in the tree.  The start of an object without parent
    is [0]; for an object with a parent whose start is known, the start
    is that of the parent plus the lengths and breaks of the children
    that the parent lists before it, the end is the start plus the
    length, and the child listed next starts at the end plus the break;
    when the parent does not list the object among its children, asking
    for its start raises a range error.  [posAtStart] returns when given
    more rounds than the chain of parents is long. *)
Theorem posAtStart_child (h : gmap nat View) (L : Layout) (this : nat) (fuel : nat) :
  (parentOf h this = None -> posAtStart (S fuel) h L this = Some (Ok 0%Z))
  /\ (forall p start,
        parentOf h this = Some p ->
        posAtStart fuel h L p = Some (Ok start) ->
        (this ∉ childrenOf L p ->
         posAtStart (S fuel) h L this
         = Some (Throw (RangeError "Invalid child in posBefore")))
        /\ forall pre post,
             childrenOf L p = pre ++ this :: post -> this ∉ pre ->
             posAtStart (S fuel) h L this = Some (Ok (start + extent L pre)%Z)
             /\ posBefore fuel h L p this = Some (Ok (start + extent L pre)%Z)
             /\ posAfter fuel h L p this
                = Some (Ok (start + extent L pre + lengthOf L this)%Z)
             /\ posAtEnd (S fuel) h L this
                = Some (Ok (start + extent L pre + lengthOf L this)%Z)
             /\ forall next rest,
                  post = next :: rest -> next ≠ this -> next ∉ pre ->
                  posBefore fuel h L p next
                  = Some (Ok (start + extent L pre + lengthOf L this
                              + breakAfterOf L this)%Z))
  /\ (forall l, root_path h this l -> (length l < fuel)%nat ->
        is_Some (posAtStart fuel h L this)).
Proof.
  split; [intros Hroot; simpl; by rewrite Hroot|].
  split; [|intros l; apply posAtStart_fuel].
  intros p start Hp Hstart. split.
  - intros Hnot. simpl. rewrite Hp, Hstart. by rewrite posBefore_loop_absent.
  - intros pre post Hchildren Hpre.
    assert (posAtStart (S fuel) h L this = Some (Ok (start + extent L pre)%Z))
      as Hthis.
    { simpl. rewrite Hp, Hstart, Hchildren. by rewrite posBefore_loop_found. }
    assert (posBefore fuel h L p this = Some (Ok (start + extent L pre)%Z))
      as Hbefore.
    { unfold posBefore. rewrite Hstart, Hchildren.
      by rewrite posBefore_loop_found. }
    split; [done|]. split; [done|].
    split; [unfold posAfter; by rewrite Hbefore|].
    split; [unfold posAtEnd; by rewrite Hthis|].
    intros next rest -> Hne Hnext. unfold posBefore. rewrite Hstart, Hchildren.
    replace (pre ++ this :: next :: rest)
      with ((pre ++ [this]) ++ next :: rest) by (by rewrite <- app_assoc).
    rewrite posBefore_loop_found.
    + rewrite extent_app. do 2 f_equal. unfold extent. simpl. lia.
    + intros Hin. apply elem_of_app in Hin as [Hin|Hin]; [done|].
      apply list_elem_of_singleton in Hin. done.
Qed.

Lemma extent_take_S L children j c :
  children !! j = Some c ->
  extent L (take (S j) children)
  = (extent L (take j children) + (lengthOf L c + breakAfterOf L c))%Z.
Proof.
  intros Hc. rewrite (take_S_r _ _ _ Hc), extent_app. unfold extent. simpl. lia.
Qed.

Lemma extent_nonneg L children :
  (forall c, c ∈ children -> (0 <= lengthOf L c + breakAfterOf L c)%Z) ->
  (0 <= extent L children)%Z.
Proof.
  induction children as [|c rest IH]; intros Hnonneg; [done|].
  change (extent L (c :: rest))
    with (lengthOf L c + breakAfterOf L c + extent L rest)%Z.
  assert (0 <= lengthOf L c + breakAfterOf L c)%Z
    by (apply Hnonneg; constructor).
  assert (0 <= extent L rest)%Z
    by (apply IH; intros c' Hin; apply Hnonneg; by constructor).
  lia.
Qed.

Lemma extent_take_nonneg L children i :
  (forall c, c ∈ children -> (0 <= lengthOf L c + breakAfterOf L c)%Z) ->
  (0 <= extent L (take i children))%Z.
Proof.
  intros Hnonneg. apply extent_nonneg. intros c Hin. apply Hnonneg.
  apply elem_of_take in Hin as (n & Hn & _). by eapply list_elem_of_lookup_2.
Qed.

Lemma findPos_loop_spec L children pos bias :
  (forall c, c ∈ children -> (0 <= lengthOf L c + breakAfterOf L c)%Z) ->
  forall i cpos, (i <= length children)%nat ->
    let base := (cpos - extent L (take i children))%Z in
    ((pos < base)%Z ->
     findPos_loop L children pos bias cpos i
     = Throw (TypeError "undefined has no properties"))
    /\ ((base <= pos)%Z ->
        exists k,
          findPos_loop L children pos bias cpos i
          = Ok (mkCursor children (base + extent L (take k children)) k
                  (pos - (base + extent L (take k children))))
          /\ stops_at L children pos bias base i k).
Proof.
  intros Hnonneg. induction i as [|j IH]; intros cpos Hi base.
  - subst base. rewrite take_0. change (extent L []) with 0%Z.
    rewrite Z.sub_0_r. simpl. unfold findPos_found. split.
    + intros Hlt. destruct (Z.gtb_spec pos cpos); [lia|].
      destruct (Z.eqb_spec pos cpos); [lia|done].
    + intros Hle. exists O. rewrite take_0. change (extent L []) with 0%Z.
      rewrite Z.add_0_r.
      split.
      * destruct (Z.gtb_spec pos cpos); [done|].
        destruct (Z.eqb_spec pos cpos); [|lia]. by destruct (bias >? 0)%Z.
      * unfold stops_at. rewrite take_0. change (extent L []) with 0%Z.
        split; [lia|]. split; [lia|]. split; [intros c Hlt; lia|]. auto.
  - destruct (lookup_lt_is_Some_2 children j) as [c Hc]; [lia|].
    pose proof (extent_take_S L _ _ _ Hc) as Hext.
    pose proof (extent_take_nonneg L children j Hnonneg) as Hpre.
    assert (0 <= lengthOf L c + breakAfterOf L c)%Z as Hc0
      by (apply Hnonneg; by eapply list_elem_of_lookup_2).
    destruct (IH (cpos - (lengthOf L c + breakAfterOf L c))%Z) as [IHlt IHle];
      [lia|].
    assert (cpos - (lengthOf L c + breakAfterOf L c) - extent L (take j children)
            = base)%Z as Hbase by (subst base; lia).
    rewrite Hbase in IHlt, IHle.
    assert (base + extent L (take (S j) children) = cpos)%Z as Hcpos
      by (subst base; lia).
    assert (findPos_found L children pos bias cpos (S j) = Ok false ->
            findPos_loop L children pos bias cpos (S j)
            = findPos_loop L children pos bias
                (cpos - (lengthOf L c + breakAfterOf L c)) j) as Hstep.
    { intros Hfound. simpl. simpl in Hfound. rewrite Hfound. by rewrite Hc. }
    assert (findPos_found L children pos bias cpos (S j) = Ok true ->
            base <= pos ->
            (pos = cpos -> 0 < bias \/ breakAfterOf L c ≠ 0) ->
            cpos <= pos ->
            exists k,
              findPos_loop L children pos bias cpos (S j)
              = Ok (mkCursor children (base + extent L (take k children)) k
                      (pos - (base + extent L (take k children))))
              /\ stops_at L children pos bias base (S j) k)%Z as Hstop.
    { intros Hfound _ Hwhy Hle. exists (S j). rewrite Hcpos. split.
      - simpl. simpl in Hfound. by rewrite Hfound.
      - split; [lia|]. split; [lia|]. split; [intros c' Hlt; lia|].
        intros Heq. destruct Hwhy as [?|?]; [lia|by left|].
        right; right. by exists j, c. }
    assert (forall k,
              stops_at L children pos bias base j k ->
              (pos <= cpos)%Z ->
              (pos = cpos -> bias <= 0 /\ breakAfterOf L c = 0)%Z ->
              stops_at L children pos bias base (S j) k) as Hlift.
    { intros k (Hk & Hfrom & Hto & Hzero) Hle Heq.
      split; [lia|]. split; [done|]. split; [|done].
      intros c' Hlt Hc'. destruct (decide (k = j)) as [->|Hne].
      - assert (c' = c) as -> by congruence. rewrite <- Z.add_assoc.
        rewrite <- Hext, Hcpos. by split.
      - apply Hto; [lia|done]. }
    unfold findPos_found in Hstep, Hstop. rewrite Hc in Hstep, Hstop.
    split.
    + intros Hlt. rewrite Hstep.
      * by apply IHlt.
      * destruct (Z.gtb_spec pos cpos); [lia|].
        destruct (Z.eqb_spec pos cpos); [lia|done].
    + intros Hle. destruct (Z.gtb_spec pos cpos) as [Hgt|Hngt].
      * apply Hstop; [done|done|lia|lia].
      * destruct (Z.eqb_spec pos cpos) as [Heq|Hneq].
        -- destruct (Z.gtb_spec bias 0) as [Hb|Hb].
           ++ apply Hstop; [done|done|intros _; left; lia|lia].
           ++ destruct (Z.eqb_spec (breakAfterOf L c) 0) as [Hz|Hz]; simpl in *.
              ** rewrite Hstep by done. destruct (IHle Hle) as (k & Hk & Hat).
                 exists k. split; [done|]. apply Hlift; [done|lia|done].
              ** apply Hstop; [done|done|intros _; by right|lia].
        -- rewrite Hstep by done. destruct (IHle Hle) as (k & Hk & Hat).
           exists k. split; [done|]. apply Hlift; [done|lia|lia].
Qed.

(** X13.  [childPos] on an object whose length is the sum of the lengths
    and breaks of its children, none of them negative.  For a position
    below [0] it raises a type error (it reads the child at index [-1]).
    For a position from [0] on it returns an index [k] and the offset of
    the position from the start of child [k]: the offset is not
    negative; when [k] is the index of a child, the offset is at most
    the child's length plus its break, and reaches that only with a
    bias that is not positive and a child without break; the offset is
    [0] only with a positive bias, at index [0], or after a child with a
    break. *)
Theorem childPos_locates (L : Layout) (this : nat) (pos : Z) (bias : option Z) :
  lengthOf L this = extent L (childrenOf L this) ->
  (forall c, c ∈ childrenOf L this ->
     (0 <= lengthOf L c + breakAfterOf L c)%Z) ->
  ((pos < 0)%Z ->
   childPos L this pos bias = Throw (TypeError "undefined has no properties"))
  /\ ((0 <= pos)%Z ->
      exists k,
        childPos L this pos bias
        = Ok (mkCursor (childrenOf L this)
                (extent L (take k (childrenOf L this))) k
                (pos - extent L (take k (childrenOf L this))))
        /\ stops_at L (childrenOf L this) pos (default 1%Z bias) 0
             (length (childrenOf L this)) k).
Proof.
  intros Hlen Hnonneg.
  destruct (findPos_loop_spec L (childrenOf L this) pos (default 1%Z bias)
              Hnonneg (length (childrenOf L this)) (lengthOf L this))
    as [Hlt Hle]; [done|].
  rewrite firstn_all, Hlen, Z.sub_diag in Hlt, Hle.
  unfold childPos, findPos, childCursor. simpl. rewrite Hlen.
  split; [done|]. intros Hpos. destruct (Hle Hpos) as (k & Hk & Hat).
  exists k. by rewrite Z.add_0_l in Hk.
Qed.

Lemma keeps_marks_refl h : keeps_marks h h.
Proof. split; [done|]. intros x vx Hx. by exists vx. Qed.

Lemma keeps_marks_trans h1 h2 h3 :
  keeps_marks h1 h2 -> keeps_marks h2 h3 -> keeps_marks h1 h3.
Proof.
  intros [Hn1 Hs1] [Hn2 Hs2]. split.
  - intros x. by rewrite Hn1, Hn2.
  - intros x vx Hx. destruct (Hs1 x vx Hx) as (vx2 & Hx2 & Hb2).
    destruct (Hs2 x vx2 Hx2) as (vx3 & Hx3 & Hb3). exists vx3. by eauto.
Qed.

Lemma grows_keeps_marks h h' : grows h h' -> keeps_marks h h'.
Proof.
  intros [Hn Hs]. split.
  - intros x. split; [apply Hn|]. intros Hx'.
    destruct (h !! x) as [vx|] eqn:Hx; [|done].
    destruct (Hs x vx Hx) as (vx' & Hvx' & _). congruence.
  - intros x vx Hx. destruct (Hs x vx Hx) as (vx' & Hx' & _ & Hb). by eauto.
Qed.

Lemma grows_parentOf h h' x : grows h h' -> parentOf h' x = parentOf h x.
Proof.
  intros [Hn Hs]. unfold parentOf. destruct (h !! x) as [vx|] eqn:Hx.
  - destruct (Hs x vx Hx) as (vx' & -> & Hp & _). done.
  - by rewrite (Hn x Hx).
Qed.

Lemma keeps_marks_has_bit h h' bit x :
  keeps_marks h h' -> has_bit bit h x -> has_bit bit h' x.
Proof.
  intros [_ Hs] (vx & Hx & Hb). destruct (Hs x vx Hx) as (vx' & Hx' & Hb').
  exists vx'. split; [done|]. by apply Hb'.
Qed.

Lemma markDirty_self h this andParent h' :
  markDirty h this andParent = Some h' -> is_Some (h !! this) ->
  has_bit Dirty_Node h' this.
Proof.
  intros Hmark [v Hthis].
  destruct (decide (Z.land (dirty v) Dirty_Node = 0%Z)) as [Hn|Hn].
  - rewrite (markDirty_unfold _ _ _ _ Hthis Hn) in Hmark.
    apply markParentsDirty_loop_post in Hmark as (Hg & _).
    eapply grows_has_bit; [exact Hg|]. eexists. rewrite lookup_insert_eq.
    split; [done|]. simpl. rewrite Z.land_lor_distr_l. intros Hl.
    apply Z.lor_eq_0_iff in Hl as [_ ?]. done.
  - rewrite (markDirty_already _ _ _ _ Hthis Hn) in Hmark.
    injection Hmark as <-. by exists v.
Qed.

Lemma clear_parent_lookup h c x :
  clear_parent h c !! x
  = if decide (x = c) then (fun v => mkView None (dirty v)) <$> h !! x
    else h !! x.
Proof.
  unfold clear_parent. destruct (decide (x = c)) as [->|Hne].
  - destruct (h !! c) as [v|] eqn:Hc; [by rewrite lookup_insert_eq|].
    by rewrite Hc.
  - destruct (h !! c) as [v|]; [by rewrite lookup_insert_ne|done].
Qed.

Lemma clear_all_lookup l h x :
  foldl clear_parent h l !! x
  = if decide (x ∈ l) then (fun v => mkView None (dirty v)) <$> h !! x
    else h !! x.
Proof.
  revert h. induction l as [|c l IH]; intros h; simpl.
  - destruct (decide (x ∈ [])) as [Hin|_]; [|done]. by apply elem_of_nil in Hin.
  - rewrite IH, clear_parent_lookup.
    destruct (decide (x = c)) as [->|Hne].
    + rewrite (decide_True (P := c ∈ c :: l)) by constructor.
      destruct (decide (c ∈ l)); [|done]. by destruct (h !! c).
    + destruct (decide (x ∈ l)) as [Hin|Hnin].
      * by rewrite (decide_True (P := x ∈ c :: l)) by (by constructor).
      * rewrite (decide_False (P := x ∈ c :: l)); [done|].
        intros [?|?]%elem_of_cons; done.
Qed.

Lemma clear_all_post l h :
  keeps_marks h (foldl clear_parent h l)
  /\ (forall c, c ∈ l -> parentOf (foldl clear_parent h l) c = None)
  /\ (forall x, x ∉ l -> foldl clear_parent h l !! x = h !! x)
  /\ (well_marked h -> well_marked (foldl clear_parent h l)).
Proof.
  assert (keeps_marks h (foldl clear_parent h l)) as Hkeeps.
  { split.
    - intros x. rewrite clear_all_lookup. destruct (decide (x ∈ l)); [|done].
      by destruct (h !! x).
    - intros x vx Hx. rewrite clear_all_lookup, Hx.
      destruct (decide (x ∈ l)); by eexists. }
  split; [done|]. split; [|split].
  - intros c Hc. unfold parentOf. rewrite clear_all_lookup.
    rewrite decide_True by done. by destruct (h !! c).
  - intros x Hx. rewrite clear_all_lookup. by rewrite decide_False.
  - intros Hwm n v' p Hn Hd Hp Hin. rewrite clear_all_lookup in Hn.
    destruct (decide (n ∈ l)).
    + destruct (h !! n); simpl in Hn; [|done]. injection Hn as <-. done.
    + eapply keeps_marks_has_bit; [exact Hkeeps|].
      eapply Hwm; [exact Hn|done|done|].
      destruct Hin as [vp Hvp]. destruct (h !! p) eqn:E; [done|].
      apply (proj1 Hkeeps) in E. congruence.
Qed.

Lemma detach_throw (children : list nat) e (l : list Z) :
  foldl (fun r i =>
           (h <- r ;;
            match (if (i <? 0)%Z then None else children !! Z.to_nat i) with
            | Some child => Ok (clear_parent h child)
            | None => Throw (TypeError "undefined has no properties")
            end)%result)
        (Throw e) l
  = Throw e.
Proof. induction l as [|i l IH]; [done|]. simpl. apply IH. Qed.

Lemma detach_loop_step children from to h :
  (from < to)%Z ->
  detach_loop children from to h
  = match (if (from <? 0)%Z then None else children !! Z.to_nat from) with
    | Some child => detach_loop children (from + 1) to (clear_parent h child)
    | None => Throw (TypeError "undefined has no properties")
    end.
Proof.
  intros Hlt. unfold detach_loop. rewrite (seqZ_cons from (to - from)) by lia.
  replace (Z.pred (to - from)) with (to - (from + 1))%Z by lia.
  replace (Z.succ from) with (from + 1)%Z by lia.
  cbn [foldl rbind].
  destruct (if (from <? 0)%Z then None else children !! Z.to_nat from);
    [done|]. apply detach_throw.
Qed.

Lemma detach_loop_spec children (n : nat) :
  forall from h, (0 <= from)%Z ->
    ((from + Z.of_nat n <= Z.of_nat (length children))%Z ->
     detach_loop children from (from + Z.of_nat n) h
     = Ok (foldl clear_parent h (removed children from (from + Z.of_nat n))))
    /\ ((Z.of_nat (length children) < from + Z.of_nat n)%Z -> (0 < n)%nat ->
        detach_loop children from (from + Z.of_nat n) h
        = Throw (TypeError "undefined has no properties")).
Proof.
  induction n as [|n IH]; intros from h Hfrom.
  - split; [|lia]. intros _. unfold detach_loop, removed.
    replace (from + Z.of_nat 0 - from)%Z with 0%Z by lia. done.
  - rewrite detach_loop_step by lia.
    destruct (Z.ltb_spec from 0); [lia|].
    replace (from + Z.of_nat (S n))%Z with (from + 1 + Z.of_nat n)%Z by lia.
    destruct (IH (from + 1)%Z) with (h := h) as [_ IHthrow]; [lia|].
    destruct (children !! Z.to_nat from) as [c|] eqn:Hc.
    + destruct (IH (from + 1)%Z (clear_parent h c)) as [IHok IHt]; [lia|].
      apply lookup_lt_Some in Hc as Hlen. split.
      * intros Hin. rewrite IHok by lia. f_equal. unfold removed.
        replace (from + 1 + Z.of_nat n - from)%Z with (Z.of_nat (S n)) by lia.
        replace (from + 1 + Z.of_nat n - (from + 1))%Z with (Z.of_nat n) by lia.
        rewrite !Nat2Z.id.
        rewrite (drop_S _ _ _ Hc). simpl.
        by replace (Z.to_nat (from + 1)) with (S (Z.to_nat from)) by lia.
      * intros Hout _. apply IHt; [lia|]. lia.
    + apply lookup_ge_None in Hc. split; [lia|done].
Qed.

Lemma attach_loop_post children this h :
  exists h',
    attach_loop children this h = Some h'
    /\ keeps_marks h h'
    /\ (forall x, x ∉ children -> parentOf h' x = parentOf h x)
    /\ (forall c, c ∈ children -> is_Some (h !! c) -> parentOf h' c = Some this)
    /\ (well_marked h -> well_marked h').
Proof.
  revert h. induction children as [|c rest IH]; intros h.
  - exists h. split; [done|]. split; [apply keeps_marks_refl|].
    split; [done|]. split; [|done]. by intros c Hc%elem_of_nil.
  - destruct (setParent_post h c this)
      as (h1 & Hset & Hpar & _ & Hdom & Hkeeps & Hwm).
    destruct (IH h1) as (h' & Hloop & Hmarks & Hother & Hnew & Hwm').
    assert (keeps_marks h h1) as Hmarks1.
    { split; [done|]. intros x vx Hx.
      destruct (Hkeeps x vx Hx) as (vx' & Hx' & _ & Hb). by eauto. }
    assert (forall x, x ≠ c -> parentOf h1 x = parentOf h x) as Hsame.
    { intros x Hne. unfold parentOf. destruct (h !! x) as [vx|] eqn:Hx.
      - destruct (Hkeeps x vx Hx) as (vx' & -> & Hp & _). by apply Hp.
      - by rewrite (proj1 (Hdom x) Hx). }
    exists h'. simpl. rewrite Hset. split; [done|].
    split; [by eapply keeps_marks_trans|].
    split; [|split].
    + intros x [Hne Hnin]%not_elem_of_cons. rewrite Hother by done.
      by apply Hsame.
    + intros x Hin Hx. destruct (decide (x ∈ rest)) as [Hrest|Hrest].
      * apply Hnew; [done|]. destruct Hx as [vx Hx].
        destruct (Hkeeps x vx Hx) as (vx' & Hx' & _). by eexists.
      * apply elem_of_cons in Hin as [->|?]; [|done].
        rewrite Hother by done. by apply Hpar.
    + intros Hw. by apply Hwm', Hwm.
Qed.

Lemma splice_in_range {A} (l : list A) (from to : Z) (items : list A) :
  (0 <= from <= to)%Z -> (to <= Z.of_nat (length l))%Z ->
  splice l from (to - from) items
  = take (Z.to_nat from) l ++ items ++ drop (Z.to_nat to) l.
Proof.
  intros Hfrom Hto. unfold splice.
  destruct (Z.ltb_spec from 0); [lia|].
  rewrite (Z.min_l from) by lia. rewrite (Z.max_l (to - from)) by lia.
  rewrite (Z.min_l (to - from)) by lia.
  by replace (from + (to - from))%Z with to by lia.
Qed.

(** X14.  [replaceChildren(from, to, children)] with
    [0 <= from <= to <= this.children.length] returns, and afterwards
    the children of the object are the old ones before [from], the new
    ones, and the old ones from [to] on; the object is marked
    self-dirty; every new child has the object as its parent; an old
    child of the replaced range that is not among the new ones has no
    parent; every other object keeps its parent; no object loses a mark;
    and a well-marked tree stays well marked.  With [from < to] and an
    index of the range outside the array, it raises a type error. *)
Theorem replaceChildren_splices (t : Tree) (this : nat) (from to : Z)
    (children : list nat) :
  let old := childrenOf (layout t) this in
  ((0 <= from <= to)%Z -> (to <= Z.of_nat (length old))%Z ->
   exists t',
     replaceChildren t this from to children = Some (Ok t')
     /\ childrenOf (layout t') this
        = take (Z.to_nat from) old ++ children ++ drop (Z.to_nat to) old
     /\ keeps_marks (views t) (views t')
     /\ (is_Some (views t !! this) -> has_bit Dirty_Node (views t') this)
     /\ (forall c, c ∈ children -> is_Some (views t !! c) ->
           parentOf (views t') c = Some this)
     /\ (forall c, c ∈ removed old from to -> c ∉ children ->
           parentOf (views t') c = None)
     /\ (forall x, x ∉ removed old from to -> x ∉ children ->
           parentOf (views t') x = parentOf (views t) x)
     /\ (well_marked (views t) -> well_marked (views t')))
  /\ ((from < to)%Z -> (from < 0 \/ Z.of_nat (length old) < to)%Z ->
      replaceChildren t this from to children
      = Some (Throw (TypeError "undefined has no properties"))).
Proof.
  intros old. unfold replaceChildren. fold old.
  destruct (markDirty_total (views t) this false) as [h1 Hmark].
  rewrite Hmark.
  pose proof (markDirty_grows _ _ _ _ Hmark) as Hgrows.
  split.
  - intros Hfrom Hto.
    destruct (detach_loop_spec old (Z.to_nat (to - from)) from h1) as [Hok _];
      [lia|].
    rewrite Z2Nat.id in Hok by lia.
    replace (from + (to - from))%Z with to in Hok by lia.
    rewrite Hok by lia.
    destruct (clear_all_post (removed old from to) h1)
      as (Hk2 & Hgone & Hrest & Hwm2).
    destruct (attach_loop_post children this
                (foldl clear_parent h1 (removed old from to)))
      as (h3 & Hattach & Hk3 & Hother & Hnew & Hwm3).
    rewrite Hattach. eexists. split; [done|]. cbn [views layout].
    split.
    { unfold set_children. cbn [childrenOf].
      rewrite bool_decide_eq_true_2 by done. by apply splice_in_range. }
    assert (keeps_marks (views t) h3) as Hkeeps.
    { eapply keeps_marks_trans; [by apply grows_keeps_marks|].
      by eapply keeps_marks_trans. }
    split; [done|]. split.
    { intros Hthis. eapply keeps_marks_has_bit; [exact Hk3|].
      eapply keeps_marks_has_bit; [exact Hk2|]. by eapply markDirty_self. }
    split.
    { intros c Hc [vc Hvc]. apply Hnew; [done|].
      destruct (proj2 (keeps_marks_trans _ _ _
                  (grows_keeps_marks _ _ Hgrows) Hk2) c vc Hvc)
        as (vc' & Hvc' & _). by eexists. }
    split; [intros c Hc Hnot; rewrite Hother by done; by apply Hgone|].
    split.
    { intros x Hx Hnot. rewrite Hother by done.
      rewrite <- (grows_parentOf _ _ x Hgrows). unfold parentOf.
      by rewrite Hrest. }
    intros Hwm. apply Hwm3, Hwm2. by eapply markDirty_well_marked.
  - intros Hlt Hout. destruct (Z.ltb_spec from 0) as [Hneg|Hpos].
    + rewrite detach_loop_step by done.
      destruct (Z.ltb_spec from 0); [done|lia].
    + destruct (detach_loop_spec old (Z.to_nat (to - from)) from h1)
        as [_ Hthrow]; [lia|].
      rewrite Z2Nat.id in Hthrow by lia.
      replace (from + (to - from))%Z with to in Hthrow by lia.
      rewrite Hthrow; [done|lia|lia].
Qed.

End TreeFacts.

Module SearchKeymapFacts.
Import SearchKeymap.

Lemma bound_or_not (entries : Keymap) (key : string) :
  (exists v, (key, v) ∈ entries) \/ (forall v, (key, v) ∉ entries).
Proof.
  induction entries as [|[k v] rest [[v' Hv']|Hno]].
  - right. intros v Hin. by apply elem_of_nil in Hin.
  - left. exists v'. by constructor.
  - destruct (decide (key = k)) as [->|Hne].
    + left. exists v. constructor.
    + right. intros v' [[= ? ?]|Hin]%elem_of_cons; [done|]. by eapply Hno.
Qed.

Lemma keymap_loop_conflict key value rest tb old :
  keys tb !! key = Some old -> old ≠ value ->
  keymap_loop ((key, value) :: rest) tb = Throw conflict_error.
Proof.
  intros Hold Hne. cbn [keymap_loop]. rewrite Hold.
  by rewrite bool_decide_eq_true_2.
Qed.

Lemma keymap_loop_continue key value rest tb :
  (forall old, keys tb !! key = Some old -> old = value) ->
  keymap_loop ((key, value) :: rest) tb
  = keymap_loop rest
      (mkTables (<[key := value]> (keys tb)) (<[key := value]> (panelKeys tb))).
Proof.
  intros Hsame. cbn [keymap_loop]. destruct (keys tb !! key) as [old|]; [|done].
  by rewrite bool_decide_eq_false_2 by (intros Hne; by apply Hne, Hsame).
Qed.

Lemma keymap_loop_spec entries :
  forall tb,
    match keymap_loop entries tb with
    | Throw e =>
        e = conflict_error
        /\ exists key v v',
             (keys tb !! key = Some v \/ (key, v) ∈ entries)
             /\ (key, v') ∈ entries /\ v ≠ v'
    | Ok tb' =>
        (forall key v,
           keys tb' !! key = Some v
           <-> keys tb !! key = Some v \/ (key, v) ∈ entries)
        /\ (forall key, (forall v, (key, v) ∉ entries) ->
              panelKeys tb' !! key = panelKeys tb !! key)
        /\ (forall key v, (key, v) ∈ entries ->
              panelKeys tb' !! key = keys tb' !! key)
    end.
Proof.
  induction entries as [|[key value] rest IH]; intros tb.
  - simpl. split; [|split].
    + intros key v. split; [by left|]. intros [?|Hin]; [done|].
      by apply elem_of_nil in Hin.
    + done.
    + intros key v Hin. by apply elem_of_nil in Hin.
  - assert ((exists old, keys tb !! key = Some old /\ old ≠ value)
            \/ forall old, keys tb !! key = Some old -> old = value)
      as [(old & Hold & Hne)|Hsame].
    { destruct (keys tb !! key) as [old|]; [|by right].
      destruct (decide (old = value)) as [->|Hne];
        [right; by intros ? [= <-]|left; by exists old]. }
    { rewrite (keymap_loop_conflict _ _ _ _ _ Hold Hne). split; [done|].
      exists key, old, value. split; [by left|]. split; [constructor|done]. }
    rewrite keymap_loop_continue by done.
    specialize (IH (mkTables (<[key := value]> (keys tb))
                             (<[key := value]> (panelKeys tb)))).
    destruct (keymap_loop rest _) as [tb'|e]; cbn [keys panelKeys] in IH.
    + destruct IH as (Hkeys & Hout & Hin). split; [|split].
      * intros k v. rewrite Hkeys, elem_of_cons.
        destruct (decide (k = key)) as [->|Hk].
        -- rewrite lookup_insert_eq. split.
           ++ intros [[= <-]|?]; [by right; left|by right; right].
           ++ intros [Hv|[[= ->]|?]]; [|by left|by right].
              left. f_equal. symmetry. by apply Hsame.
        -- rewrite lookup_insert_ne by done. split.
           ++ intros [?|?]; [by left|by right; right].
           ++ intros [?|[[= ? ?]|?]]; [by left|done|by right].
      * intros k Hk. rewrite Hout.
        -- rewrite lookup_insert_ne; [done|]. intros <-.
           apply (Hk value). constructor.
        -- intros v Hv. apply (Hk v). by constructor.
      * intros k v [[= -> ->]|Hv]%elem_of_cons; [|by eapply Hin].
        destruct (bound_or_not rest key) as [[v' Hv']|Hno]; [by eapply Hin|].
        rewrite Hout by done. rewrite lookup_insert_eq. symmetry.
        apply Hkeys. left. by rewrite lookup_insert_eq.
    + destruct IH as (-> & k & v & v' & Hv & Hv' & Hne'). split; [done|].
      exists k, v, v'. split; [|split; [by constructor|done]].
      destruct Hv as [Hv|Hv]; [|right; by constructor].
      destruct (decide (k = key)) as [->|Hk].
      * rewrite lookup_insert_eq in Hv. injection Hv as <-.
        right. constructor.
      * rewrite lookup_insert_ne in Hv by done. by left.
Qed.

Lemma panelKeymap_loop_spec entries :
  forall tb,
    keys (panelKeymap_loop entries tb) = keys tb
    /\ (forall key, (forall v, (key, v) ∉ entries) ->
          panelKeys (panelKeymap_loop entries tb) !! key = panelKeys tb !! key)
    /\ (forall key,
          (exists v, (key, v) ∈ entries) \/ is_Some (panelKeys tb !! key) ->
          is_Some (panelKeys (panelKeymap_loop entries tb) !! key)).
Proof.
  induction entries as [|[key value] rest IH]; intros tb.
  - split; [done|]. split; [done|]. intros key [[v Hin]|?]; [|done].
    by apply elem_of_nil in Hin.
  - change (panelKeymap_loop ((key, value) :: rest) tb)
      with (panelKeymap_loop rest
              (mkTables (keys tb) (<[key := value]> (panelKeys tb)))).
    destruct (IH (mkTables (keys tb) (<[key := value]> (panelKeys tb))))
      as (Hkeys & Hout & Hin).
    cbn [keys panelKeys] in *. split; [done|]. split.
    + intros k Hk. rewrite Hout by (intros v Hv; apply (Hk v); by constructor).
      rewrite lookup_insert_ne; [done|]. intros <-. apply (Hk value). constructor.
    + intros k Hk. apply Hin. destruct (decide (k = key)) as [->|Hne].
      * right. by rewrite lookup_insert_eq.
      * rewrite lookup_insert_ne by done.
        destruct Hk as [[v [[= ? ?]|Hv]%elem_of_cons]|?];
          [done|left; by exists v|by right].
Qed.

Lemma search_loop_cons conf rest tb :
  search_loop (conf :: rest) tb
  = (tb1 <- keymap_loop (default [] (keymap conf)) tb ;;
     search_loop rest (panelKeymap_loop (default [] (panelKeymap conf)) tb1))%result.
Proof. cbn [search_loop]. by destruct (keymap conf), (panelKeymap conf). Qed.

Lemma binds_cons conf rest key v :
  binds (conf :: rest) key v
  <-> (key, v) ∈ default [] (keymap conf) \/ binds rest key v.
Proof.
  unfold binds. split.
  - intros (c & entries & [->|Hc]%elem_of_cons & Hkm & Hin).
    + left. by rewrite Hkm.
    + right. by exists c, entries.
  - intros [Hin|(c & entries & Hc & Hkm & Hin)].
    + destruct (keymap conf) as [entries|] eqn:Hkm;
        [|by apply elem_of_nil in Hin].
      exists conf, entries. split; [constructor|done].
    + exists c, entries. split; [by constructor|done].
Qed.

Lemma panel_binds_cons conf rest key :
  panel_binds (conf :: rest) key
  <-> (exists v, (key, v) ∈ default [] (panelKeymap conf)) \/ panel_binds rest key.
Proof.
  unfold panel_binds. split.
  - intros (c & entries & v & [->|Hc]%elem_of_cons & Hkm & Hin).
    + left. exists v. by rewrite Hkm.
    + right. by exists c, entries, v.
  - intros [[v Hin]|(c & entries & v & Hc & Hkm & Hin)].
    + destruct (panelKeymap conf) as [entries|] eqn:Hkm;
        [|by apply elem_of_nil in Hin].
      exists conf, entries, v. split; [constructor|done].
    + exists c, entries, v. split; [by constructor|done].
Qed.

Lemma search_loop_spec configs :
  forall tb,
    match search_loop configs tb with
    | Throw e =>
        e = conflict_error
        /\ exists key v v',
             (keys tb !! key = Some v \/ binds configs key v)
             /\ binds configs key v' /\ v ≠ v'
    | Ok tb' =>
        (forall key v,
           keys tb' !! key = Some v
           <-> keys tb !! key = Some v \/ binds configs key v)
        /\ (forall key, ~ panel_binds configs key ->
              panelKeys tb !! key = keys tb !! key ->
              panelKeys tb' !! key = keys tb' !! key)
        /\ (forall key,
              panel_binds configs key \/ is_Some (panelKeys tb !! key) ->
              is_Some (panelKeys tb' !! key))
    end.
Proof.
  induction configs as [|conf rest IH]; intros tb.
  - simpl. split; [|split].
    + intros key v. split; [by left|].
      intros [?|(c & ? & Hc & _)]; [done|]. by apply elem_of_nil in Hc.
    + done.
    + intros key [(c & ? & ? & Hc & _)|?]; [|done]. by apply elem_of_nil in Hc.
  - rewrite search_loop_cons.
    pose proof (keymap_loop_spec (default [] (keymap conf)) tb) as Hkm.
    destruct (keymap_loop (default [] (keymap conf)) tb) as [tb1|e];
      cbn [rbind].
    2:{ destruct Hkm as (-> & key & v & v' & Hv & Hv' & Hne). split; [done|].
        exists key, v, v'. rewrite !binds_cons.
        split; [destruct Hv; [by left|by right; left]|]. split; [by left|done]. }
    destruct Hkm as (Hkeys1 & Hout1 & Hin1).
    destruct (panelKeymap_loop_spec (default [] (panelKeymap conf)) tb1)
      as (Hkeys2 & Hout2 & Hin2).
    specialize (IH (panelKeymap_loop (default [] (panelKeymap conf)) tb1)).
    destruct (search_loop rest _) as [tb'|e].
    + destruct IH as (Hkeys & Hsame & Hsome). split; [|split].
      * intros key v. rewrite Hkeys, Hkeys2, Hkeys1, binds_cons. tauto.
      * intros key Hnot Heq. apply Hsame.
        { intros Hp. apply Hnot. apply panel_binds_cons. by right. }
        rewrite Hkeys2, Hout2.
        2:{ intros v Hv. apply Hnot. apply panel_binds_cons. left. by exists v. }
        destruct (bound_or_not (default [] (keymap conf)) key) as [[v Hv]|Hno];
          [by eapply Hin1|].
        rewrite Hout1, Heq by done. apply option_eq. intros v.
        rewrite Hkeys1. split; [by left|]. intros [?|Hv]; [done|].
        by apply Hno in Hv.
      * intros key Hkey. apply Hsome.
        destruct Hkey as [[Hp|Hp]%panel_binds_cons|Hp].
        -- right. apply Hin2. by left.
        -- by left.
        -- right. apply Hin2. right.
           destruct (bound_or_not (default [] (keymap conf)) key)
             as [[v Hv]|Hno].
           ++ rewrite (Hin1 _ _ Hv). exists v. apply Hkeys1. by right.
           ++ by rewrite Hout1.
    + destruct IH as (-> & key & v & v' & Hv & Hv' & Hne). split; [done|].
      exists key, v, v'. rewrite !binds_cons. split; [|split; [by right|done]].
      destruct Hv as [Hv|Hv]; [|by right; right].
      rewrite Hkeys2 in Hv. apply Hkeys1 in Hv as [?|?];
        [by left|by right; left].
Qed.

(** X15.  The two objects that the combiner of [search] builds.  When
    two keymaps of the configurations, or one of them, bind a key to
    different commands, the combiner raises the error
    [Conflicting keyss for search extension], and it raises nothing
    else.  Otherwise [keys] binds a key to a command exactly when some
    keymap does; [panelKeys] agrees with [keys] on every key that no
    panel keymap binds, and binds every key that a panel keymap
    binds. *)
Theorem search_tables_merge (configs : list SearchConfig) :
  (conflicting configs <-> search_tables configs = Throw conflict_error)
  /\ (forall e, search_tables configs = Throw e -> e = conflict_error)
  /\ (forall tb, search_tables configs = Ok tb ->
        (forall key v, keys tb !! key = Some v <-> binds configs key v)
        /\ (forall key, ~ panel_binds configs key ->
              panelKeys tb !! key = keys tb !! key)
        /\ (forall key, panel_binds configs key ->
              is_Some (panelKeys tb !! key))).
Proof.
  unfold search_tables.
  pose proof (search_loop_spec configs (mkTables ∅ ∅)) as Hspec.
  destruct (search_loop configs (mkTables ∅ ∅)) as [tb|e]; cbn [keys panelKeys] in Hspec.
  - destruct Hspec as (Hkeys & Hsame & Hsome).
    assert (forall key v, keys tb !! key = Some v <-> binds configs key v)
      as Hkeys'.
    { intros key v. rewrite Hkeys, lookup_empty. split; [|by right].
      by intros [?|?]. }
    split; [|split].
    + split; [|done]. intros (key & v & v' & Hv & Hv' & Hne).
      apply Hkeys' in Hv, Hv'. congruence.
    + done.
    + intros tb0 [= <-]. split; [done|]. split.
      * intros key Hnot. apply Hsame; [done|]. by rewrite !lookup_empty.
      * intros key Hp. apply Hsome. by left.
  - destruct Hspec as (-> & key & v & v' & Hv & Hv' & Hne).
    rewrite lookup_empty in Hv. split; [|split].
    + split; [done|]. intros _. exists key, v, v'.
      by destruct Hv as [?|?].
    + by intros e [= <-].
    + done.
Qed.

End SearchKeymapFacts.

Module FindPrevFacts.
Import FindPrev.







End FindPrevFacts.

(** ** The further properties on the objects of the model *)

Section FurtherInstances.
Import Model.
Local Existing Instances change_ops mapping_ops config_ops field_ops json_ops.

(** The snapshots of [tr_aXc], after [replace(1, 2, "X")] on [abc]. *)
Lemma doc_applies_changes_at_tr_aXc :
  consistent tr_aXc
  /\ length (tr_docs tr_aXc) = ChangeSet_length (tr_changes tr_aXc)
  /\ tr_doc tr_aXc
     = apply_changes (changes (tr_changes tr_aXc)) (st_doc (tr_startState tr_aXc)).
Proof.
  assert (consistent tr_aXc) as Hc.
  { split; [|discriminate]. simpl. split; [|split; [reflexivity|exact I]].
    unfold change_in_bounds. vm_compute. intuition discriminate. }
  split; [exact Hc|].
  destruct (doc_applies_changes tr_aXc Hc) as (Hlen & _ & Hdoc & _).
  split; [exact Hlen|exact Hdoc].
Defined.

(** [forEachRange] with the callback of [replaceSelection("XY")]. *)
Lemma methods_only_extend_at_insert_XY :
  (forall range, only_extends (insert_XY range))
  /\ only_extends (forEachRange insert_XY).
Proof.
  destruct (@methods_only_extend change_ops mapping_ops config_ops field_ops)
    as (Hchange & _ & _ & _ & _ & _ & _ & _ & Heach & _).
  assert (forall range, only_extends (insert_XY range)) as Hcb.
  { intros range. unfold insert_XY. apply only_extends_bind; [apply Hchange|].
    intros _. apply only_extends_pure. reflexivity. }
  split; [exact Hcb|]. exact (Heach insert_XY Hcb).
Defined.

(** [scrollIntoView] on the open transaction [tr_abc]. *)
Lemma flags_independent_at_tr_abc :
  tr_state tr_abc = None
  /\ scrolledIntoView (fst (scrollIntoView tr_abc)) = true
  /\ selectionSet (fst (scrollIntoView tr_abc)) = selectionSet tr_abc
  /\ reconfigured (fst (scrollIntoView tr_abc)) = reconfigured tr_abc.
Proof.
  split; [reflexivity|].
  exact (proj1 (proj2 (proj1 (flags_independent tr_abc) eq_refl))).
Defined.

(** Undoing [replace(1, 2, "X")] on [abc], one change at a time. *)
Lemma invertedChanges_steps_at_tr_aXc :
  consistent tr_aXc
  /\ exists inverted,
       invertedChanges tr_aXc = Ok inverted
       /\ ChangeSet_length inverted = ChangeSet_length (tr_changes tr_aXc)
       /\ forall k, (k <= ChangeSet_length (tr_changes tr_aXc))%nat ->
            (st_doc (tr_startState tr_aXc) :: tr_docs tr_aXc)
              !! (ChangeSet_length (tr_changes tr_aXc) - k)%nat
            = Some (apply_changes (take k (changes inverted)) (tr_doc tr_aXc)).
Proof.
  assert (consistent tr_aXc) as Hc.
  { split; [|discriminate]. simpl. split; [|split; [reflexivity|exact I]].
    unfold change_in_bounds. vm_compute. intuition discriminate. }
  split; [exact Hc|].
  exact (invertedChanges_steps tr_aXc model_invert_apply Hc).
Defined.

(** Annotating the open transaction [tr_abc] with a user event. *)
Lemma annotate_then_lookup_at_tr_abc :
  tr_state tr_abc = None
  /\ annotation
       (fst (annotate ([] ++ [mkAnnotation Transaction_userEvent (VStr "paste")])
               tr_abc))
       Transaction_userEvent
     = VStr "paste".
Proof.
  split; [reflexivity|].
  exact (proj1 (annotate_then_lookup tr_abc eq_refl) []
           (mkAnnotation Transaction_userEvent (VStr "paste"))).
Defined.

(** The state that [create] makes for [abc] with the field [7]. *)
Lemma built_state_fields_at_abc :
  exists st,
    create config_abc_field = Ok st
    /\ has_values_for st (stateField (st_configuration st)).
Proof.
  match goal with
  | |- exists st, ?made = Ok st /\ _ => destruct made as [st|e] eqn:Hcreate
  end; [|vm_compute in Hcreate; discriminate].
  exists st. split; [reflexivity|].
  apply (proj1 (built_state_fields st
                  (or_introl (ex_intro _ _ Hcreate)))).
Defined.

(** [create] with the field [7] declared once. *)
Lemma create_duplicates_at_abc :
  NoDup (stateField (extendState_resolve [ext_field 7]))
  /\ create config_abc_field ≠ Throw duplicate_error.
Proof.
  assert (NoDup (stateField (extendState_resolve [ext_field 7]))) as Hnd.
  { apply (bool_decide_unpack _). vm_compute. exact I. }
  split; [exact Hnd|].
  apply (proj1 (create_duplicates config_abc_field)).
  - intros fld st. simpl. discriminate.
  - exact Hnd.
Defined.


End FurtherInstances.

(** ** The further properties on the document view [doc_tree] *)

Module TreeInstances.
Import ContentView ContentTree.

(** Giving the new line [3] the document view [0] as its parent. *)
Lemma setParent_marks_at_doc :
  exists h',
    setParent doc_views 3 0 = Some h'
    /\ parentOf h' 3 = Some 0%nat
    /\ has_bit Dirty_Node h' 0 /\ has_bit Dirty_Child h' 0.
Proof.
  assert (doc_views !! 3%nat = Some (mkView None Dirty_Node)) as H3
    by (vm_compute; reflexivity).
  assert (is_Some (doc_views !! 0%nat)) as H0
    by (exists (mkView None Dirty_Not); vm_compute; reflexivity).
  destruct (TreeFacts.setParent_marks doc_views 3 0)
    as (h' & Hset & Hparent & Hmarks & _).
  exists h'. split; [exact Hset|]. split.
  - apply Hparent. rewrite H3. eexists. reflexivity.
  - apply (Hmarks _ H3); [discriminate|discriminate|exact H0].
Defined.

(** The root view of the line [1]. *)
Lemma rootView_root_at_doc :
  root_path doc_views 1 [0%nat]
  /\ rootView 2 doc_views 1 = Some 0%nat.
Proof.
  assert (root_path doc_views 1 [0%nat]) as Hpath
    by (split; vm_compute; reflexivity).
  split; [exact Hpath|].
  apply (proj1 (proj2 (TreeFacts.rootView_root doc_views 1) [0%nat] 2%nat
                  Hpath ltac:(simpl; lia))).
Defined.

(** The start of the line [2], after the line [1] and its break. *)
Lemma posAtStart_child_at_doc :
  parentOf doc_views 2 = Some 0%nat
  /\ posAtStart 1 doc_views doc_layout 0 = Some (Ok 0)
  /\ posAtStart 2 doc_views doc_layout 2 = Some (Ok (0 + extent doc_layout [1%nat]))
  /\ posAtEnd 2 doc_views doc_layout 2
     = Some (Ok (0 + extent doc_layout [1%nat] + lengthOf doc_layout 2)).
Proof.
  assert (parentOf doc_views 2 = Some 0%nat) as Hp by (vm_compute; reflexivity).
  assert (posAtStart 1 doc_views doc_layout 0 = Some (Ok 0)) as H0
    by (vm_compute; reflexivity).
  split; [exact Hp|]. split; [exact H0|].
  destruct (proj2 (proj1 (proj2 (TreeFacts.posAtStart_child doc_views doc_layout
                                   2 1)) 0%nat 0 Hp H0) [1%nat] [] eq_refl)
    as (Hstart & _ & _ & Hend & _).
  - intros Hin. apply list_elem_of_singleton in Hin. discriminate.
  - split; [exact Hstart|exact Hend].
Defined.

(** The position [4] in the document view is the start of its second
    line. *)
Lemma childPos_locates_at_doc :
  lengthOf doc_layout 0 = extent doc_layout (childrenOf doc_layout 0)
  /\ exists k,
       childPos doc_layout 0 4 None
       = Ok (mkCursor (childrenOf doc_layout 0)
               (extent doc_layout (take k (childrenOf doc_layout 0))) k
               (4 - extent doc_layout (take k (childrenOf doc_layout 0))))
       /\ stops_at doc_layout (childrenOf doc_layout 0) 4 1 0
            (length (childrenOf doc_layout 0)) k.
Proof.
  split; [reflexivity|].
  apply (proj2 (TreeFacts.childPos_locates doc_layout 0 4 None eq_refl
                  ltac:(intros c Hin; apply list_elem_of_In in Hin; simpl in Hin;
                        destruct Hin as [<-|[<-|[]]]; simpl; lia))).
  lia.
Defined.

(** Replacing the second line of the document view by the new line
    [3]. *)
Lemma replaceChildren_splices_at_doc :
  exists t',
    replaceChildren doc_tree 0 1 2 [3%nat] = Some (Ok t')
    /\ childrenOf (layout t') 0 = [1%nat; 3%nat]
    /\ has_bit Dirty_Node (views t') 0
    /\ parentOf (views t') 3 = Some 0%nat
    /\ parentOf (views t') 2 = None.
Proof.
  destruct (proj1 (TreeFacts.replaceChildren_splices doc_tree 0 1 2 [3%nat])
              ltac:(lia) ltac:(simpl; lia))
    as (t' & Hreplace & Hchildren & _ & Hself & Hnew & Hgone & _).
  exists t'. split; [exact Hreplace|]. split; [exact Hchildren|].
  split; [|split].
  - apply Hself. exists (mkView None Dirty_Not). vm_compute. reflexivity.
  - apply Hnew; [apply list_elem_of_here|].
    exists (mkView None Dirty_Node). vm_compute. reflexivity.
  - apply Hgone.
    + vm_compute. apply list_elem_of_here.
    + intros Hin. apply list_elem_of_singleton in Hin. discriminate.
Defined.

End TreeInstances.

(** ** The further properties on keymaps and matches *)

Module SearchInstances.
Import SearchKeymap FindPrev.

(** Two configurations that bind [F3] to different commands. *)
Lemma search_tables_merge_at_F3 :
  conflicting [mkSearchConfig (Some [("F3"%string, 1%nat)]) None;
               mkSearchConfig (Some [("F3"%string, 2%nat)]) None]
  /\ search_tables [mkSearchConfig (Some [("F3"%string, 1%nat)]) None;
                    mkSearchConfig (Some [("F3"%string, 2%nat)]) None]
     = Throw conflict_error.
Proof.
  assert (conflicting [mkSearchConfig (Some [("F3"%string, 1%nat)]) None;
                       mkSearchConfig (Some [("F3"%string, 2%nat)]) None])
    as Hconflict.
  { exists "F3"%string, 1%nat, 2%nat. split; [|split; [|discriminate]].
    - eexists _, _. split; [apply list_elem_of_here|].
      split; [reflexivity|apply list_elem_of_here].
    - eexists _, _. split; [apply list_elem_of_further, list_elem_of_here|].
      split; [reflexivity|apply list_elem_of_here]. }
  split; [exact Hconflict|].
  apply (proj1 (proj1 (SearchKeymapFacts.search_tables_merge _)) Hconflict).
Defined.


End SearchInstances.
